(** * dl.py: the batch downloader, embedded and verified

    The development follows the layout of [dl.py]:
    - [Py]: the Python string and path primitives the script relies on
      ([str.split], [str.strip], [os.path.join], text-mode newline handling);
    - [Eff]: coroutines as trees of actions, the world they run in
      (network oracle, file system, trace) and the interpreter;
    - [Dl]: the functions of [dl.py], one definition per [def];
    - [Pool]: [asyncio.Semaphore] and [asyncio.gather] as a transition
      system over the coroutines of [Eff];
    - the properties. *)

From Stdlib Require Import ZArith NArith List Bool Lia Ascii String Decimal DecimalZ.
From stdpp Require Import base decidable list gmap sets.
From Equations Require Import Equations.

Local Open Scope Z_scope.
Local Open Scope list_scope.

(** ** Python strings *)

Module Py.

(** A [str] is a sequence of Unicode code points. *)
Abbreviation char := N (only parsing).
Abbreviation str := (list N) (only parsing).

(** String literals of the script. *)
Definition lit (s : string) : str := List.map N_of_ascii (list_ascii_of_string s).

Definition LF : N := 10%N.
Definition CR : N := 13%N.
Definition SLASH : N := 47%N.
Definition QMARK : N := 63%N.

(** Truthiness of a [str]: the empty string is false. *)
Definition truthy (s : str) : bool :=
  match s with [] => false | _ :: _ => true end.

(** [--flag] values are [None] when the flag is absent. *)
Definition truthy_opt (o : option str) : bool :=
  match o with None => false | Some s => truthy s end.

(** Truthiness of an optional [int]: [None] and [0] are false. *)
Definition truthy_int (o : option Z) : bool :=
  match o with None => false | Some z => negb (z =? 0) end.

(** [s.split(sep)] for a one-character separator. The result is never
    empty: [''.split(c) == ['']]. *)
Fixpoint split (sep : N) (s : str) : list str :=
  match s with
  | [] => [[]]
  | c :: s' =>
      if N.eqb c sep then [] :: split sep s'
      else match split sep s' with
           | [] => [[c]]
           | w :: ws => (c :: w) :: ws
           end
  end.

(** [l[0]] and [l[-1]]; both raise [IndexError] on an empty list, which is
    [None] here. *)
Definition index_first {A} (l : list A) : option A := List.hd_error l.
Definition index_last {A} (l : list A) : option A := List.hd_error (List.rev l).

(** Characters removed by [str.strip()] without arguments: those for which
    [str.isspace] holds. *)
Definition isspace (c : N) : bool :=
  ((9 <=? c) && (c <=? 13) || (28 <=? c) && (c <=? 32) ||
   (c =? 133) || (c =? 160) || (c =? 5760) ||
   (8192 <=? c) && (c <=? 8202) || (c =? 8232) || (c =? 8233) ||
   (c =? 8239) || (c =? 8287) || (c =? 12288))%N.

Fixpoint lstrip (s : str) : str :=
  match s with
  | [] => []
  | c :: s' => if isspace c then lstrip s' else s
  end.

Definition rstrip (s : str) : str := List.rev (lstrip (List.rev s)).

Definition strip (s : str) : str := rstrip (lstrip s).

(** [s.startswith(c)] and [s.endswith(c)] for a one-character [c]. *)
Definition startswith (c : N) (s : str) : bool :=
  match s with x :: _ => N.eqb x c | [] => false end.
Definition endswith (c : N) (s : str) : bool := startswith c (List.rev s).

(** [posixpath.join(a, b)]. *)
Definition path_join (a b : str) : str :=
  if startswith SLASH b then b
  else if negb (truthy a) || endswith SLASH a then a ++ b
  else a ++ SLASH :: b.

(** [posixpath.dirname(p)]: the head up to the last slash, with trailing
    slashes removed unless the head consists of slashes only. *)
Fixpoint rsplit_head (p : str) : str :=
  (* what precedes and includes the last slash of [p] *)
  match p with
  | [] => []
  | c :: p' =>
      if existsb (N.eqb SLASH) p then c :: rsplit_head p' else []
  end.

Definition dirname (p : str) : str :=
  let head := rsplit_head p in
  if truthy head && negb (forallb (N.eqb SLASH) head)
  then List.rev (let fix drop (s : str) :=
                   match s with
                   | c :: s' => if N.eqb c SLASH then drop s' else s
                   | [] => []
                   end in drop (List.rev head))
  else head.

(** [str(n)] for an [int]. *)
Fixpoint digits (d : Decimal.uint) : str :=
  match d with
  | Nil => []
  | D0 d => 48%N :: digits d | D1 d => 49%N :: digits d
  | D2 d => 50%N :: digits d | D3 d => 51%N :: digits d
  | D4 d => 52%N :: digits d | D5 d => 53%N :: digits d
  | D6 d => 54%N :: digits d | D7 d => 55%N :: digits d
  | D8 d => 56%N :: digits d | D9 d => 57%N :: digits d
  end.

Definition str_of_int (z : Z) : str :=
  match Z.to_int z with
  | Pos d => digits d
  | Neg d => 45%N :: digits d
  end.

(** [n / 1000] for an [int] [n]. True division of two ints rounds the
    exact quotient to the nearest [float], ties to even, and raises
    [OverflowError] when the rounded quotient is beyond the largest float,
    [(2^53 - 1) * 2^971]: that is from the midpoint [2^1024 - 2^970]
    upwards, whatever the sign. *)
Definition FLOAT_OVERFLOW : Z := Eval vm_compute in 2 ^ 1024 - 2 ^ 970.

Definition seconds_overflow (ms : Z) : bool := 1000 * FLOAT_OVERFLOW <=? Z.abs ms.

(** Text mode, [newline=None]. On reading, [\r\n] and a lone [\r] become
    [\n]: every [\r] yields [\n], and a [\n] that follows a [\r] is
    dropped ([pendingcr] is the decoder's flag). On writing, [\n] becomes
    [os.linesep]. *)
Fixpoint newline_decode (pendingcr : bool) (s : str) : str :=
  match s with
  | [] => []
  | c :: t =>
      if N.eqb c CR then LF :: newline_decode true t
      else if N.eqb c LF then
        if pendingcr then newline_decode false t else LF :: newline_decode false t
      else c :: newline_decode false t
  end.

Definition universal_newlines (s : str) : str := newline_decode false s.

Inductive platform := Posix | Windows.

Definition linesep (pf : platform) : str :=
  match pf with Posix => [LF] | Windows => [CR; LF] end.

Fixpoint write_newlines (pf : platform) (s : str) : str :=
  match s with
  | [] => []
  | c :: t => if N.eqb c LF then linesep pf ++ write_newlines pf t
              else c :: write_newlines pf t
  end.

End Py.

Import Py.


(** ** Coroutines, actions and the world *)

Module Eff.

(** Values of a decoded JSON document, as far as the script inspects them:
    a string, a dict, or anything else (number, list, bool, null). *)
#[warnings="-register-all"]
Inductive pyval :=
| PStr (s : str)
| PDict (items : list (str * pyval))
| POther.

(** The exceptions that reach the script. All are subclasses of
    [Exception]. *)
Inductive exn :=
| FetchUrlFailed (status : Z)   (* Exception(f"Failed to fetch download URL: {status}") *)
| Forbidden                     (* Exception("Received 403 Forbidden") *)
| KeyError (key : str)
| TypeError
| FileNotFoundError (path : str)
| FileExistsError (path : str)
| IsADirectoryError (path : str)
| OverflowError                 (* "integer division result too large for a float" *)
| ClientError (tag : N).        (* raised inside aiohttp: connection, payload, decoding *)

(** What [session.post] hands back: the status and the outcome of
    [response.json()]. *)
Record post_response := { post_status : Z; post_json : exn + pyval }.

(** What [session.get] hands back: the status, the chunks that
    [iter_chunked] yields, and the exception that ends the stream early,
    if any. *)
Record get_response := { get_status : Z; get_chunks : list str; get_error : option exn }.

(** Lines written by [print]. *)
Inductive message :=
| MsgDownloading (video_id output_path : str)
| MsgWaiting (timeout : Z)
| MsgWaiting5
| MsgFailed (video_id : str) (e : exn).

(** The actions a coroutine performs on its environment. A duration is
    kept as the number of milliseconds it was computed from: the float
    [d / 1000] in [asyncio.sleep(d / 1000)] is [ASleep d], and
    [asyncio.sleep(5)] is [ASleep 5000]. *)
Inductive action :=
| APost (url : str)
| AGet (url : pyval)
| ASleep (ms : Z)
| APrint (m : message)
| AExists (p : str)
| AMakedirs (p : str)
| AOpenWB (p : str)
| AWrite (p : str) (chunk : str)
| AReadText (p : str)
| AAppendText (p : str) (s : str).

Definition answer (a : action) : Type :=
  match a with
  | APost _ => exn + post_response
  | AGet _ => exn + get_response
  | ASleep _ => unit
  | APrint _ => unit
  | AExists _ => bool
  | AMakedirs _ => exn + unit
  | AOpenWB _ => exn + unit
  | AWrite _ _ => exn + unit
  | AReadText _ => exn + str
  | AAppendText _ _ => exn + unit
  end.

(** A coroutine: it returns, raises, or performs an action and goes on
    with the answer. *)
Inductive prog (A : Type) : Type :=
| Ret (a : A)
| Raise (e : exn)
| Vis (a : action) (k : answer a -> prog A).
Arguments Ret {A} a.
Arguments Raise {A} e.
Arguments Vis {A} a k.

Fixpoint bind {A B} (p : prog A) (f : A -> prog B) : prog B :=
  match p with
  | Ret a => f a
  | Raise e => Raise e
  | Vis a k => Vis a (fun x => bind (k x) f)
  end.

(** [try: p except Exception as e: h e]. *)
Fixpoint try_catch {A} (p : prog A) (h : exn -> prog A) : prog A :=
  match p with
  | Ret a => Ret a
  | Raise e => h e
  | Vis a k => Vis a (fun x => try_catch (k x) h)
  end.

#[export] Instance prog_ret : MRet prog := @Ret.
#[export] Instance prog_bind : MBind prog := fun A B f p => bind p f.

(** An action that cannot raise, and one whose answer may be an exception. *)
Definition perform (a : action) : prog (answer a) := Vis a Ret.
Definition lift {X} (r : exn + X) : prog X :=
  match r with inl e => Raise e | inr x => Ret x end.

Definition post (url : str) : prog post_response := Vis (APost url) lift.
Definition get (url : pyval) : prog get_response := Vis (AGet url) lift.
Definition sleep (ms : Z) : prog unit := Vis (ASleep ms) Ret.
Definition print (m : message) : prog unit := Vis (APrint m) Ret.
Definition path_exists (p : str) : prog bool := Vis (AExists p) Ret.
Definition makedirs (p : str) : prog unit := Vis (AMakedirs p) lift.
Definition open_wb (p : str) : prog unit := Vis (AOpenWB p) lift.
Definition write (p chunk : str) : prog unit := Vis (AWrite p chunk) lift.
Definition read_text (p : str) : prog str := Vis (AReadText p) lift.
Definition append_text (p s : str) : prog unit := Vis (AAppendText p s) lift.

(** The world: the remote platform as an oracle that answers the n-th
    network request, the file system, and the trace of the actions
    performed so far, oldest first. Text files hold their characters;
    the file system raises only where the state decides it (a missing
    file or directory, a directory in the place of a file). *)
Record world := {
  net_post : nat -> str -> exn + post_response;
  net_get : nat -> pyval -> exn + get_response;
  requests : nat;
  files : gmap str str;
  dirs : gset str;
  os : platform;
  trace : list action }.

Definition log_action (a : action) (w : world) : world :=
  {| net_post := net_post w; net_get := net_get w; requests := requests w;
     files := files w; dirs := dirs w; os := os w; trace := trace w ++ [a] |}.

Definition next_request (w : world) : world :=
  {| net_post := net_post w; net_get := net_get w; requests := S (requests w);
     files := files w; dirs := dirs w; os := os w; trace := trace w |}.

Definition set_files (f : gmap str str) (w : world) : world :=
  {| net_post := net_post w; net_get := net_get w; requests := requests w;
     files := f; dirs := dirs w; os := os w; trace := trace w |}.

Definition set_dirs (d : gset str) (w : world) : world :=
  {| net_post := net_post w; net_get := net_get w; requests := requests w;
     files := files w; dirs := d; os := os w; trace := trace w |}.

Definition file_content (w : world) (p : str) : str := default [] (files w !! p).

(** The answer of the world to one action, and the world after it. *)
Definition react (a : action) (w : world) : answer a * world :=
  match a return answer a * world with
  | APost url => (net_post w (requests w) url, next_request w)
  | AGet url => (net_get w (requests w) url, next_request w)
  | ASleep _ => (tt, w)
  | APrint _ => (tt, w)
  | AExists p => (bool_decide (p ∈ dirs w) || bool_decide (is_Some (files w !! p)), w)
  | AMakedirs p =>
      (* exist_ok=True: an existing directory is fine, an existing file is not *)
      if bool_decide (is_Some (files w !! p)) then (inl (FileExistsError p), w)
      else (inr tt, set_dirs ({[p]} ∪ dirs w) w)
  | AOpenWB p =>
      if bool_decide (p ∈ dirs w) then (inl (IsADirectoryError p), w)
      else if truthy (dirname p) && negb (bool_decide (dirname p ∈ dirs w))
      then (inl (FileNotFoundError p), w)
      else (inr tt, set_files (<[p := []]> (files w)) w)
  | AWrite p chunk => (inr tt, set_files (<[p := file_content w p ++ chunk]> (files w)) w)
  | AReadText p =>
      match files w !! p with
      | None => (inl (FileNotFoundError p), w)
      | Some c => (inr (universal_newlines c), w)
      end
  | AAppendText p s =>
      (inr tt, set_files (<[p := file_content w p ++ write_newlines (os w) s]> (files w)) w)
  end.

Definition handle (a : action) (w : world) : answer a * world :=
  react a (log_action a w).

(** Running a coroutine to its end, alone. *)
Fixpoint exec {A} (p : prog A) (w : world) : (exn + A) * world :=
  match p with
  | Ret a => (inr a, w)
  | Raise e => (inl e, w)
  | Vis a k => let '(x, w') := handle a w in exec (k x) w'
  end.

(** The actions a run adds to the trace. *)
Definition emitted {A} (p : prog A) (w : world) : list action :=
  drop (length (trace w)) (trace (exec p w).2).

End Eff.

Import Eff.

(** ** The functions of dl.py *)

Module Dl.

(** [extract_id(url)] *)
Definition extract_id (url : str) : str :=
  let url := default [] (index_first (split QMARK url)) in
  default [] (index_last (split SLASH url)).

(** [data["url"]] *)
Fixpoint dict_get (items : list (str * pyval)) (key : str) : option pyval :=
  match items with
  | [] => None
  | (k, v) :: rest => if decide (k = key) then Some v else dict_get rest key
  end.

Definition subscript (data : pyval) (key : str) : prog pyval :=
  match data with
  | PDict items =>
      match dict_get items key with
      | Some v => Ret v
      | None => Raise (KeyError key)
      end
  | PStr _ | POther => Raise TypeError
  end.

Definition transcoded_url (video_id : str) : str :=
  lit "https://www.loom.com/api/campaigns/sessions/" ++ video_id ++ lit "/transcoded-url".

(** [fetch_loom_download_url(session, video_id)] *)
Definition fetch_loom_download_url (video_id : str) : prog pyval :=
  let url := transcoded_url video_id in
  response ← post url;
  if negb (post_status response =? 200) then
    Raise (FetchUrlFailed (post_status response))
  else
    data ← lift (post_json response);
    subscript data (lit "url").

(** [for chunk in ...: f.write(chunk)] *)
Fixpoint write_chunks (output_path : str) (chunks : list str) : prog unit :=
  match chunks with
  | [] => Ret tt
  | chunk :: rest => write output_path chunk ;; write_chunks output_path rest
  end.

(** [download_loom_video(session, url, output_path)] *)
Definition download_loom_video (url : pyval) (output_path : str) : prog unit :=
  let output_dir := dirname output_path in
  (if truthy output_dir then
     present ← path_exists output_dir;
     if negb present then makedirs output_dir else Ret tt
   else Ret tt) ;;
  response ← get url;
  if get_status response =? 403 then
    Raise Forbidden
  else
    open_wb output_path ;;
    write_chunks output_path (get_chunks response) ;;
    match get_error response with
    | Some e => Raise e
    | None => Ret tt
    end.

(** [ms / 1000], the float that [asyncio.sleep] and the f-string of the
    pause are given. *)
Definition seconds_of_ms (ms : Z) : prog Z :=
  if seconds_overflow ms then Raise OverflowError else Ret ms.

(** [backoff(retries, fn, delay=1000)]. [fn] is a thunk that builds a new
    coroutine on each call, so it is the coroutine's description here. An
    exception of [delay / 1000] is raised inside the handler and leaves
    [backoff]. *)
Equations? backoff {A} (retries : Z) (fn : prog A) (delay : Z) : prog A
  by wf (Z.to_nat retries) lt :=
  backoff retries fn delay :=
    try_catch fn (fun e =>
      match decide (retries > 1 ∧ delay ≤ 32000) with
      | left _ =>
          seconds ← seconds_of_ms delay;
          sleep seconds ;;
          backoff (retries - 1) fn (delay * 2)
      | right _ => Raise e
      end).
Proof. lia. Qed.

(** [append_to_log_file(url, log_file)] *)
Definition append_to_log_file (url log_file : str) : prog unit :=
  append_text log_file (url ++ [LF]).

(** [[line.strip() for line in content.split('\n') if line.strip()]] *)
Definition stripped_lines (content : str) : list str :=
  List.map strip (List.filter (fun line => truthy (strip line)) (split LF content)).

(** [read_downloaded_log(log_file)] *)
Definition read_downloaded_log (log_file : str) : prog (gset str) :=
  try_catch
    (content ← read_text log_file;
     Ret (list_to_set (stripped_lines content)))
    (fun e => match e with
              | FileNotFoundError _ => Ret ∅
              | _ => Raise e
              end).

(** The command line after [parse_args]. *)
Record args := {
  a_url : option str;
  a_list : option str;
  a_prefix : option str;
  a_out : option str;
  a_timeout : option Z }.

(** The keyword arguments of one [download_single_video(...)] call. *)
Record job := {
  url : str;
  video_id : str;
  output_directory : str;
  prefix : option str;
  index : Z;
  log_file : str;
  timeout : option Z }.

Definition filename (j : job) : str :=
  match prefix j with
  | Some p =>
      if truthy p then p ++ lit "-" ++ str_of_int (index j) ++ lit "-" ++ video_id j ++ lit ".mp4"
      else video_id j ++ lit ".mp4"
  | None => video_id j ++ lit ".mp4"
  end.

Definition output_path (j : job) : str := path_join (output_directory j) (filename j).

(** The [if timeout: ... else: ...] at the end of the [try] block. The
    f-string evaluates [timeout/1000] before anything is printed, and the
    argument of [asyncio.sleep] evaluates it again. *)
Definition pace (timeout : option Z) : prog unit :=
  match timeout with
  | Some t =>
      if negb (t =? 0) then
        shown ← seconds_of_ms t;
        print (MsgWaiting shown) ;;
        seconds ← seconds_of_ms t;
        sleep seconds
      else print MsgWaiting5 ;; sleep 5000
  | None => print MsgWaiting5 ;; sleep 5000
  end.

(** The [try] block of [download_single_video]. *)
Definition download_single_video_try (j : job) : prog unit :=
  download_url ← fetch_loom_download_url (video_id j);
  print (MsgDownloading (video_id j) (output_path j)) ;;
  backoff 5 (download_loom_video download_url (output_path j)) 1000 ;;
  append_to_log_file (url j) (log_file j) ;;
  pace (timeout j).

(** [download_single_video(session, url, video_id, ...)] *)
Definition download_single_video (j : job) : prog unit :=
  try_catch (download_single_video_try j)
            (fun e => print (MsgFailed (video_id j) e)).

Section Batch.

(** [os.path.dirname(os.path.abspath(__file__))] and [os.path.abspath]. *)
Variable script_dir : str.
Variable abspath : str -> str.

(** [[url.strip() for url in content.split('\n')
      if url.strip() and url.strip() not in downloaded_set]] *)
Definition pending_urls (content : str) (downloaded_set : gset str) : list str :=
  List.map strip
    (List.filter (fun u => truthy (strip u) && negb (bool_decide (strip u ∈ downloaded_set)))
                 (split LF content)).

(** The [for i, url in enumerate(urls)] loop: the coroutines handed to
    [async_pool], by their arguments. *)
Definition make_tasks (a : args) (output_directory log_file : str) (urls : list str) : list job :=
  imap (fun i url =>
          {| url := url; video_id := extract_id url;
             output_directory := output_directory; prefix := a_prefix a;
             index := Z.of_nat i + 1; log_file := log_file;
             timeout := a_timeout a |}) urls.

(** [log_file = os.path.join(script_dir, 'downloaded.log')] *)
Definition batch_log_file : str := path_join script_dir (lit "downloaded.log").

(** [output_directory = os.path.abspath(args.out) if args.out
      else os.path.join(script_dir, 'Downloads')] *)
Definition batch_output_directory (a : args) : str :=
  match a_out a with
  | Some o => if truthy o then abspath o else path_join script_dir (lit "Downloads")
  | None => path_join script_dir (lit "Downloads")
  end.

(** [download_from_list(args)] up to the call of [async_pool(5, tasks)]:
    the result is [tasks]. [abspath(None)] is a [TypeError]. *)
Definition download_from_list (a : args) : prog (list job) :=
  let log_file := batch_log_file in
  downloaded_set ← read_downloaded_log log_file;
  match a_list a with
  | None => Raise TypeError
  | Some l =>
      let file_path := abspath l in
      content ← read_text file_path;
      let urls := pending_urls content downloaded_set in
      let output_directory := batch_output_directory a in
      makedirs output_directory ;;
      Ret (make_tasks a output_directory log_file urls)
  end.

(** The limit in [await async_pool(5, tasks)]. *)
Definition pool_limit : nat := 5.

End Batch.

(** [download_single_file(args)] *)
Definition download_single_file (a : args) : prog unit :=
  match a_url a with
  | None => Raise TypeError
  | Some u =>
      let video_id := extract_id u in
      download_url ← fetch_loom_download_url video_id;
      let output_path :=
        match a_out a with
        | Some o => if truthy o then o else video_id ++ lit ".mp4"
        | None => video_id ++ lit ".mp4"
        end in
      print (MsgDownloading video_id output_path) ;;
      download_loom_video download_url output_path
  end.

(** [main()] after [parse_args]: [parser.error] leaves with a usage
    error; otherwise one of the two modes is awaited. *)
Inductive usage_error := NeedUrlOrList | NotBoth | NegativeTimeout.
Inductive dispatch := Usage (e : usage_error) | FromList | SingleFile | Nothing.

Definition main (a : args) : dispatch :=
  if negb (truthy_opt (a_url a)) && negb (truthy_opt (a_list a)) then Usage NeedUrlOrList
  else if truthy_opt (a_url a) && truthy_opt (a_list a) then Usage NotBoth
  else if match a_timeout a with Some t => t <? 0 | None => false end then Usage NegativeTimeout
  else if truthy_opt (a_list a) then FromList
  else if truthy_opt (a_url a) then SingleFile
  else Nothing.

End Dl.

Import Dl.


(** ** asyncio.Semaphore and asyncio.gather *)

Module Pool.

(** A coroutine handed to [async_pool] is wrapped in [bounded_task], and
    [gather] schedules every wrapper at once. A wrapper waits for the
    semaphore ([Queued]), then awaits its coroutine while it holds the
    semaphore ([Running]), then releases it and is finished ([Done]). The
    coroutine itself starts only under the semaphore: a coroutine object
    does not run before it is awaited. *)
Inductive task (A : Type) :=
| Queued (p : prog A)
| Running (p : prog A)
| Done (r : exn + A).
Arguments Queued {A} p.
Arguments Running {A} p.
Arguments Done {A} r.

(** [sem] is the semaphore's counter; [raised] is the exception that
    [gather] has propagated to [async_pool]'s caller, which it does as soon
    as the first wrapper raises (there is no [return_exceptions=True]);
    the other wrappers are not cancelled by [gather]. *)
Record state (A : Type) := {
  sem : nat;
  tasks : list (task A);
  raised : option exn;
  env : world }.
Arguments sem {A} s.
Arguments tasks {A} s.
Arguments raised {A} s.
Arguments env {A} s.

(** [async_pool(pool_limit, tasks)], at the moment [gather] is awaited. *)
Definition async_pool {A} (pool_limit : nat) (coros : list (prog A)) (w : world) : state A :=
  {| sem := pool_limit; tasks := List.map Queued coros; raised := None; env := w |}.

(** One step of the event loop on wrapper [i]. *)
Definition fire {A} (i : nat) (st : state A) : option (state A) :=
  match tasks st !! i with
  | Some (Queued p) =>
      match sem st with
      | S n => Some {| sem := n; tasks := <[i := Running p]> (tasks st);
                       raised := raised st; env := env st |}
      | O => None
      end
  | Some (Running (Vis a k)) =>
      let '(x, w') := handle a (env st) in
      Some {| sem := sem st; tasks := <[i := Running (k x)]> (tasks st);
              raised := raised st; env := w' |}
  | Some (Running (Ret v)) =>
      Some {| sem := S (sem st); tasks := <[i := Done (inr v)]> (tasks st);
              raised := raised st; env := env st |}
  | Some (Running (Raise e)) =>
      Some {| sem := S (sem st); tasks := <[i := Done (inl e)]> (tasks st);
              raised := match raised st with None => Some e | r => r end;
              env := env st |}
  | Some (Done _) | None => None
  end.

Definition step {A} (st st' : state A) : Prop := exists i, fire i st = Some st'.

Definition reachable {A} (st0 st : state A) : Prop := rtc step st0 st.

(** A schedule is the order in which the event loop picks the wrappers. *)
Fixpoint run {A} (schedule : list nat) (st : state A) : option (state A) :=
  match schedule with
  | [] => Some st
  | i :: rest => match fire i st with Some st' => run rest st' | None => None end
  end.

Definition is_running {A} (t : task A) : bool :=
  match t with Running _ => true | _ => false end.
Definition is_queued {A} (t : task A) : bool :=
  match t with Queued _ => true | _ => false end.
Definition is_done {A} (t : task A) : bool :=
  match t with Done _ => true | _ => false end.

(** The number of coroutines started and not finished. *)
Definition running {A} (st : state A) : nat :=
  length (List.filter is_running (tasks st)).

Definition all_done {A} (st : state A) : bool := forallb is_done (tasks st).

Definition value {A} (t : task A) : option A :=
  match t with Done (inr v) => Some v | _ => None end.

(** What [await async_pool(...)] gives its caller, once it gives
    anything: the first exception, or the list of all results. *)
Definition outcome {A} (st : state A) : option (exn + list A) :=
  match raised st with
  | Some e => Some (inl e)
  | None => inr <$> mapM value (tasks st)
  end.

End Pool.

Import Pool.

(** ** download_from_list, to its last line *)

(** [download_from_list(args)] with its last line,
    [await async_pool(5, tasks)]: the tasks are built, and the pool starts
    with them in the world the lines before have left. An exception of
    those lines leaves the function before there is a pool. *)
Definition download_from_list_pool (script_dir : str) (abspath : str -> str)
    (a : args) (w : world) : exn + state unit :=
  match exec (download_from_list script_dir abspath a) w with
  | (inl e, _) => inl e
  | (inr jobs, w') => inr (async_pool pool_limit (List.map download_single_video jobs) w')
  end.

(** ** Vocabulary of the properties *)

(** An operation that fails whenever it is run. *)
Definition always_fails {A} (fn : prog A) : Prop :=
  forall w, exists e, (exec fn w).1 = inl e.

(** The operation fails when it is run in [w]. *)
Definition fails_in {A} (fn : prog A) (w : world) : Prop :=
  exists e, (exec fn w).1 = inl e.

(** The world after a failed attempt and the sleep that follows it. *)
Definition after_failure {A} (fn : prog A) (delay : Z) (w : world) : world :=
  (handle (ASleep delay) (exec fn w).2).2.

(** Every action of the coroutine, on every path, satisfies [P]. *)
Inductive only {A} (P : action -> Prop) : prog A -> Prop :=
| only_ret a : only P (Ret a)
| only_raise e : only P (Raise e)
| only_vis a k : P a -> (forall x, only P (k x)) -> only P (Vis a k).

(** The coroutine raises on no path. *)
Fixpoint no_raise {A} (p : prog A) : Prop :=
  match p with
  | Ret _ => True
  | Raise _ => False
  | Vis a k => forall x, no_raise (k x)
  end.

Definition is_post (a : action) : bool :=
  match a with APost _ => true | _ => false end.
Definition is_get (a : action) : bool :=
  match a with AGet _ => true | _ => false end.

(** Not a resolution, and a fetch only of [u]. *)
Definition fetches_only (u : pyval) (a : action) : Prop :=
  match a with
  | APost _ => False
  | AGet u' => u' = u
  | _ => True
  end.

(** The pause [download_single_video] ends with when it succeeds. *)
Definition pacing_ms (timeout : option Z) : Z :=
  match timeout with
  | Some t => if t =? 0 then 5000 else t
  | None => 5000
  end.

(** The line that announces the pause. *)
Definition pause_message (timeout : option Z) : message :=
  match timeout with
  | Some t => if negb (t =? 0) then MsgWaiting t else MsgWaiting5
  | None => MsgWaiting5
  end.

(** [timeout/1000] of the pause overflows. *)
Definition pause_overflows (timeout : option Z) : bool :=
  match timeout with
  | Some t => seconds_overflow t
  | None => false
  end.

(** No sleep comes after the last fetch request of the trace: every sleep
    is a wait before a further attempt. *)
Fixpoint sleeps_precede_fetch (tr : list action) : bool :=
  match tr with
  | [] => true
  | ASleep _ :: rest => existsb is_get rest && sleeps_precede_fetch rest
  | _ :: rest => sleeps_precede_fetch rest
  end.

(** The delays [delay], [2 * delay], [4 * delay], ... of [n] retries. *)
Fixpoint delays (n : nat) (delay : Z) : list action :=
  match n with
  | O => []
  | S n' => ASleep delay :: delays n' (delay * 2)
  end.

(** Lines 118 to 128 of [download_single_video]: the resolution, the
    announcement and the fetch under [backoff]; what the [try] block does
    before it writes the log line. *)
Definition resolve_and_fetch (j : job) : prog unit :=
  download_url ← fetch_loom_download_url (video_id j);
  print (MsgDownloading (video_id j) (output_path j)) ;;
  backoff 5 (download_loom_video download_url (output_path j)) 1000.

(** The destination can be created: it is not a directory, and the place
    of its parent directory is not taken by a file. *)
Definition writable (w : world) (output_path : str) : Prop :=
  (output_path ∉ dirs w) ∧ (files w !! dirname output_path = None) ∧
  (dirname output_path ≠ output_path).

(** The log is absent, empty, or ends with a newline, as every log that
    only [append_to_log_file] wrote does. *)
Definition log_closed (w : world) (log_file : str) : Prop :=
  match files w !! log_file with
  | None => True
  | Some c => c = [] ∨ exists c', c = c' ++ [LF]
  end.

(** A URL that survives the log: not empty, no line feed, no carriage
    return, nothing for [strip] to remove. *)
Definition loggable (u : str) : Prop :=
  (u ≠ []) ∧ (LF ∉ u) ∧ (CR ∉ u) ∧ (strip u = u).

(** "Every fetch attempt has a resolution of its own": the run resolves
    as often as it fetches. *)
Definition re_resolves_on_retry (j : job) (w : world) : Prop :=
  let tr := emitted (download_single_video j) w in
  length (List.filter is_post tr) = length (List.filter is_get tr).

(** "The job ends with the pacing delay." *)
Definition paced_at_end (j : job) (w : world) : Prop :=
  last (emitted (download_single_video j) w) = Some (ASleep (pacing_ms (timeout j))).

(** The [if output_dir and not os.path.exists(output_dir)] prelude of
    [download_loom_video]. *)
Definition ensure_parent (output_path : str) : prog unit :=
  if truthy (dirname output_path) then
    present ← path_exists (dirname output_path);
    if negb present then makedirs (dirname output_path) else Ret tt
  else Ret tt.

(** "403 fails with the forbidden error, and every other status outside
    2xx fails too." *)
Definition fails_on_non_success (url : pyval) (output_path : str) (w : world) : Prop :=
  forall resp, net_get w (requests w) url = inr resp ->
    (get_status resp = 403 ->
     (exec (download_loom_video url output_path) w).1 = inl Forbidden) ∧
    (¬ (200 ≤ get_status resp < 300) ->
     exists e, (exec (download_loom_video url output_path) w).1 = inl e).

(** "After [append_to_log_file(u)], a fresh [read_downloaded_log]
    returns a set that contains [u]." *)
Definition loaded_after_mark (u log_file : str) (w : world) : Prop :=
  match (exec (read_downloaded_log log_file) (exec (append_to_log_file u log_file) w).2).1 with
  | inr downloaded => u ∈ downloaded
  | inl _ => False
  end.

(** The decoder's flag after reading [a]. *)
Definition pending (pendingcr : bool) (a : str) : bool :=
  match last a with
  | Some c => N.eqb c CR
  | None => pendingcr
  end.

(** The semaphore's invariant: the coroutines in flight and the free
    slots add up to the limit. *)
Definition balanced {A} (limit : nat) (st : state A) : Prop :=
  (running st + sem st = limit)%nat.

(** No coroutine of the pool has raised or can raise. *)
Definition calm_task {A} (t : task A) : Prop :=
  match t with
  | Queued p | Running p => no_raise p
  | Done r => exists v, r = inr v
  end.

Definition calm {A} (st : state A) : Prop :=
  raised st = None ∧ Forall calm_task (tasks st).

(** What a step does to its wrapper. *)
Definition task_step {A} (t t' : task A) : Prop :=
  match t with
  | Queued p => t' = Running p
  | Running (Vis a k) => exists x, t' = Running (k x)
  | Running (Ret v) => t' = Done (inr v)
  | Running (Raise e) => t' = Done (inl e)
  | Done _ => False
  end.

(** One wrapper of the list makes a step. *)
Definition list_step {A} (l l' : list (task A)) : Prop :=
  exists i t t', l !! i = Some t ∧ task_step t t' ∧ l' = <[i := t']> l.

(** "[async_pool] gives its caller something only when every coroutine
    has finished, and then one result for each." *)
Definition waits_for_all {A} (limit : nat) (coros : list (prog A)) (w : world) : Prop :=
  forall st, reachable (async_pool limit coros w) st ->
  forall r, outcome st = Some r ->
    all_done st = true ∧ exists results, r = inr results ∧ length results = length coros.

(** The set [read_downloaded_log] returns in a world. *)
Definition loaded_log (w : world) (log_file : str) : gset str :=
  match files w !! log_file with
  | None => ∅
  | Some c => list_to_set (stripped_lines (universal_newlines c))
  end.

(** The URLs of a list file: its non-blank lines, stripped. *)
Definition listed_urls (w : world) (file_path : str) : list str :=
  stripped_lines (universal_newlines (file_content w file_path)).

(** How often [u] occurs in [l]. *)
Definition occurrences (u : str) (l : list str) : nat :=
  length (List.filter (fun x => bool_decide (x = u)) l).

Definition is_sleep (a : action) : bool :=
  match a with ASleep _ => true | _ => false end.
Definition is_append (a : action) : bool :=
  match a with AAppendText _ _ => true | _ => false end.
Definition is_log_read (a : action) : bool :=
  match a with AReadText _ => true | _ => false end.

(** The action changes no file but [p]. *)
Definition writes_only (p : str) (a : action) : Prop :=
  match a with
  | AOpenWB q | AWrite q _ | AAppendText q _ => q = p
  | _ => True
  end.

(** The action changes no file. *)
Definition writes_nothing (a : action) : Prop :=
  match a with
  | AOpenWB _ | AWrite _ _ | AAppendText _ _ => False
  | _ => True
  end.

(** The actions of one fetch of [url] into [output_path]. *)
Definition fetch_action (url : pyval) (output_path : str) (a : action) : Prop :=
  match a with
  | AExists _ | AMakedirs _ => True
  | AGet u => u = url
  | AOpenWB p | AWrite p _ => p = output_path
  | _ => False
  end.

(** The coroutine can return [v], under some answers of the world. *)
Fixpoint can_return {A} (p : prog A) (v : A) : Prop :=
  match p with
  | Ret a => a = v
  | Raise _ => False
  | Vis a k => exists x, can_return (k x) v
  end.

(** The wrapper at a position of the pool belongs to the coroutine that
    was handed in at that position. *)
Definition belongs_to {A} (p0 : prog A) (t : task A) : Prop :=
  match t with
  | Queued p => p = p0
  | Running p => forall v, can_return p v -> can_return p0 v
  | Done (inr v) => can_return p0 v
  | Done (inl _) => True
  end.

(** Every wrapper of the pool is in the place of its coroutine. *)
Definition in_place {A} (coros : list (prog A)) (st : state A) : Prop :=
  forall i p0 t, coros !! i = Some p0 -> tasks st !! i = Some t -> belongs_to p0 t.

(** [output_path = args.out if args.out else f"{video_id}.mp4"] of
    [download_single_file]. *)
Definition single_output_path (a : args) (video_id : str) : str :=
  match a_out a with
  | Some o => if truthy o then o else video_id ++ lit ".mp4"
  | None => video_id ++ lit ".mp4"
  end.

(** [q] is what is left of the coroutine [p] after it has performed the
    actions [tr], under some answers of the world. *)
Fixpoint path {A} (p : prog A) (tr : list action) (q : prog A) {struct tr} : Prop :=
  match tr with
  | [] => q = p
  | a :: tr' =>
      match p with
      | Vis b k => exists x : answer b, a = b ∧ path (k x) tr' q
      | _ => False
      end
  end.

(** The wrapper [t] is where the coroutine [p] is after the actions [tr]:
    a queued wrapper has not started its coroutine. *)
Definition performed {A} (p : prog A) (tr : list action) (t : task A) : Prop :=
  match t with
  | Queued q => q = p ∧ tr = []
  | Running q => path p tr q
  | Done (inr v) => path p tr (Ret v)
  | Done (inl e) => path p tr (Raise e)
  end.

(** The trace of the pool since it started in [w] is an interleaving of
    the actions its coroutines have performed, each list in its order. *)
Definition traced {A} (coros : list (prog A)) (w : world) (st : state A) : Prop :=
  length (tasks st) = length coros ∧
  exists trs : list (list action),
    length trs = length coros ∧
    (forall i p tr t,
       coros !! i = Some p -> trs !! i = Some tr -> tasks st !! i = Some t ->
       performed p tr t) ∧
    exists new, trace (env st) = trace w ++ new ∧ new ≡ₚ concat trs.

(** The request that starts the download of a job. *)
Definition attempt (j : job) : action := APost (transcoded_url (video_id j)).

(** What is left of [download_single_video] when its resolution request
    has been answered with [x]. *)
Definition job_after_post (j : job) (x : exn + post_response) : prog unit :=
  try_catch
    (download_url ←
       (response ← lift x;
        if negb (post_status response =? 200) then
          Raise (FetchUrlFailed (post_status response))
        else
          data ← lift (post_json response);
          subscript data (lit "url"));
     print (MsgDownloading (video_id j) (output_path j)) ;;
     backoff 5 (download_loom_video download_url (output_path j)) 1000 ;;
     append_to_log_file (url j) (log_file j) ;;
     pace (timeout j))
    (fun e => print (MsgFailed (video_id j) e)).

(** The action opens or writes no file but [p]. *)
Definition saves_to (p : str) (a : action) : Prop :=
  match a with
  | AOpenWB q | AWrite q _ => q = p
  | _ => True
  end.

(** The separator of the numbered file names. *)
Definition DASH : N := 45%N.

(** ** Sample worlds *)

Module Sample.

Definition resolved (u : str) : exn + post_response :=
  inr {| post_status := 200; post_json := inr (PDict [(lit "url", PStr u)]) |}.

Definition body (status : Z) (chunks : list str) : exn + get_response :=
  inr {| get_status := status; get_chunks := chunks; get_error := None |}.

(** An empty Posix machine in front of the given remote. *)
Definition machine (on_post : nat -> str -> exn + post_response)
    (on_get : nat -> pyval -> exn + get_response) : world :=
  {| net_post := on_post; net_get := on_get; requests := 0;
     files := ∅; dirs := ∅; os := Posix; trace := [] |}.

(** The resolver hands out a new signed URL on every request; the media
    server answers with the given statuses, then with 200. *)
Definition signed (n : nat) : str := lit "https://cdn/signed-" ++ str_of_int (Z.of_nat n).

Definition remote (statuses : list Z) : world :=
  machine (fun n _ => resolved (signed n))
          (fun n _ => body (default 200 (statuses !! (n - 1)%nat)) [lit "video"]).

Definition a_job (timeout : option Z) : job :=
  {| url := lit "https://www.loom.com/share/abc"; video_id := lit "abc";
     output_directory := lit "/out"; prefix := None; index := 1;
     log_file := lit "/s/downloaded.log"; timeout := timeout |}.

(** A timeout that [main] accepts and whose division by 1000 overflows. *)
Definition huge_timeout : Z := Eval vm_compute in 10 ^ 400.

(** An operation that reports and fails. *)
Definition failing : prog unit := print MsgWaiting5 ;; Raise Forbidden.

(** A media server that answers every request with the given status and
    body. *)
Definition media_server (status : Z) (text : str) : world :=
  machine (fun n _ => resolved (signed n)) (fun _ _ => body status [text]).

(** Six jobs for one pool, and a job that raises next to one that sleeps. *)
Definition six_jobs : list job := replicate 6 (a_job (Some 5000)).

Definition careless : list (prog unit) := [Raise Forbidden; sleep 1000].

(** Two coroutines that cannot raise. *)
Definition polite : list (prog unit) := [sleep 1000; print MsgWaiting5].

(** A machine whose script lives in [/s], with a list file of five lines
    (one blank, one URL twice) and a log that holds the first URL. *)
Definition script_dir : str := lit "/s".
Definition abspath (p : str) : str := path_join (lit "/home/u") p.

Definition list_text : str :=
  lit "https://www.loom.com/share/aaa" ++ [LF] ++
  lit "https://www.loom.com/share/bbb?sid=1" ++ [LF] ++ [LF] ++
  lit "  https://www.loom.com/share/ccc  " ++ [LF] ++
  lit "https://www.loom.com/share/bbb?sid=1" ++ [LF].

Definition distinct_text : str :=
  lit "https://www.loom.com/share/aaa" ++ [LF] ++
  lit "https://www.loom.com/share/bbb?sid=1" ++ [LF] ++ [LF] ++
  lit "  https://www.loom.com/share/ccc  " ++ [LF].

Definition desk (text : str) : world :=
  {| net_post := fun n _ => resolved (signed n);
     net_get := fun _ _ => body 200 [lit "video"];
     requests := 0;
     files := {[ lit "/home/u/urls.txt" := text;
                 lit "/s/downloaded.log" := lit "https://www.loom.com/share/aaa" ++ [LF] ]};
     dirs := ∅; os := Posix; trace := [] |}.

Definition list_args : args :=
  {| a_url := None; a_list := Some (lit "urls.txt"); a_prefix := None;
     a_out := None; a_timeout := Some 5000 |}.

(** The job that [list_args] on [desk distinct_text] makes for its first
    pending URL. *)
Definition bbb_job : job :=
  {| url := lit "https://www.loom.com/share/bbb?sid=1"; video_id := lit "bbb";
     output_directory := lit "/s/Downloads"; prefix := None; index := 1;
     log_file := lit "/s/downloaded.log"; timeout := Some 5000 |}.

(** Two coroutines with different results; the second is the shorter. *)
Definition numbered : list (prog Z) := [sleep 1000 ;; Ret 1; Ret 2].

End Sample.

(** The monad notations of the coroutines, unfolded. *)
Ltac unmonad := unfold mbind, prog_bind, mret, prog_ret in *.

(** ** Checks of the primitives *)

Example split_ex : split QMARK (lit "https://h/p/ID?q=x?y") = [lit "https://h/p/ID"; lit "q=x"; lit "y"].
Proof. reflexivity. Qed.
Example dirname_ex : dirname (lit "/a/b//c.mp4") = lit "/a/b" /\ dirname (lit "c.mp4") = [] /\ dirname (lit "//c") = lit "//".
Proof. repeat split; reflexivity. Qed.
Example strip_ex : strip (lit "  a b ") = lit "a b".
Proof. reflexivity. Qed.
Example un_ex : universal_newlines [97;13;10;98;13;99;10]%N = [97;10;98;10;99;10]%N.
Proof. reflexivity. Qed.
Example int_ex : str_of_int 30 = lit "30" /\ str_of_int 0 = lit "0".
Proof. split; reflexivity. Qed.
Example filename_ex :
  filename {| url := []; video_id := lit "abc"; output_directory := []; prefix := Some (lit "p");
              index := 3; log_file := []; timeout := None |} = lit "p-3-abc.mp4" /\
  filename {| url := []; video_id := lit "abc"; output_directory := []; prefix := None;
              index := 3; log_file := []; timeout := None |} = lit "abc.mp4".
Proof. split; reflexivity. Qed.
Example extract_id_ex :
  extract_id (lit "https://www.loom.com/share/abc123?sid=9/x") = lit "abc123".
Proof. reflexivity. Qed.

(** ** How runs compose *)

Lemma exec_bind {A B} (p : prog A) (f : A -> prog B) w :
  exec (bind p f) w =
  match exec p w with
  | (inl e, w') => (inl e, w')
  | (inr a, w') => exec (f a) w'
  end.
Proof.
  revert w. induction p as [a|e|a k IH]; intros w; simpl; try reflexivity.
  destruct (handle a w) as [x w']. apply IH.
Qed.

Lemma exec_try_catch {A} (p : prog A) (h : exn -> prog A) w :
  exec (try_catch p h) w =
  match exec p w with
  | (inl e, w') => exec (h e) w'
  | (inr a, w') => (inr a, w')
  end.
Proof.
  revert w. induction p as [a|e|a k IH]; intros w; simpl; try reflexivity.
  destruct (handle a w) as [x w']. apply IH.
Qed.

Lemma trace_react a w : trace (react a w).2 = trace w.
Proof.
  destruct a; simpl; try reflexivity;
    repeat (case_match; simpl; try reflexivity).
Qed.

Lemma trace_handle a w : trace (handle a w).2 = trace w ++ [a].
Proof. unfold handle. rewrite trace_react. reflexivity. Qed.

Lemma exec_extends {A} (p : prog A) w :
  exists evs, trace (exec p w).2 = trace w ++ evs.
Proof.
  revert w. induction p as [a|e|a k IH]; intros w; simpl.
  - exists []. by rewrite app_nil_r.
  - exists []. by rewrite app_nil_r.
  - pose proof (trace_handle a w) as Ht.
    destruct (handle a w) as [x w']. simpl in Ht.
    destruct (IH x w') as [evs Hevs].
    exists (a :: evs). rewrite Hevs, Ht, <- app_assoc. reflexivity.
Qed.

Lemma trace_exec {A} (p : prog A) w :
  trace (exec p w).2 = trace w ++ emitted p w.
Proof.
  unfold emitted. destruct (exec_extends p w) as [evs ->].
  by rewrite drop_app_length.
Qed.

Lemma emitted_ret {A} (a : A) w : emitted (Ret a) w = [].
Proof. unfold emitted. simpl. apply drop_all. Qed.

Lemma emitted_raise {A} e w : emitted (@Raise A e) w = [].
Proof. unfold emitted. simpl. apply drop_all. Qed.

Lemma emitted_vis {A} a (k : answer a -> prog A) w :
  emitted (Vis a k) w = a :: emitted (k (handle a w).1) (handle a w).2.
Proof.
  pose proof (trace_exec (Vis a k) w) as H1.
  pose proof (trace_exec (k (handle a w).1) (handle a w).2) as H2.
  simpl in H1. destruct (handle a w) as [x w'] eqn:Hh. simpl in *.
  pose proof (trace_handle a w) as Ht. rewrite Hh in Ht. simpl in Ht.
  rewrite H2, Ht, <- app_assoc in H1. by apply app_inv_head in H1.
Qed.

Lemma emitted_bind {A B} (p : prog A) (f : A -> prog B) w :
  emitted (bind p f) w =
  emitted p w ++ match (exec p w).1 with
                 | inl _ => []
                 | inr a => emitted (f a) (exec p w).2
                 end.
Proof.
  pose proof (trace_exec (bind p f) w) as H1.
  pose proof (trace_exec p w) as H2.
  rewrite exec_bind in H1.
  destruct (exec p w) as [[e|a] w'] eqn:He; simpl in *.
  - rewrite H2 in H1. apply app_inv_head in H1. by rewrite app_nil_r.
  - pose proof (trace_exec (f a) w') as H3.
    rewrite H3, H2, <- app_assoc in H1. by apply app_inv_head in H1.
Qed.

Lemma emitted_try_catch {A} (p : prog A) (h : exn -> prog A) w :
  emitted (try_catch p h) w =
  emitted p w ++ match (exec p w).1 with
                 | inl e => emitted (h e) (exec p w).2
                 | inr _ => []
                 end.
Proof.
  pose proof (trace_exec (try_catch p h) w) as H1.
  pose proof (trace_exec p w) as H2.
  rewrite exec_try_catch in H1.
  destruct (exec p w) as [[e|a] w'] eqn:He; simpl in *.
  - pose proof (trace_exec (h e) w') as H3.
    rewrite H3, H2, <- app_assoc in H1. by apply app_inv_head in H1.
  - rewrite H2 in H1. apply app_inv_head in H1. by rewrite app_nil_r.
Qed.

(** ** backoff *)


Lemma seconds_overflow_small ms : Z.abs ms ≤ 2 ^ 64 -> seconds_overflow ms = false.
Proof.
  intros H. unfold seconds_overflow. apply Z.leb_gt.
  assert (Hbig : 2 ^ 64 < 1000 * FLOAT_OVERFLOW) by (vm_compute; reflexivity).
  lia.
Qed.

Lemma backoff_unfold {A} (retries : Z) (fn : prog A) (delay : Z) w :
  exec (backoff retries fn delay) w =
  match exec fn w with
  | (inr v, w') => (inr v, w')
  | (inl e, w') =>
      if decide (retries > 1 ∧ delay ≤ 32000)
      then if seconds_overflow delay then (inl OverflowError, w')
           else exec (backoff (retries - 1) fn (delay * 2)) (handle (ASleep delay) w').2
      else (inl e, w')
  end.
Proof.
  rewrite backoff_equation_1, exec_try_catch.
  destruct (exec fn w) as [[e|v] w']; [|reflexivity].
  destruct (decide _); [|reflexivity].
  unfold seconds_of_ms. destruct (seconds_overflow delay); reflexivity.
Qed.

Lemma backoff_emitted {A} (retries : Z) (fn : prog A) (delay : Z) w :
  emitted (backoff retries fn delay) w =
  emitted fn w ++
  match (exec fn w).1 with
  | inr _ => []
  | inl _ =>
      if decide (retries > 1 ∧ delay ≤ 32000)
      then if seconds_overflow delay then []
           else ASleep delay ::
                emitted (backoff (retries - 1) fn (delay * 2)) (after_failure fn delay w)
      else []
  end.
Proof.
  rewrite backoff_equation_1, emitted_try_catch. f_equal.
  destruct (exec fn w) as [[e|v] w'] eqn:He; simpl; [|reflexivity].
  destruct (decide _); [|apply emitted_raise].
  unfold seconds_of_ms. destruct (seconds_overflow delay); [apply emitted_raise|].
  unfold mbind, prog_bind, sleep. simpl. rewrite emitted_vis.
  unfold after_failure. rewrite He. reflexivity.
Qed.

(** A failed attempt that is followed by a retry. *)
Lemma backoff_fail_step {A} (fn : prog A) (retries delay : Z) (w : world) :
  fails_in fn w -> retries > 1 -> delay ≤ 32000 -> seconds_overflow delay = false ->
  exec (backoff retries fn delay) w =
    exec (backoff (retries - 1) fn (delay * 2)) (after_failure fn delay w) ∧
  emitted (backoff retries fn delay) w =
    emitted fn w ++
    ASleep delay :: emitted (backoff (retries - 1) fn (delay * 2)) (after_failure fn delay w).
Proof.
  intros [e He] Hr Hd Hs. rewrite backoff_unfold, backoff_emitted. unfold after_failure.
  destruct (exec fn w) as [[e'|x] w'] eqn:Hx; [|discriminate].
  simpl. rewrite Hs. destruct (decide _) as [_|Hn]; [by split | lia].
Qed.

(** An attempt that is the last, whatever its outcome. *)
Lemma backoff_edge {A} (fn : prog A) (retries delay : Z) (w : world) :
  retries ≤ 1 ∨ 32000 < delay ->
  exec (backoff retries fn delay) w = exec fn w ∧
  emitted (backoff retries fn delay) w = emitted fn w.
Proof.
  intros Hedge. rewrite backoff_unfold, backoff_emitted.
  destruct (exec fn w) as [[e|v] w'] eqn:He; simpl.
  - destruct (decide _) as [[Hr Hd]|_]; [lia|]. by rewrite app_nil_r.
  - by rewrite app_nil_r.
Qed.

(** C5. When [backoff(5, fn, 1000)] runs an operation that fails on each
    of the five attempts of the run, it runs it exactly five times, sleeps
    1000, 2000, 4000 and 8000 ms between consecutive attempts and nothing
    after the fifth, and ends with the outcome of the fifth attempt, its
    exception unchanged. In general, for every operation, a failed attempt
    is followed by a retry only when [retries > 1 and delay <= 32000]: then
    [delay / 1000] is computed (an [OverflowError] of this division leaves
    [backoff] in place of the retry), the sleep is awaited and the
    operation is retried with one attempt less and twice the delay;
    otherwise the failure propagates unchanged. *)
Theorem backoff_five_attempts {A} (fn : prog A) :
  (forall w : world,
     let w2 := after_failure fn 1000 w in
     let w3 := after_failure fn 2000 w2 in
     let w4 := after_failure fn 4000 w3 in
     let w5 := after_failure fn 8000 w4 in
     fails_in fn w -> fails_in fn w2 -> fails_in fn w3 -> fails_in fn w4 ->
     fails_in fn w5 ->
     exec (backoff 5 fn 1000) w = exec fn w5 ∧
     (exists e, (exec fn w5).1 = inl e ∧ (exec (backoff 5 fn 1000) w).1 = inl e) ∧
     emitted (backoff 5 fn 1000) w =
       emitted fn w ++ ASleep 1000 :: emitted fn w2 ++ ASleep 2000 ::
       emitted fn w3 ++ ASleep 4000 :: emitted fn w4 ++ ASleep 8000 ::
       emitted fn w5) ∧
  (forall retries delay w',
     exec (backoff retries fn delay) w' =
     match exec fn w' with
     | (inr v, w'') => (inr v, w'')
     | (inl e, w'') =>
         if decide (retries > 1 ∧ delay ≤ 32000)
         then if seconds_overflow delay then (inl OverflowError, w'')
              else exec (backoff (retries - 1) fn (delay * 2)) (handle (ASleep delay) w'').2
         else (inl e, w'')
     end).
Proof.
  split; [|intros; apply backoff_unfold].
  intros w w2 w3 w4 w5 H1 H2 H3 H4 H5.
  destruct (backoff_fail_step fn 5 1000 w H1) as [E1 T1]; [lia | lia | reflexivity |].
  destruct (backoff_fail_step fn 4 2000 w2 H2) as [E2 T2]; [lia | lia | reflexivity |].
  destruct (backoff_fail_step fn 3 4000 w3 H3) as [E3 T3]; [lia | lia | reflexivity |].
  destruct (backoff_fail_step fn 2 8000 w4 H4) as [E4 T4]; [lia | lia | reflexivity |].
  destruct (backoff_edge fn 1 16000 w5) as [E5 T5]; [left; lia|].
  change (5 - 1) with 4 in *. change (4 - 1) with 3 in *.
  change (3 - 1) with 2 in *. change (2 - 1) with 1 in *.
  change (1000 * 2) with 2000 in *. change (2000 * 2) with 4000 in *.
  change (4000 * 2) with 8000 in *. change (8000 * 2) with 16000 in *.
  fold w2 in E1, T1. fold w3 in E2, T2. fold w4 in E3, T3. fold w5 in E4, T4.
  assert (Hrun : exec (backoff 5 fn 1000) w = exec fn w5) by congruence.
  split; [exact Hrun|]. split.
  - destruct H5 as [e He]. exists e. split; [exact He | by rewrite Hrun].
  - rewrite T1, T2, T3, T4, T5. reflexivity.
Qed.

Lemma backoff_five_attempts_witness :
  let fn := download_loom_video (PStr (lit "u")) (lit "/out/abc.mp4") in
  let w := Sample.media_server 403 (lit "Forbidden") in
  List.filter (fun a => is_sleep a || is_get a) (emitted (backoff 5 fn 1000) w) =
  [AGet (PStr (lit "u")); ASleep 1000; AGet (PStr (lit "u")); ASleep 2000;
   AGet (PStr (lit "u")); ASleep 4000; AGet (PStr (lit "u")); ASleep 8000;
   AGet (PStr (lit "u"))] ∧
  (exec (backoff 5 fn 1000) w).1 = inl Forbidden.
Proof.
  intros fn w.
  destruct (backoff_five_attempts fn) as [Hfive _].
  destruct (Hfive w) as (Hrun & _ & Hem);
    try (exists Forbidden; vm_compute; reflexivity).
  split; [rewrite Hem | rewrite Hrun]; vm_compute; reflexivity.
Defined.

(** ** Coroutines whose actions are all of one kind *)

Lemma only_emitted {A} P (p : prog A) w : only P p -> Forall P (emitted p w).
Proof.
  intros H. revert w. induction H as [a|e|a k Ha _ IH]; intros w.
  - rewrite emitted_ret. constructor.
  - rewrite emitted_raise. constructor.
  - rewrite emitted_vis. constructor; [exact Ha | apply IH].
Qed.

Lemma quiet_emitted {A} (P : action -> bool) (p : prog A) w :
  only (fun a => P a = false) p -> List.filter P (emitted p w) = [].
Proof.
  intros H. pose proof (only_emitted _ p w H) as Hall.
  induction Hall as [|a l Ha _ IH]; [reflexivity|]. simpl. by rewrite Ha.
Qed.

Lemma only_bind {A B} P (p : prog A) (f : A -> prog B) :
  only P p -> (forall a, only P (f a)) -> only P (bind p f).
Proof.
  intros H Hf. induction H as [a|e|a k Ha _ IH]; simpl.
  - apply Hf.
  - constructor.
  - constructor; assumption.
Qed.

Lemma only_try_catch {A} P (p : prog A) (h : exn -> prog A) :
  only P p -> (forall e, only P (h e)) -> only P (try_catch p h).
Proof.
  intros H Hh. induction H as [a|e|a k Ha _ IH]; simpl.
  - constructor.
  - apply Hh.
  - constructor; assumption.
Qed.

Lemma only_lift {A} P (r : exn + A) : only P (lift r).
Proof. destruct r; constructor. Qed.

Lemma only_call {A} P a (k : answer a -> prog A) :
  P a -> (forall x, only P (k x)) -> only P (Vis a k).
Proof. intros. by constructor. Qed.

Lemma only_seconds_of_ms P ms : only P (seconds_of_ms ms).
Proof. unfold seconds_of_ms. destruct (seconds_overflow ms); constructor. Qed.

Lemma only_backoff {A} P (fn : prog A) retries delay :
  only P fn -> (forall d, P (ASleep d)) -> only P (backoff retries fn delay).
Proof.
  intros Hfn Hs.
  remember (Z.to_nat retries) as n eqn:Hn.
  revert retries delay Hn.
  induction n as [n IH] using lt_wf_ind; intros retries delay Hn.
  rewrite backoff_equation_1. apply only_try_catch; [exact Hfn|].
  intros e. destruct (decide _) as [[Hr _]|_]; [|constructor].
  unmonad. apply only_bind; [apply only_seconds_of_ms|].
  intros seconds. apply only_bind.
  - apply only_call; [apply Hs | intros; constructor].
  - intros _. apply (IH (Z.to_nat (retries - 1))); [lia | reflexivity].
Qed.

Lemma no_raise_try_catch {A} (p : prog A) (h : exn -> prog A) :
  (forall e, no_raise (h e)) -> no_raise (try_catch p h).
Proof.
  intros Hh. induction p as [a|e|a k IH]; simpl.
  - exact I.
  - apply Hh.
  - exact IH.
Qed.

Lemma no_raise_exec {A} (p : prog A) w : no_raise p -> exists v, (exec p w).1 = inr v.
Proof.
  revert w. induction p as [a|e|a k IH]; intros w H; simpl in *.
  - by exists a.
  - contradiction.
  - destruct (handle a w) as [x w']. apply IH, H.
Qed.

(** [download_single_video] catches every exception of its body. *)
Lemma download_single_video_no_raise j : no_raise (download_single_video j).
Proof.
  apply no_raise_try_catch. intros e x. exact I.
Qed.

Lemma only_write_chunks P output_path chunks :
  (forall c, P (AWrite output_path c)) -> only P (write_chunks output_path chunks).
Proof.
  intros Hw. induction chunks as [|c rest IH]; simpl; [constructor|].
  unmonad. unfold write. simpl. apply only_call; [apply Hw|].
  intros x. apply only_bind; [apply only_lift | intros _; exact IH].
Qed.

(** Fetching [url] performs no resolution and requests no other URL. *)
Lemma download_loom_video_fetches_only url output_path :
  only (fetches_only url) (download_loom_video url output_path).
Proof.
  unfold download_loom_video. unmonad.
  apply only_bind.
  { destruct (truthy _); [|constructor].
    unfold path_exists. simpl. apply only_call; [exact I|].
    intros x. simpl. destruct (negb x); [|constructor].
    unfold makedirs. apply only_call; [exact I | intros; apply only_lift]. }
  intros _. unfold get. simpl. apply only_call; [reflexivity|].
  intros x. apply only_bind; [apply only_lift|].
  intros resp. destruct (_ =? 403); [constructor|].
  unfold open_wb. simpl. apply only_call; [exact I|].
  intros y. apply only_bind; [apply only_lift|]. intros _.
  apply only_bind; [apply only_write_chunks; intros; exact I|].
  intros _. destruct (get_error resp); constructor.
Qed.

(** ** One job *)

Lemma only_pace (P : action -> Prop) timeout :
  (forall m, P (APrint m)) -> (forall d, P (ASleep d)) -> only P (pace timeout).
Proof.
  intros Hp Hs.
  assert (Hprint : forall m, only P (print m)).
  { intros m. apply only_call; [apply Hp | intros; constructor]. }
  assert (Hsleep : forall d, only P (sleep d)).
  { intros d. apply only_call; [apply Hs | intros; constructor]. }
  unfold pace. unmonad.
  destruct timeout as [t|]; [destruct (negb _)|];
    try (apply only_bind; [apply Hprint | intros _; apply Hsleep]).
  apply only_bind; [apply only_seconds_of_ms|]. intros shown.
  apply only_bind; [apply Hprint|]. intros _.
  apply only_bind; [apply only_seconds_of_ms|]. intros seconds. apply Hsleep.
Qed.

Lemma tail_fetches_only j download_url :
  only (fetches_only download_url)
    (try_catch
       (print (MsgDownloading (video_id j) (output_path j)) ;;
        backoff 5 (download_loom_video download_url (output_path j)) 1000 ;;
        append_to_log_file (url j) (log_file j) ;;
        pace (timeout j))
       (fun e => print (MsgFailed (video_id j) e))).
Proof.
  assert (Hprint : forall m, only (fetches_only download_url) (print m)).
  { intros m. apply only_call; [exact I | intros; constructor]. }
  assert (Hsleep : forall d, only (fetches_only download_url) (sleep d)).
  { intros d. apply only_call; [exact I | intros; constructor]. }
  apply only_try_catch; [|intros e; apply Hprint].
  unmonad. apply only_bind; [apply Hprint|]. intros _.
  apply only_bind.
  { apply only_backoff; [apply download_loom_video_fetches_only | intros; exact I]. }
  intros _. apply only_bind.
  { apply only_call; [exact I | intros; apply only_lift]. }
  intros _. apply only_pace; [intros; exact I | intros; exact I].
Qed.

(** C1, as the code has it. A job resolves its identifier once, as its
    first action, before the retry wrapper is entered; the wrapper wraps
    the fetch alone, so every attempt requests the one direct media URL
    that this resolution returned, and nothing after the first action is a
    resolution. *)
Theorem resolve_once_fetch_same_url (j : job) (w : world) :
  exists rest u,
    emitted (download_single_video j) w = APost (transcoded_url (video_id j)) :: rest ∧
    Forall (fetches_only u) rest ∧
    (forall v, (exec (fetch_loom_download_url (video_id j)) w).1 = inr v -> u = v).
Proof.
  assert (Hfail : forall e w', Forall (fetches_only POther)
            (emitted (print (MsgFailed (video_id j) e)) w')).
  { intros e w'. apply only_emitted. apply only_call; [exact I | intros; constructor]. }
  unfold download_single_video, download_single_video_try, fetch_loom_download_url, post.
  unmonad. simpl. rewrite emitted_vis. unfold handle. simpl.
  destruct (net_post w (requests w) (transcoded_url (video_id j))) as [e|resp]; simpl.
  { eexists _, POther. split; [reflexivity|]. split; [apply Hfail | discriminate]. }
  destruct (negb (post_status resp =? 200)); simpl.
  { eexists _, POther. split; [reflexivity|]. split; [apply Hfail | discriminate]. }
  destruct (post_json resp) as [e|data]; simpl.
  { eexists _, POther. split; [reflexivity|]. split; [apply Hfail | discriminate]. }
  destruct data as [s|items|]; simpl;
    try (eexists _, POther; split; [reflexivity|]; split; [apply Hfail | discriminate]).
  destruct (dict_get items (lit "url")) as [v|]; simpl.
  - eexists _, v. split; [reflexivity|]. split.
    + apply only_emitted. apply tail_fetches_only.
    + intros v' Hv. congruence.
  - eexists _, POther. split; [reflexivity|]. split; [apply Hfail | discriminate].
Qed.

(** C1, as stated, fails: the first fetch is refused with 403, the job
    retries, and the retry asks for the URL of the first resolution again
    although the resolver would hand out a new one. *)
Lemma retry_reuses_media_url :
  ¬ re_resolves_on_retry (Sample.a_job (Some 5000)) (Sample.remote [403]) ∧
  List.filter is_get
    (emitted (download_single_video (Sample.a_job (Some 5000))) (Sample.remote [403])) =
  [AGet (PStr (Sample.signed 0)); AGet (PStr (Sample.signed 0))].
Proof. split; [unfold re_resolves_on_retry; vm_compute; discriminate | vm_compute; reflexivity]. Qed.

Lemma bind_success {A B} (p : prog A) (f : A -> prog B) w v :
  (exec (bind p f) w).1 = inr v ->
  exists a, (exec p w).1 = inr a ∧ (exec (f a) (exec p w).2).1 = inr v ∧
            emitted (bind p f) w = emitted p w ++ emitted (f a) (exec p w).2.
Proof.
  intros H. rewrite exec_bind in H. rewrite emitted_bind.
  destruct (exec p w) as [[e|a] w']; simpl in *; [discriminate|].
  exists a. auto.
Qed.

Lemma emitted_append_to_log_file url log_file w :
  emitted (append_to_log_file url log_file) w = [AAppendText log_file (url ++ [LF])].
Proof.
  unfold append_to_log_file, append_text. rewrite emitted_vis.
  unfold handle. simpl. by rewrite emitted_ret.
Qed.

Lemma failure_ends_with_report j w e :
  (exec (download_single_video_try j) w).1 = inl e ->
  emitted (download_single_video j) w =
  emitted (download_single_video_try j) w ++ [APrint (MsgFailed (video_id j) e)].
Proof.
  intros H. unfold download_single_video. rewrite emitted_try_catch, H.
  unfold print. rewrite emitted_vis. simpl. by rewrite emitted_ret.
Qed.

Lemma download_single_video_returns j w : (exec (download_single_video j) w).1 = inr tt.
Proof.
  destruct (no_raise_exec (download_single_video j) w (download_single_video_no_raise j))
    as [[] H].
  exact H.
Qed.

(** ** The fetch *)

Lemma ensure_parent_effect output_path w :
  exists w1,
    exec (ensure_parent output_path) w = (inr tt, w1) ∧
    net_get w1 = net_get w ∧ requests w1 = requests w ∧
    files w1 = files w ∧ os w1 = os w ∧
    (forall p, p ∈ dirs w1 -> p = dirname output_path ∨ p ∈ dirs w) ∧
    (truthy (dirname output_path) = true ->
     files w !! dirname output_path = None -> dirname output_path ∈ dirs w1).
Proof.
  unfold ensure_parent. destruct (truthy (dirname output_path)) eqn:Ht.
  2:{ exists w. repeat split; auto. discriminate. }
  unmonad. unfold path_exists, makedirs. simpl. unfold handle. simpl.
  destruct (bool_decide (dirname output_path ∈ dirs w)) eqn:Hd; simpl.
  { eexists. split; [reflexivity|]. simpl. repeat split; auto.
    intros _ _. by apply bool_decide_eq_true in Hd. }
  destruct (bool_decide (is_Some (files w !! dirname output_path))) eqn:Hf; simpl.
  { eexists. split; [reflexivity|]. simpl. repeat split; auto.
    intros _ Hnone. apply bool_decide_eq_true in Hf. rewrite Hnone in Hf.
    by destruct Hf. }
  rewrite Hf. simpl.
  eexists. split; [reflexivity|]. simpl. repeat split; auto.
  - intros p Hp. apply elem_of_union in Hp as [Hp|Hp]; [left|right; exact Hp].
    by apply elem_of_singleton in Hp.
  - intros _ _. apply elem_of_union. left. by apply elem_of_singleton.
Qed.

Lemma write_chunks_effect output_path chunks w c0 :
  files w !! output_path = Some c0 ->
  exists w1,
    exec (write_chunks output_path chunks) w = (inr tt, w1) ∧
    files w1 !! output_path = Some (c0 ++ concat chunks).
Proof.
  revert w c0. induction chunks as [|c rest IH]; intros w c0 Hc.
  { exists w. split; [reflexivity|]. simpl. by rewrite app_nil_r. }
  simpl. unmonad. unfold write. simpl. unfold handle. simpl.
  edestruct (IH (set_files
              (<[output_path := file_content (log_action (AWrite output_path c) w) output_path ++ c]>
                 (files (log_action (AWrite output_path c) w)))
              (log_action (AWrite output_path c) w))) as [w1 [He Hf]].
  { simpl. apply lookup_insert_eq. }
  exists w1. split; [exact He|]. rewrite Hf. f_equal.
  unfold file_content. simpl. rewrite Hc. simpl. by rewrite <- app_assoc.
Qed.

Lemma download_loom_video_eq url output_path :
  download_loom_video url output_path =
  bind (ensure_parent output_path) (fun _ =>
    bind (get url) (fun response =>
      if get_status response =? 403 then Raise Forbidden
      else
        bind (open_wb output_path) (fun _ =>
          bind (write_chunks output_path (get_chunks response)) (fun _ =>
            match get_error response with
            | Some e => Raise e
            | None => Ret tt
            end)))).
Proof. reflexivity. Qed.

(** C4, as the code has it. The fetch inspects the status for 403 only.
    On 403 it raises the forbidden exception before the destination is
    opened. On every other status, success or not, it raises nothing on
    account of the status: with a destination that can be created it
    writes the body to the destination and returns normally, or, when the
    stream breaks, raises the exception of the stream. *)
Theorem fetch_checks_403_only (url : pyval) (output_path : str) (w : world)
    (resp : get_response)
    (Hresp : net_get w (requests w) url = inr resp) :
  (get_status resp = 403 ->
   (exec (download_loom_video url output_path) w).1 = inl Forbidden ∧
   files (exec (download_loom_video url output_path) w).2 = files w) ∧
  (get_status resp ≠ 403 -> writable w output_path ->
   (exec (download_loom_video url output_path) w).1 =
     match get_error resp with Some e => inl e | None => inr tt end ∧
   files (exec (download_loom_video url output_path) w).2 !! output_path =
     Some (concat (get_chunks resp))).
Proof.
  rewrite download_loom_video_eq, exec_bind.
  destruct (ensure_parent_effect output_path w)
    as (w1 & -> & Hnet & Hreq & Hfiles & _ & Hsub & Hpar).
  rewrite exec_bind. unfold get. simpl. unfold handle. simpl.
  rewrite Hnet, Hreq, Hresp. simpl.
  split.
  - intros ->. simpl. split; [reflexivity | exact Hfiles].
  - intros Hne (Hnd & Hnf & Hneq).
    destruct (get_status resp =? 403) eqn:Hs; [apply Z.eqb_eq in Hs; contradiction|].
    simpl. unfold handle. simpl.
    rewrite bool_decide_eq_false_2.
    2:{ intros Hin. apply Hsub in Hin as [Hin|Hin]; [by symmetry in Hin | contradiction]. }
    destruct (truthy (dirname output_path)) eqn:Ht; simpl.
    + rewrite bool_decide_eq_true_2 by (apply Hpar; auto). simpl.
      rewrite exec_bind.
      edestruct (write_chunks_effect output_path (get_chunks resp)) as (w2 & -> & Hw2);
        [simpl; apply lookup_insert_eq|].
      destruct (get_error resp); simpl; split; auto.
    + rewrite exec_bind.
      edestruct (write_chunks_effect output_path (get_chunks resp)) as (w2 & -> & Hw2);
        [simpl; apply lookup_insert_eq|].
      destruct (get_error resp); simpl; split; auto.
Qed.

Lemma fetch_checks_403_only_witness :
  (exec (download_loom_video (PStr (lit "u")) (lit "/out/abc.mp4"))
        (Sample.media_server 403 (lit "Forbidden"))).1 = inl Forbidden.
Proof.
  apply (fetch_checks_403_only (PStr (lit "u")) (lit "/out/abc.mp4")
           (Sample.media_server 403 (lit "Forbidden")) _ eq_refl).
  reflexivity.
Defined.

(** C4, as stated, fails: the media server answers 500, and the fetch
    returns normally with the error page saved as the video. *)
Lemma server_error_is_saved :
  let w := Sample.media_server 500 (lit "Internal Server Error") in
  let run := exec (download_loom_video (PStr (lit "u")) (lit "/out/abc.mp4")) w in
  ¬ fails_on_non_success (PStr (lit "u")) (lit "/out/abc.mp4") w ∧
  run.1 = inr tt ∧
  files run.2 !! lit "/out/abc.mp4" = Some (lit "Internal Server Error").
Proof.
  intros w run. split; [|split; vm_compute; reflexivity].
  intros H. destruct (H _ eq_refl) as [_ H500].
  destruct H500 as [e He]; [simpl; lia|]. vm_compute in He. discriminate.
Qed.

(** ** Lines *)

Lemma split_nonempty sep s : exists w ws, split sep s = w :: ws.
Proof.
  induction s as [|c s IH]; simpl; [by eexists _, _|].
  destruct (N.eqb c sep); [by eexists _, _|].
  destruct IH as (w & ws & ->). by eexists _, _.
Qed.

Lemma split_app_sep sep a b :
  split sep (a ++ sep :: b) = split sep a ++ split sep b.
Proof.
  induction a as [|c a IH]; simpl.
  - by rewrite N.eqb_refl.
  - destruct (N.eqb c sep); [by rewrite IH|].
    rewrite IH. destruct (split_nonempty sep a) as (w & ws & ->). reflexivity.
Qed.

Lemma split_no_sep sep s : sep ∉ s -> split sep s = [s].
Proof.
  induction s as [|c s IH]; intros Hs; [reflexivity|]. simpl.
  apply not_elem_of_cons in Hs as [Hc Hs].
  destruct (N.eqb_spec c sep) as [->|_]; [contradiction|].
  by rewrite IH.
Qed.

Lemma pending_cons b c a : pending b (c :: a) = pending (N.eqb c CR) a.
Proof.
  destruct a as [|d a]; [reflexivity|].
  unfold pending. rewrite last_cons. by destruct (last (d :: a)).
Qed.

Lemma newline_decode_app b a r :
  newline_decode b (a ++ r) = newline_decode b a ++ newline_decode (pending b a) r.
Proof.
  revert b. induction a as [|c a IH]; intros b; [reflexivity|].
  rewrite pending_cons. simpl.
  destruct (N.eqb c CR) eqn:Hcr; [by rewrite IH|].
  destruct (N.eqb c LF); [destruct b|]; by rewrite IH.
Qed.

Lemma newline_decode_plain b s : LF ∉ s -> CR ∉ s -> newline_decode b s = s.
Proof.
  revert b. induction s as [|c s IH]; intros b Hlf Hcr; [reflexivity|]. simpl.
  apply not_elem_of_cons in Hlf as [Hlf1 Hlf], Hcr as [Hcr1 Hcr].
  destruct (N.eqb_spec c CR) as [->|_]; [contradiction|].
  destruct (N.eqb_spec c LF) as [->|_]; [contradiction|].
  by rewrite IH.
Qed.

Lemma pending_plain b s : s ≠ [] -> CR ∉ s -> pending b s = false.
Proof.
  intros Hs Hcr. unfold pending. destruct (last s) as [c|] eqn:Hl.
  - apply N.eqb_neq. intros ->. apply Hcr. apply last_Some in Hl as [l' ->].
    apply elem_of_app. right. by apply list_elem_of_singleton.
  - apply last_None in Hl. contradiction.
Qed.

(** A decoded text that ended with a newline on disk ends with one. *)
Lemma newline_decode_closed c' : exists d, universal_newlines (c' ++ [LF]) = d ++ [LF].
Proof.
  unfold universal_newlines. rewrite newline_decode_app.
  destruct (pending false c') eqn:Hp.
  - simpl. rewrite app_nil_r. unfold pending in Hp.
    destruct (last c') as [c|] eqn:Hl; [|discriminate].
    apply N.eqb_eq in Hp as ->. apply last_Some in Hl as [l' ->].
    rewrite newline_decode_app. simpl. by eexists.
  - simpl. by eexists.
Qed.

Lemma write_newlines_app pf a b :
  write_newlines pf (a ++ b) = write_newlines pf a ++ write_newlines pf b.
Proof.
  induction a as [|c a IH]; [reflexivity|]. simpl.
  destruct (N.eqb c LF); rewrite IH; [by rewrite app_assoc | reflexivity].
Qed.

Lemma write_newlines_plain pf s : LF ∉ s -> write_newlines pf s = s.
Proof.
  induction s as [|c s IH]; intros Hs; [reflexivity|]. simpl.
  apply not_elem_of_cons in Hs as [Hc Hs].
  destruct (N.eqb_spec c LF) as [->|_]; [contradiction|]. by rewrite IH.
Qed.

Lemma write_newlines_line pf s :
  write_newlines pf (s ++ [LF]) = write_newlines pf s ++ linesep pf.
Proof. rewrite write_newlines_app. simpl. by rewrite app_nil_r. Qed.

Lemma linesep_decoded pf : universal_newlines (linesep pf) = [LF].
Proof. by destruct pf. Qed.

Lemma linesep_closed pf : exists l, linesep pf = l ++ [LF].
Proof. destruct pf; [by exists [] | by exists [CR]]. Qed.

(** ** The completion log *)

Lemma stripped_lines_elem u content :
  u ∈ split LF content -> u ≠ [] -> strip u = u -> u ∈ stripped_lines content.
Proof.
  intros Hin Hne Hs. unfold stripped_lines.
  apply list_elem_of_In, in_map_iff. exists u. split; [exact Hs|].
  apply filter_In. split; [by apply list_elem_of_In|].
  rewrite Hs. by destruct u.
Qed.

Lemma exec_read_downloaded_log log_file w :
  exec (read_downloaded_log log_file) w =
  (inr (match files w !! log_file with
        | None => ∅
        | Some c => list_to_set (stripped_lines (universal_newlines c))
        end),
   log_action (AReadText log_file) w).
Proof.
  unfold read_downloaded_log. rewrite exec_try_catch. unmonad.
  unfold read_text. simpl. unfold handle. simpl.
  destruct (files w !! log_file); reflexivity.
Qed.

Lemma exec_append_to_log_file u log_file w :
  exec (append_to_log_file u log_file) w =
  (inr tt,
   set_files (<[log_file := file_content w log_file ++ write_newlines (os w) (u ++ [LF])]> (files w))
             (log_action (AAppendText log_file (u ++ [LF])) w)).
Proof. reflexivity. Qed.

(** Every log that [append_to_log_file] has written to is closed. *)
Lemma append_closes_log u log_file w :
  log_closed (exec (append_to_log_file u log_file) w).2 log_file.
Proof.
  rewrite exec_append_to_log_file. unfold log_closed. simpl.
  rewrite lookup_insert_eq. right. rewrite write_newlines_line.
  destruct (linesep_closed (os w)) as [l ->].
  eexists. rewrite !app_assoc. reflexivity.
Qed.

Lemma closed_line_is_split d u :
  LF ∉ u -> (d = [] ∨ exists d', d = d' ++ [LF]) -> u ∈ split LF (d ++ u ++ [LF]).
Proof.
  intros Hu [->|[d' ->]].
  - simpl. rewrite split_app_sep, (split_no_sep LF u Hu). apply list_elem_of_here.
  - rewrite <- app_assoc. simpl. rewrite split_app_sep, split_app_sep, (split_no_sep LF u Hu).
    apply elem_of_app. right. apply list_elem_of_here.
Qed.

(** C8, as the code has it. For a URL that is not empty, has no line feed
    and no carriage return and nothing for [strip] to remove, and a log
    that is absent, empty or ends with a newline, [append_to_log_file]
    returns normally, leaves the old content followed by the URL and the
    line separator, and a following [read_downloaded_log] returns a set
    that contains the URL; the log is closed again. *)
Theorem marked_url_is_loaded (u log_file : str) (w : world)
    (Hu : loggable u) (Hlog : log_closed w log_file) :
  (exec (append_to_log_file u log_file) w).1 = inr tt ∧
  files (exec (append_to_log_file u log_file) w).2 !! log_file =
    Some (file_content w log_file ++ u ++ linesep (os w)) ∧
  loaded_after_mark u log_file w ∧
  log_closed (exec (append_to_log_file u log_file) w).2 log_file.
Proof.
  destruct Hu as (Hne & Hlf & Hcr & Hstrip).
  split; [reflexivity|].
  assert (Hfile : files (exec (append_to_log_file u log_file) w).2 !! log_file =
                  Some (file_content w log_file ++ u ++ linesep (os w))).
  { rewrite exec_append_to_log_file. simpl. rewrite lookup_insert_eq.
    by rewrite write_newlines_line, (write_newlines_plain _ u Hlf). }
  split; [exact Hfile|]. split; [|apply append_closes_log].
  unfold loaded_after_mark. rewrite exec_read_downloaded_log. cbn [fst].
  rewrite Hfile. apply elem_of_list_to_set.
  apply stripped_lines_elem; [|exact Hne|exact Hstrip].
  assert (Hdec : exists d, universal_newlines (file_content w log_file ++ u ++ linesep (os w))
                           = d ++ u ++ [LF] ∧ (d = [] ∨ exists d', d = d' ++ [LF])).
  { assert (Hline : forall b, b = false ->
              newline_decode b (u ++ linesep (os w)) = u ++ [LF]).
    { intros b ->. rewrite newline_decode_app, (newline_decode_plain _ u Hlf Hcr).
      rewrite (pending_plain _ u Hne Hcr). f_equal. apply linesep_decoded. }
    unfold log_closed, file_content in *.
    destruct (files w !! log_file) as [c|]; simpl.
    - destruct Hlog as [->|[c' ->]].
      + exists []. split; [apply Hline; reflexivity | by left].
      + destruct (newline_decode_closed c') as [d Hd].
        exists (d ++ [LF]). split; [|right; by eexists].
        unfold universal_newlines in *. rewrite newline_decode_app, Hd.
        f_equal. apply Hline. unfold pending. by rewrite last_snoc.
    - exists []. split; [apply Hline; reflexivity | by left]. }
  destruct Hdec as (d & -> & Hd). by apply closed_line_is_split.
Qed.

Lemma marked_url_is_loaded_witness :
  loaded_after_mark (lit "https://www.loom.com/share/abc") (lit "/s/downloaded.log")
    (exec (append_to_log_file (lit "https://www.loom.com/share/xyz") (lit "/s/downloaded.log"))
          (Sample.remote [])).2.
Proof.
  apply (marked_url_is_loaded (lit "https://www.loom.com/share/abc") (lit "/s/downloaded.log")).
  - split; [discriminate|]. split; [|split; [|reflexivity]];
      apply (bool_decide_unpack _); vm_compute; exact I.
  - apply append_closes_log.
Defined.

(** C8, as stated, fails: a URL with a leading space is written as it is
    and read back without the space. *)
Lemma padded_url_is_not_loaded :
  ¬ loaded_after_mark (lit " https://www.loom.com/share/abc") (lit "/s/downloaded.log")
      (Sample.remote []).
Proof.
  unfold loaded_after_mark. rewrite exec_read_downloaded_log. cbn [fst].
  intros H. apply (bool_decide_pack _) in H. vm_compute in H. exact H.
Qed.

(** ** The run of one job *)

Lemma emitted_fetch_loom_download_url video_id w :
  emitted (fetch_loom_download_url video_id) w = [APost (transcoded_url video_id)].
Proof.
  unfold fetch_loom_download_url, post. unmonad. simpl.
  rewrite emitted_vis. f_equal. unfold handle. simpl.
  destruct (net_post _ _ _) as [e|resp]; simpl; [apply emitted_raise|].
  destruct (negb _); simpl; [apply emitted_raise|].
  destruct (post_json resp) as [e|[s|items|]]; simpl; try apply emitted_raise.
  destruct (dict_get _ _); simpl; [apply emitted_ret | apply emitted_raise].
Qed.

Lemma emitted_print m w : emitted (print m) w = [APrint m].
Proof. unfold print. rewrite emitted_vis. simpl. by rewrite emitted_ret. Qed.

Lemma exec_print m w : exec (print m) w = (inr tt, log_action (APrint m) w).
Proof. reflexivity. Qed.

Lemma pause_overflows_zero t : (t =? 0) = true -> seconds_overflow t = false.
Proof. intros H. apply Z.eqb_eq in H. subst t. vm_compute. reflexivity. Qed.

(** The pause fails exactly when [timeout/1000] overflows, and then in the
    f-string, before anything is printed. *)
Lemma exec_pace timeout w :
  (exec (pace timeout) w).1 =
  if pause_overflows timeout then inl OverflowError else inr tt.
Proof.
  unfold pace, pause_overflows, seconds_of_ms. destruct timeout as [t|]; [|reflexivity].
  destruct (t =? 0) eqn:Hz; simpl.
  - by rewrite (pause_overflows_zero t Hz).
  - destruct (seconds_overflow t); reflexivity.
Qed.

Lemma emitted_pace timeout w :
  emitted (pace timeout) w =
  if pause_overflows timeout then []
  else [APrint (pause_message timeout); ASleep (pacing_ms timeout)].
Proof.
  assert (Hfive : emitted (print MsgWaiting5 ;; sleep 5000) w =
                  [APrint MsgWaiting5; ASleep 5000]).
  { unmonad. unfold print, sleep. simpl.
    rewrite emitted_vis. simpl. rewrite emitted_vis. simpl. by rewrite emitted_ret. }
  unfold pace, pause_overflows, pause_message, pacing_ms, seconds_of_ms.
  destruct timeout as [t|]; [|exact Hfive].
  destruct (t =? 0) eqn:Hz; simpl negb; cbv iota.
  - by rewrite (pause_overflows_zero t Hz).
  - destruct (seconds_overflow t); [apply emitted_raise|].
    unmonad. unfold print, sleep. simpl.
    rewrite emitted_vis. simpl. rewrite emitted_vis. simpl. by rewrite emitted_ret.
Qed.

Lemma only_weaken {A} (P Q : action -> Prop) (p : prog A) :
  (forall a, P a -> Q a) -> only P p -> only Q p.
Proof. intros HPQ H. induction H; constructor; auto. Qed.

Lemma download_loom_video_actions url output_path :
  only (fetch_action url output_path) (download_loom_video url output_path).
Proof.
  unfold download_loom_video. unmonad.
  apply only_bind.
  { destruct (truthy _); [|constructor].
    unfold path_exists. simpl. apply only_call; [exact I|].
    intros x. simpl. destruct (negb x); [|constructor].
    unfold makedirs. apply only_call; [exact I | intros; apply only_lift]. }
  intros _. unfold get. simpl. apply only_call; [reflexivity|].
  intros x. apply only_bind; [apply only_lift|].
  intros resp. destruct (_ =? 403); [constructor|].
  unfold open_wb. simpl. apply only_call; [reflexivity|].
  intros y. apply only_bind; [apply only_lift|]. intros _.
  apply only_bind; [apply only_write_chunks; intros; reflexivity|].
  intros _. destruct (get_error resp); constructor.
Qed.

Lemma ensure_parent_quiet output_path :
  only (fun a => is_get a = false) (ensure_parent output_path).
Proof.
  unfold ensure_parent. destruct (truthy _); [|constructor]. unmonad.
  unfold path_exists. simpl. apply only_call; [reflexivity|].
  intros x. simpl. destruct (negb x); [|constructor].
  unfold makedirs. apply only_call; [reflexivity | intros; apply only_lift].
Qed.

(** One fetch is one GET. *)
Lemma download_loom_video_one_get url output_path w :
  length (List.filter is_get (emitted (download_loom_video url output_path) w)) = 1%nat.
Proof.
  rewrite download_loom_video_eq, emitted_bind, List.filter_app,
    (quiet_emitted _ _ _ (ensure_parent_quiet output_path)).
  destruct (ensure_parent_effect output_path w) as (w1 & -> & _).
  cbn [fst snd app]. unfold get. simpl bind. rewrite emitted_vis. simpl List.filter.
  rewrite quiet_emitted; [reflexivity|].
  apply only_bind; [apply only_lift|].
  intros resp. destruct (_ =? 403); [constructor|].
  unfold open_wb. simpl. apply only_call; [reflexivity|].
  intros y. apply only_bind; [apply only_lift|]. intros _.
  apply only_bind; [apply only_write_chunks; intros; reflexivity|].
  intros _. destruct (get_error resp); constructor.
Qed.

Lemma download_loom_video_no_sleep url output_path :
  only (fun a => is_sleep a = false) (download_loom_video url output_path).
Proof.
  eapply only_weaken; [|apply download_loom_video_actions].
  intros [] H; try reflexivity; destruct H.
Qed.

(** A fetch that returns has opened its destination. *)
Lemma download_loom_video_opens url output_path w :
  (exec (download_loom_video url output_path) w).1 = inr tt ->
  AOpenWB output_path ∈ emitted (download_loom_video url output_path) w.
Proof.
  rewrite download_loom_video_eq, exec_bind, emitted_bind.
  destruct (ensure_parent_effect output_path w) as (w1 & -> & _).
  cbn [fst snd]. intros H. apply elem_of_app. right.
  unfold get in *. simpl bind in *. rewrite emitted_vis. unfold handle. simpl in *.
  destruct (net_get w1 (requests w1) url) as [e|resp]; simpl in *; [discriminate|].
  destruct (get_status resp =? 403); simpl in *; [discriminate|].
  apply elem_of_cons. right. rewrite emitted_vis. apply elem_of_cons. by left.
Qed.

(** The shape of every run of a job. *)
Lemma job_emitted j w :
  emitted (download_single_video j) w =
  APost (transcoded_url (video_id j)) ::
  match (exec (fetch_loom_download_url (video_id j)) w).1 with
  | inl e => [APrint (MsgFailed (video_id j) e)]
  | inr u =>
      let w2 := log_action (APrint (MsgDownloading (video_id j) (output_path j)))
                  (exec (fetch_loom_download_url (video_id j)) w).2 in
      APrint (MsgDownloading (video_id j) (output_path j)) ::
      emitted (backoff 5 (download_loom_video u (output_path j)) 1000) w2 ++
      match (exec (backoff 5 (download_loom_video u (output_path j)) 1000) w2).1 with
      | inl e => [APrint (MsgFailed (video_id j) e)]
      | inr _ =>
          AAppendText (log_file j) (url j ++ [LF]) ::
          if pause_overflows (timeout j)
          then [APrint (MsgFailed (video_id j) OverflowError)]
          else [APrint (pause_message (timeout j)); ASleep (pacing_ms (timeout j))]
      end
  end.
Proof.
  unfold download_single_video, download_single_video_try. unmonad.
  rewrite emitted_try_catch, exec_bind, emitted_bind, emitted_fetch_loom_download_url.
  cbn [app]. f_equal.
  destruct (exec (fetch_loom_download_url (video_id j)) w) as [[e|u] w1]; cbn [fst snd app].
  { apply emitted_print. }
  cbn zeta.
  rewrite exec_bind, emitted_bind, exec_print, emitted_print. cbn [fst snd app]. f_equal.
  rewrite exec_bind, emitted_bind. rewrite <- app_assoc. f_equal.
  destruct (exec (backoff 5 _ 1000) _) as [[e|[]] w3]; cbn [fst snd app].
  { apply emitted_print. }
  rewrite exec_bind, emitted_bind, exec_append_to_log_file, emitted_append_to_log_file.
  cbn [fst snd app]. f_equal.
  match goal with |- context [exec (pace ?t) ?v] =>
    pose proof (exec_pace t v) as Hp; rewrite (emitted_pace t v);
    destruct (exec (pace t) v) as [r v'] end.
  cbn [fst snd] in *. subst r.
  destruct (pause_overflows (timeout j)); [apply emitted_print | by rewrite app_nil_r].
Qed.

(** The outcome of the [try] block, by its parts. *)
Lemma job_outcome j w :
  (exec (download_single_video_try j) w).1 =
  match (exec (fetch_loom_download_url (video_id j)) w).1 with
  | inl e => inl e
  | inr u =>
      let w2 := log_action (APrint (MsgDownloading (video_id j) (output_path j)))
                  (exec (fetch_loom_download_url (video_id j)) w).2 in
      match (exec (backoff 5 (download_loom_video u (output_path j)) 1000) w2).1 with
      | inl e => inl e
      | inr _ => if pause_overflows (timeout j) then inl OverflowError else inr tt
      end
  end.
Proof.
  unfold download_single_video_try. unmonad. rewrite exec_bind.
  destruct (exec (fetch_loom_download_url (video_id j)) w) as [[e|u] w1]; cbn [fst snd].
  { reflexivity. }
  cbn zeta. rewrite exec_bind, exec_print, exec_bind.
  destruct (exec (backoff 5 _ 1000) _) as [[e|[]] w3]; cbn [fst snd].
  { reflexivity. }
  rewrite exec_bind, exec_append_to_log_file. apply exec_pace.
Qed.

(** The outcome of the resolution and the fetch, by its parts. *)
Lemma resolve_and_fetch_outcome j w :
  (exec (resolve_and_fetch j) w).1 =
  match (exec (fetch_loom_download_url (video_id j)) w).1 with
  | inl e => inl e
  | inr u =>
      (exec (backoff 5 (download_loom_video u (output_path j)) 1000)
            (log_action (APrint (MsgDownloading (video_id j) (output_path j)))
               (exec (fetch_loom_download_url (video_id j)) w).2)).1
  end.
Proof.
  unfold resolve_and_fetch. unmonad. rewrite exec_bind.
  destruct (exec (fetch_loom_download_url (video_id j)) w) as [[e|u] w1]; cbn [fst snd].
  { reflexivity. }
  by rewrite exec_bind, exec_print.
Qed.

(** *** The sleeps of a job *)

Lemma sleeps_precede_fetch_quiet l1 l2 :
  List.filter is_sleep l1 = [] ->
  sleeps_precede_fetch (l1 ++ l2) = sleeps_precede_fetch l2.
Proof.
  induction l1 as [|a l1 IH]; [reflexivity|]. simpl.
  destruct a; simpl; try discriminate; exact IH.
Qed.

Lemma sleeps_precede_fetch_app l1 l2 :
  sleeps_precede_fetch l1 = true -> List.filter is_sleep l2 = [] ->
  sleeps_precede_fetch (l1 ++ l2) = true.
Proof.
  intros H1 H2. induction l1 as [|a l1 IH]; simpl.
  { rewrite <- (app_nil_r l2). by rewrite sleeps_precede_fetch_quiet. }
  destruct a; simpl in *; try (by apply IH).
  apply andb_true_iff in H1 as [Hg Hs]. rewrite existsb_app, Hg. simpl. by apply IH.
Qed.

Lemma existsb_of_filter {X} (P : X -> bool) (l : list X) :
  length (List.filter P l) = 1%nat -> existsb P l = true.
Proof.
  induction l as [|x l IH]; simpl; [discriminate|].
  destruct (P x); simpl; auto.
Qed.

(** Under [backoff], every sleep is followed by a further fetch request. *)
Lemma backoff_fetch_sleeps u p retries delay w :
  sleeps_precede_fetch (emitted (backoff retries (download_loom_video u p) delay) w) = true ∧
  existsb is_get (emitted (backoff retries (download_loom_video u p) delay) w) = true.
Proof.
  remember (Z.to_nat retries) as m eqn:Hm. revert retries Hm delay w.
  induction m as [m IH] using lt_wf_ind. intros retries Hm delay w.
  rewrite backoff_emitted, existsb_app.
  rewrite (existsb_of_filter _ _ (download_loom_video_one_get u p w)).
  split; [|reflexivity].
  rewrite sleeps_precede_fetch_quiet
    by apply (quiet_emitted _ _ _ (download_loom_video_no_sleep u p)).
  destruct (exec (download_loom_video u p) w).1 as [e|v]; [|reflexivity].
  destruct (decide _) as [[Hr _]|_]; [|reflexivity].
  destruct (seconds_overflow delay); [reflexivity|].
  destruct (IH (Z.to_nat (retries - 1)) ltac:(lia) (retries - 1) eq_refl (delay * 2)
               (after_failure (download_loom_video u p) delay w)) as [Hs Hg].
  simpl. by rewrite Hg, Hs.
Qed.

(** The sleeps of [backoff] are the first of the delays [delay],
    [2 * delay], [4 * delay], ... *)
Lemma backoff_sleeps_prefix {A} (fn : prog A) :
  only (fun a => is_sleep a = false) fn ->
  forall retries delay w,
    List.filter is_sleep (emitted (backoff retries fn delay) w)
    `prefix_of` delays (Z.to_nat (retries - 1)) delay.
Proof.
  intros Hfn retries.
  remember (Z.to_nat retries) as m eqn:Hm. revert retries Hm.
  induction m as [m IH] using lt_wf_ind. intros retries Hm delay w.
  rewrite backoff_emitted, List.filter_app, (quiet_emitted _ _ _ Hfn). simpl.
  destruct (exec fn w).1 as [e|v]; [|apply prefix_nil].
  destruct (decide _) as [[Hr _]|_]; [|apply prefix_nil].
  destruct (seconds_overflow delay); [apply prefix_nil|].
  replace (Z.to_nat (retries - 1)) with (S (Z.to_nat (retries - 1 - 1))) by lia.
  simpl. apply prefix_cons.
  apply (IH (Z.to_nat (retries - 1)) ltac:(lia) (retries - 1) eq_refl).
Qed.

(** A job whose body succeeds ends with the log line and the pause. *)
Lemma success_ends_with_pace j w :
  (exec (download_single_video_try j) w).1 = inr tt ->
  pause_overflows (timeout j) = false ∧
  exists pre,
    emitted (download_single_video j) w =
    pre ++ [AAppendText (log_file j) (url j ++ [LF]);
            APrint (pause_message (timeout j)); ASleep (pacing_ms (timeout j))].
Proof.
  rewrite job_outcome, job_emitted.
  destruct (exec (fetch_loom_download_url (video_id j)) w).1 as [e|u]; [discriminate|].
  cbn zeta.
  destruct (exec (backoff 5 _ 1000) _).1 as [e|[]]; [discriminate|].
  destruct (pause_overflows (timeout j)); [discriminate|]. intros _.
  split; [reflexivity|].
  match goal with
  | |- exists pre, ?a :: ?b :: ?c ++ _ = _ => exists (a :: b :: c)
  end.
  by rewrite <- !app_comm_cons.
Qed.

(** In a job whose body fails, the sleeps are waits between attempts. *)
Lemma failure_sleeps j w e :
  (exec (download_single_video_try j) w).1 = inl e ->
  sleeps_precede_fetch (emitted (download_single_video j) w) = true ∧
  List.filter is_sleep (emitted (download_single_video j) w)
    `prefix_of` [ASleep 1000; ASleep 2000; ASleep 4000; ASleep 8000].
Proof.
  rewrite job_outcome, job_emitted.
  destruct (exec (fetch_loom_download_url (video_id j)) w).1 as [e'|u].
  { intros _. split; [reflexivity | apply prefix_nil]. }
  cbn zeta.
  set (fn := download_loom_video u (output_path j)).
  set (w2 := log_action _ _).
  destruct (backoff_fetch_sleeps u (output_path j) 5 1000 w2) as [Hs _].
  pose proof (backoff_sleeps_prefix fn (download_loom_video_no_sleep u (output_path j))
                5 1000 w2) as Hp.
  fold fn in Hs.
  change (delays (Z.to_nat (5 - 1)) 1000)
    with [ASleep 1000; ASleep 2000; ASleep 4000; ASleep 8000] in Hp.
  cbn [sleeps_precede_fetch List.filter is_sleep].
  rewrite List.filter_app.
  destruct (exec (backoff 5 fn 1000) w2).1 as [e'|[]].
  - intros _. split.
    + by apply sleeps_precede_fetch_app.
    + simpl. by rewrite app_nil_r.
  - destruct (pause_overflows (timeout j)); [|discriminate]. intros _. split.
    + by apply sleeps_precede_fetch_app.
    + simpl. by rewrite app_nil_r.
Qed.

(** C3, as the code has it. A job never raises. When its body succeeds
    (resolution, fetch within the retries, log line, and the division
    [timeout/1000], which must not overflow), the job ends with the log
    line, the announcement and the pause: [timeout] ms, or 5000 ms when
    [timeout] is 0 or absent. When the body fails, in the resolution,
    after the retries are exhausted, or in the division of the pause, the
    only action after the body is the report of the failure, and no
    pacing delay is awaited: every sleep of the run is one of the waits
    of 1000, 2000, 4000 and 8000 ms between attempts and is followed by a
    further fetch request. *)
Theorem pacing_on_success_only (j : job) (w : world) :
  (exec (download_single_video j) w).1 = inr tt ∧
  match (exec (download_single_video_try j) w).1 with
  | inr _ =>
      pause_overflows (timeout j) = false ∧
      exists pre,
        emitted (download_single_video j) w =
        pre ++ [AAppendText (log_file j) (url j ++ [LF]);
                APrint (pause_message (timeout j)); ASleep (pacing_ms (timeout j))]
  | inl e =>
      emitted (download_single_video j) w =
        emitted (download_single_video_try j) w ++ [APrint (MsgFailed (video_id j) e)] ∧
      sleeps_precede_fetch (emitted (download_single_video j) w) = true ∧
      List.filter is_sleep (emitted (download_single_video j) w)
        `prefix_of` [ASleep 1000; ASleep 2000; ASleep 4000; ASleep 8000]
  end.
Proof.
  split; [apply download_single_video_returns|].
  destruct (exec (download_single_video_try j) w).1 as [e|[]] eqn:H.
  - split; [exact (failure_ends_with_report j w e H)|].
    exact (failure_sleeps j w e H).
  - exact (success_ends_with_pace j w H).
Qed.

(** C3, as stated, fails: all five fetches are refused, the retries are
    exhausted, and the job ends with its report, not with the pause. *)
Lemma no_pause_after_failure :
  let j := Sample.a_job (Some 5000) in
  let w := Sample.remote [403; 403; 403; 403; 403] in
  (exec (download_single_video_try j) w).1 = inl Forbidden ∧
  length (List.filter is_get (emitted (download_single_video j) w)) = 5%nat ∧
  ¬ paced_at_end j w.
Proof.
  split; [vm_compute; reflexivity|]. split; [vm_compute; reflexivity|].
  unfold paced_at_end. vm_compute. discriminate.
Qed.

(** A timeout that [main] accepts can make the pause itself fail: the
    fetch succeeds and the log line is written, then [timeout/1000]
    overflows, and the job ends with the report of a failure and without
    a sleep. *)
Example huge_timeout_fails_in_the_pause :
  let j := Sample.a_job (Some Sample.huge_timeout) in
  let w := Sample.remote [] in
  (exec (download_single_video_try j) w).1 = inl OverflowError ∧
  List.filter (fun a => is_append a || is_sleep a)
    (emitted (download_single_video j) w) = [AAppendText (log_file j) (url j ++ [LF])] ∧
  last (emitted (download_single_video j) w) = Some (APrint (MsgFailed (video_id j) OverflowError)).
Proof. repeat split; vm_compute; reflexivity. Qed.

(** ** The pause and the [--timeout] flag *)

(** C9. [--timeout 0] passes the validation of [main], and a job that
    succeeds with it still ends with the five-second pause of the [else]
    branch, because [if timeout:] tests the value and 0 is false. No
    accepted value makes the pause zero: for every timeout that [main]
    accepts, the pause either prints and sleeps for a positive time, or,
    when [timeout/1000] overflows, raises [OverflowError] before anything
    is printed and does not sleep at all. *)
Theorem zero_timeout_sleeps_five_seconds (a : args) (j : job) (w : world)
    (Hlist : truthy_opt (a_list a) = true)
    (Hurl : truthy_opt (a_url a) = false)
    (Hzero : a_timeout a = Some 0)
    (Hjob : timeout j = a_timeout a)
    (Hok : (exec (download_single_video_try j) w).1 = inr tt) :
  main a = FromList ∧
  (exists pre,
     emitted (download_single_video j) w =
     pre ++ [AAppendText (log_file j) (url j ++ [LF]); APrint MsgWaiting5; ASleep 5000]) ∧
  (forall a' w', main a' = FromList ->
     match (exec (pace (a_timeout a')) w').1 with
     | inr _ =>
         exists m d, emitted (pace (a_timeout a')) w' = [APrint m; ASleep d] ∧ 0 < d
     | inl e =>
         e = OverflowError ∧ emitted (pace (a_timeout a')) w' = [] ∧
         exists t, a_timeout a' = Some t ∧ seconds_overflow t = true
     end).
Proof.
  split; [|split].
  - unfold main. rewrite Hlist, Hurl, Hzero. reflexivity.
  - destruct (success_ends_with_pace j w Hok) as (_ & pre & Hem).
    rewrite Hjob, Hzero in Hem. exists pre. exact Hem.
  - intros a' w' Hmain. rewrite exec_pace, emitted_pace.
    unfold main in Hmain.
    destruct (negb (truthy_opt (a_url a')) && negb (truthy_opt (a_list a'))); [discriminate|].
    destruct (truthy_opt (a_url a') && truthy_opt (a_list a')); [discriminate|].
    destruct (pause_overflows (a_timeout a')) eqn:Hov.
    + split; [reflexivity|]. split; [reflexivity|].
      unfold pause_overflows in Hov. destruct (a_timeout a') as [t|]; [|discriminate].
      by exists t.
    + eexists _, _. split; [reflexivity|].
      unfold pacing_ms. destruct (a_timeout a') as [t|]; [|lia].
      destruct (t <? 0) eqn:Hneg; [discriminate|].
      destruct (t =? 0) eqn:Hz; lia.
Qed.

Lemma zero_timeout_sleeps_five_seconds_witness :
  let a := {| a_url := None; a_list := Some (lit "urls.txt"); a_prefix := None;
              a_out := None; a_timeout := Some 0 |} in
  main a = FromList ∧
  last (emitted (download_single_video (Sample.a_job (Some 0))) (Sample.remote [])) =
  Some (ASleep 5000).
Proof.
  intros a.
  assert (Hok : (exec (download_single_video_try (Sample.a_job (Some 0)))
                      (Sample.remote [])).1 = inr tt) by (vm_compute; reflexivity).
  destruct (zero_timeout_sleeps_five_seconds a (Sample.a_job (Some 0)) (Sample.remote [])
              eq_refl eq_refl eq_refl eq_refl Hok) as (Hmain & [pre Hem] & _).
  split; [exact Hmain|]. rewrite Hem.
  change [AAppendText (log_file (Sample.a_job (Some 0))) (url (Sample.a_job (Some 0)) ++ [LF]);
          APrint MsgWaiting5; ASleep 5000]
    with ([AAppendText (log_file (Sample.a_job (Some 0))) (url (Sample.a_job (Some 0)) ++ [LF]);
           APrint MsgWaiting5] ++ [ASleep 5000]).
  rewrite app_assoc. apply last_snoc.
Defined.

(** ** The pool *)

Lemma count_insert {A} (P : A -> bool) (l : list A) i t t' :
  l !! i = Some t ->
  (length (List.filter P (<[i := t']> l)) + (if P t then 1 else 0) =
   length (List.filter P l) + (if P t' then 1 else 0))%nat.
Proof.
  revert i. induction l as [|x l IH]; intros i Hi; [discriminate|].
  destruct i as [|i]; simpl in *.
  - injection Hi as ->. destruct (P t), (P t'); simpl; lia.
  - specialize (IH i Hi). destruct (P x); simpl; lia.
Qed.

Lemma fire_inv {A} i (st st' : state A) :
  fire i st = Some st' ->
  exists t t',
    tasks st !! i = Some t ∧ task_step t t' ∧ tasks st' = <[i := t']> (tasks st) ∧
    match t with
    | Queued _ => sem st = S (sem st') ∧ raised st' = raised st
    | Running (Vis _ _) => sem st' = sem st ∧ raised st' = raised st
    | Running (Ret _) => sem st' = S (sem st) ∧ raised st' = raised st
    | Running (Raise e) =>
        sem st' = S (sem st) ∧
        raised st' = match raised st with None => Some e | r => r end
    | Done _ => False
    end.
Proof.
  unfold fire. intros H.
  destruct (tasks st !! i) as [[p|p|r]|] eqn:Ht; try discriminate.
  - destruct (sem st) as [|n] eqn:Hs; [discriminate|]. injection H as <-.
    eexists _, _. split; [reflexivity|]. split; [reflexivity|]. simpl. auto.
  - destruct p as [v|e|a k].
    + injection H as <-. eexists _, _. split; [reflexivity|].
      split; [reflexivity|]. simpl. auto.
    + injection H as <-. eexists _, _. split; [reflexivity|].
      split; [reflexivity|]. simpl. auto.
    + destruct (handle a (env st)) as [x w']. injection H as <-.
      eexists _, _. split; [reflexivity|]. split; [by exists x|]. simpl. auto.
Qed.

Lemma fire_balanced {A} limit i (st st' : state A) :
  balanced limit st -> fire i st = Some st' -> balanced limit st'.
Proof.
  unfold balanced, running. intros Hb Hf.
  apply fire_inv in Hf as (t & t' & Ht & Hstep & -> & Hsem).
  pose proof (count_insert is_running (tasks st) i t t' Ht) as Hc.
  destruct t as [p|[v|e|a k]|r]; simpl in Hstep; try contradiction;
    [| | |destruct Hstep as [x Hstep]]; subst t'; simpl in *;
    destruct Hsem as [Hs _]; lia.
Qed.

Lemma async_pool_balanced {A} limit (coros : list (prog A)) w :
  balanced limit (async_pool limit coros w).
Proof.
  unfold balanced, running. simpl.
  assert (H : List.filter is_running (List.map (@Queued A) coros) = []).
  { induction coros; simpl; auto. }
  rewrite H. reflexivity.
Qed.

Lemma reachable_balanced {A} limit (st0 st : state A) :
  balanced limit st0 -> reachable st0 st -> balanced limit st.
Proof.
  intros Hb Hr. induction Hr as [|st1 st2 st3 [i Hf] _ IH]; [exact Hb|].
  apply IH. eapply fire_balanced; eauto.
Qed.

Lemma run_reachable {A} schedule (st st' : state A) :
  run schedule st = Some st' -> reachable st st'.
Proof.
  revert st. induction schedule as [|i rest IH]; intros st H; simpl in H.
  - injection H as ->. apply rtc_refl.
  - destruct (fire i st) as [st1|] eqn:Hf; [|discriminate].
    eapply rtc_l; [by exists i | by apply IH].
Qed.

Lemma finish_releases {A} i (st st' : state A) p r :
  tasks st !! i = Some (Running p) -> fire i st = Some st' ->
  tasks st' !! i = Some (Done r) -> sem st' = S (sem st).
Proof.
  intros Ht Hf Hd. unfold fire in Hf. rewrite Ht in Hf.
  assert (Hi : (i < length (tasks st))%nat) by (by eapply lookup_lt_Some).
  destruct p as [v|e|a k].
  - by injection Hf as <-.
  - by injection Hf as <-.
  - destruct (handle a (env st)) as [x w']. injection Hf as <-. simpl in Hd.
    rewrite list_lookup_insert_eq in Hd by exact Hi. discriminate.
Qed.

(** After a coroutine has finished, every waiting one can start. *)
Lemma finished_frees_slot {A} i (st st' : state A) p r :
  tasks st !! i = Some (Running p) -> fire i st = Some st' ->
  tasks st' !! i = Some (Done r) ->
  forall k q, tasks st' !! k = Some (Queued q) ->
    exists st'', fire k st' = Some st'' ∧ tasks st'' !! k = Some (Running q).
Proof.
  intros Ht Hf Hd k q Hk.
  pose proof (finish_releases i st st' p r Ht Hf Hd) as Hs.
  unfold fire. rewrite Hk, Hs.
  eexists. split; [reflexivity|]. simpl.
  apply list_lookup_insert_eq. by eapply lookup_lt_Some.
Qed.

(** C7. In a batch run, whatever the number of jobs and the order in which
    the event loop picks them, at most 5 jobs are started and not
    finished: the jobs in flight and the free slots of the semaphore always
    add up to 5. When a job in flight finishes, fewer than 5 are in flight
    and every waiting job can start at once, which keeps the bound. *)
Theorem at_most_five_in_flight (jobs : list job) (w : world) (st : state unit)
    (Hrun : reachable (async_pool pool_limit (List.map download_single_video jobs) w) st) :
  (running st ≤ 5)%nat ∧ (running st + sem st = 5)%nat ∧
  (forall i p r st',
     tasks st !! i = Some (Running p) -> fire i st = Some st' ->
     tasks st' !! i = Some (Done r) ->
     (running st' < 5)%nat ∧
     forall k q, tasks st' !! k = Some (Queued q) ->
       exists st'', fire k st' = Some st'' ∧ tasks st'' !! k = Some (Running q) ∧
                    (running st'' ≤ 5)%nat).
Proof.
  assert (Hb : balanced 5 st).
  { eapply reachable_balanced; [|exact Hrun]. apply async_pool_balanced. }
  split; [unfold balanced in Hb; lia|]. split; [exact Hb|].
  intros i p r st' Ht Hf Hd.
  assert (Hb' : balanced 5 st') by (eapply fire_balanced; eauto).
  pose proof (finish_releases i st st' p r Ht Hf Hd) as Hn.
  split; [unfold balanced in Hb'; lia|].
  intros k q Hk.
  destruct (finished_frees_slot i st st' p r Ht Hf Hd k q Hk) as (st'' & Hf' & Hq).
  exists st''. split; [exact Hf'|]. split; [exact Hq|].
  assert (Hb'' : balanced 5 st'') by (eapply fire_balanced; eauto).
  unfold balanced in Hb''. lia.
Qed.

Lemma at_most_five_in_flight_witness :
  exists st,
    run [0; 1; 2; 3; 4]%nat
      (async_pool pool_limit (List.map download_single_video Sample.six_jobs) (Sample.remote []))
    = Some st ∧
    running st = 5%nat ∧ fire 5 st = None ∧ (running st ≤ 5)%nat.
Proof.
  eexists. split; [reflexivity|]. split; [reflexivity|]. split; [reflexivity|].
  apply (at_most_five_in_flight Sample.six_jobs (Sample.remote [])).
  apply (run_reachable [0; 1; 2; 3; 4]%nat). reflexivity.
Defined.

(** *** Pools whose coroutines catch their exceptions *)

Lemma task_step_calm {A} (t t' : task A) : calm_task t -> task_step t t' -> calm_task t'.
Proof.
  destruct t as [p|[v|e|a k]|r]; simpl; intros Hc Hs; try contradiction.
  - by subst.
  - subst. by exists v.
  - destruct Hs as [x ->]. apply Hc.
Qed.

Lemma fire_calm {A} i (st st' : state A) : calm st -> fire i st = Some st' -> calm st'.
Proof.
  intros [Hr Hall] Hf.
  apply fire_inv in Hf as (t & t' & Ht & Hstep & Hl & Hsem).
  pose proof (Forall_lookup_1 _ _ _ _ Hall Ht) as Hct.
  split.
  - destruct t as [p|[v|e|a k]|r]; simpl in *; try contradiction;
      destruct Hsem as [_ ->]; exact Hr.
  - rewrite Hl. apply Forall_insert; [exact Hall|]. by eapply task_step_calm.
Qed.

Lemma async_pool_calm {A} limit (coros : list (prog A)) w :
  Forall no_raise coros -> calm (async_pool limit coros w).
Proof.
  intros H. split; [reflexivity|]. simpl.
  induction H; simpl; constructor; auto.
Qed.

Lemma reachable_calm {A} (st0 st : state A) : calm st0 -> reachable st0 st -> calm st.
Proof.
  intros Hc Hr. induction Hr as [|st1 st2 st3 [i Hf] _ IH]; [exact Hc|].
  apply IH. eapply fire_calm; eauto.
Qed.

Lemma reachable_length {A} (st0 st : state A) :
  reachable st0 st -> length (tasks st) = length (tasks st0).
Proof.
  intros Hr. induction Hr as [|st1 st2 st3 [i Hf] _ IH]; [reflexivity|].
  rewrite IH. apply fire_inv in Hf as (t & t' & _ & _ & -> & _).
  apply length_insert.
Qed.

Lemma value_done {A} (t : task A) v : value t = Some v -> is_done t = true.
Proof. by destruct t. Qed.

Lemma calm_outcome {A} (st : state A) r :
  calm st -> outcome st = Some r ->
  all_done st = true ∧ exists vs, r = inr vs ∧ length vs = length (tasks st).
Proof.
  intros [Hr _] Ho. unfold outcome in Ho. rewrite Hr in Ho.
  destruct (mapM value (tasks st)) as [vs|] eqn:Hm; [|discriminate].
  injection Ho as <-. split.
  - unfold all_done. apply forallb_forall. intros t Ht.
    apply mapM_Some_1 in Hm. apply list_elem_of_In, list_elem_of_lookup_1 in Ht as [i Hi].
    destruct (Forall2_lookup_l _ _ _ _ _ Hm Hi) as (v & _ & Hv).
    by eapply value_done.
  - exists vs. split; [reflexivity|]. symmetry. by eapply length_mapM.
Qed.

Lemma calm_done_outcome {A} (st : state A) :
  calm st -> all_done st = true -> exists vs, outcome st = Some (inr vs).
Proof.
  intros [Hr Hall] Hd. unfold outcome. rewrite Hr.
  assert (Hs : is_Some (mapM value (tasks st))).
  { apply mapM_is_Some_2. apply Forall_forall. intros t Ht.
    unfold all_done in Hd. rewrite forallb_forall in Hd.
    specialize (Hd t (proj1 (list_elem_of_In _ _) Ht)).
    pose proof (proj1 (Forall_forall _ _) Hall t Ht) as Hc.
    destruct t as [p|p|[e|v]]; try discriminate; simpl in *.
    - by destruct Hc.
    - by eexists. }
  destruct Hs as [vs ->]. by exists vs.
Qed.

Lemma find_undone {A} (P : task A -> bool) (l : list (task A)) :
  forallb P l = false -> exists i t, l !! i = Some t ∧ P t = false.
Proof.
  induction l as [|x l IH]; simpl; [discriminate|].
  destruct (P x) eqn:Hx; simpl; intros H.
  - destruct (IH H) as (i & t & Hi & Ht). by exists (S i), t.
  - by exists 0%nat, x.
Qed.

Lemma none_running {A} (l : list (task A)) i t :
  length (List.filter is_running l) = 0%nat -> l !! i = Some t -> is_running t = false.
Proof.
  revert i. induction l as [|x l IH]; intros i Hl Hi; [discriminate|].
  simpl in Hl. destruct (is_running x) eqn:Hx; [discriminate|].
  destruct i; simpl in Hi; [by injection Hi as <- | eauto].
Qed.

Lemma running_fires {A} i (st : state A) p :
  tasks st !! i = Some (Running p) -> exists st', fire i st = Some st'.
Proof.
  intros Ht. unfold fire. rewrite Ht. destruct p as [v|e|a k]; try by eexists.
  destruct (handle a (env st)). by eexists.
Qed.

(** No deadlock: while a coroutine is unfinished, the event loop has a
    wrapper to run. *)
Lemma pool_progress {A} limit (st : state A) :
  (0 < limit)%nat -> balanced limit st -> all_done st = false ->
  exists i st', fire i st = Some st'.
Proof.
  intros Hpos Hb Hd.
  destruct (forallb (fun t => negb (is_running t)) (tasks st)) eqn:Hrun.
  - assert (Hnone : length (List.filter is_running (tasks st)) = 0%nat).
    { rewrite forallb_forall in Hrun. clear -Hrun.
      induction (tasks st) as [|x l IH]; [reflexivity|]. simpl.
      pose proof (Hrun x (or_introl eq_refl)) as Hx.
      destruct (is_running x); [discriminate|]. apply IH.
      intros y Hy. apply Hrun. by right. }
    destruct (find_undone is_done (tasks st) Hd) as (i & t & Hi & Ht).
    pose proof (none_running _ _ _ Hnone Hi) as Hr.
    destruct t as [p|p|r]; try discriminate.
    unfold balanced, running in Hb. rewrite Hnone in Hb.
    exists i. unfold fire. rewrite Hi. destruct (sem st); [lia|]. by eexists.
  - destruct (find_undone _ _ Hrun) as (i & t & Hi & Ht).
    destruct t as [p|p|r]; try discriminate.
    exists i. by eapply running_fires.
Qed.

(** *** Every run of the pool is finite *)

Lemma running_acc {A} (p : prog A) : Acc (fun t2 t1 => task_step t1 t2) (Running p).
Proof.
  induction p as [v|e|a k IH]; constructor; intros y Hy; simpl in Hy.
  - subst. constructor. intros z Hz. destruct Hz.
  - subst. constructor. intros z Hz. destruct Hz.
  - destruct Hy as [x ->]. apply IH.
Qed.

Lemma task_acc {A} (t : task A) : Acc (fun t2 t1 => task_step t1 t2) t.
Proof.
  destruct t as [p|p|r].
  - constructor. intros y Hy. simpl in Hy. subst. apply running_acc.
  - apply running_acc.
  - constructor. intros y Hy. destruct Hy.
Qed.

Lemma list_acc {A} (l : list (task A)) : Acc (fun l2 l1 => list_step l1 l2) l.
Proof.
  induction l as [|t l IHl].
  { constructor. intros y (i & t & t' & Hi & _). discriminate. }
  revert l IHl. induction (task_acc t) as [t _ IHt]. intros l Hl.
  induction Hl as [l Hl IHl].
  constructor. intros y (i & t0 & t' & Hi & Hs & ->).
  destruct i as [|j]; simpl in *.
  - injection Hi as <-. apply IHt; [exact Hs | by constructor].
  - apply IHl. by exists j, t0, t'.
Qed.

Lemma step_list_step {A} (st st' : state A) : step st st' -> list_step (tasks st) (tasks st').
Proof.
  intros [i Hf]. apply fire_inv in Hf as (t & t' & Ht & Hs & Hl & _).
  by exists i, t, t'.
Qed.

Lemma step_acc {A} (st : state A) : Acc (fun s2 s1 => step s1 s2) st.
Proof.
  remember (tasks st) as l eqn:Hl. revert st Hl.
  induction (list_acc l) as [l _ IH]. intros st ->.
  constructor. intros st' Hs. eapply IH; [|reflexivity].
  by apply step_list_step.
Qed.

(** C2, as the code has it. [gather] is called without
    [return_exceptions], so the pool itself does not isolate failures: it
    is the coroutines that must not raise, and the jobs of a batch do not,
    since [download_single_video] catches every exception. For a positive
    limit and coroutines that do not raise: [async_pool] gives its caller a
    result only when every coroutine has finished, and then a list with
    one result per coroutine; while one is unfinished the event loop can
    go on; every run is finite; and when all have finished the list is
    there. *)
Theorem pool_waits_when_jobs_catch {A} (limit : nat) (coros : list (prog A)) (w : world)
    (Hpos : (0 < limit)%nat) (Hcatch : Forall no_raise coros) :
  (forall st, reachable (async_pool limit coros w) st ->
     (forall r, outcome st = Some r ->
        all_done st = true ∧ exists results, r = inr results ∧ length results = length coros) ∧
     (all_done st = false -> exists i st', fire i st = Some st') ∧
     (all_done st = true -> exists results, outcome st = Some (inr results)) ∧
     Acc (fun s2 s1 => step s1 s2) st) ∧
  (forall jobs : list job, Forall no_raise (List.map download_single_video jobs)).
Proof.
  split.
  - intros st Hr.
    assert (Hc : calm st).
    { eapply reachable_calm; [|exact Hr]. by apply async_pool_calm. }
    assert (Hb : balanced limit st).
    { eapply reachable_balanced; [|exact Hr]. apply async_pool_balanced. }
    assert (Hlen : length (tasks st) = length coros).
    { rewrite (reachable_length _ _ Hr). simpl. apply length_map. }
    split; [|split; [|split]].
    + intros r Ho. destruct (calm_outcome st r Hc Ho) as (Hd & vs & -> & Hl).
      split; [exact Hd|]. exists vs. split; [reflexivity | congruence].
    + by apply (pool_progress limit).
    + by apply calm_done_outcome.
    + apply step_acc.
  - intros jobs. apply Forall_forall. intros p Hp.
    apply list_elem_of_In, in_map_iff in Hp as (j & <- & _).
    apply download_single_video_no_raise.
Qed.

(** C2, as stated, fails: with one slot, the first coroutine raises, and
    [async_pool] raises with it while the second has not even started. *)
Lemma first_failure_ends_the_wait :
  ¬ waits_for_all 1 Sample.careless (Sample.remote []) ∧
  exists st, run [0; 0]%nat (async_pool 1 Sample.careless (Sample.remote [])) = Some st ∧
             outcome st = Some (inl Forbidden) ∧ all_done st = false.
Proof.
  assert (Hrun : exists st,
            run [0; 0]%nat (async_pool 1 Sample.careless (Sample.remote [])) = Some st ∧
            outcome st = Some (inl Forbidden) ∧ all_done st = false).
  { eexists. split; [reflexivity|]. split; reflexivity. }
  split; [|exact Hrun].
  destruct Hrun as (st & Hst & Ho & Hd). intros Hw.
  destruct (Hw st (run_reachable _ _ _ Hst) _ Ho) as [Hall _]. congruence.
Qed.

Lemma pool_waits_when_jobs_catch_witness :
  exists st,
    run [0; 0; 0; 1; 1; 1]%nat (async_pool 1 Sample.polite (Sample.remote [])) = Some st ∧
    outcome st = Some (inr [tt; tt]) ∧ all_done st = true.
Proof.
  eexists. split; [reflexivity|]. split; [reflexivity|].
  assert (Hcatch : Forall no_raise Sample.polite).
  { repeat constructor; intros x; exact I. }
  destruct (pool_waits_when_jobs_catch 1 Sample.polite (Sample.remote []) (le_n 1) Hcatch)
    as [H _].
  eapply H; [|reflexivity].
  apply (run_reachable [0; 0; 0; 1; 1; 1]%nat). reflexivity.
Defined.

(** *** The trace of a pool *)

Lemma only_vis_inv {A} (P : action -> Prop) a (k : answer a -> prog A) :
  only P (Vis a k) -> P a ∧ forall x, only P (k x).
Proof.
  intros H.
  refine (match H in only _ p
                return match p with
                       | Vis a k => P a ∧ (forall x, only P (k x))
                       | _ => True
                       end with
          | only_ret _ _ => I
          | only_raise _ _ => I
          | only_vis _ a k Ha Hk => conj Ha Hk
          end).
Qed.

Lemma path_only {A} (P : action -> Prop) (p q : prog A) tr :
  only P p -> path p tr q -> Forall P tr.
Proof.
  revert p. induction tr as [|a tr IH]; intros p Hp Hpath; [constructor|].
  destruct p as [v|e|b k]; simpl in Hpath; try contradiction.
  destruct Hpath as (x & -> & Hpath). apply only_vis_inv in Hp as [Hb Hk].
  constructor; [exact Hb|]. by apply (IH (k x)).
Qed.

Lemma path_snoc {A} (p : prog A) tr a (k : answer a -> prog A) x :
  path p tr (Vis a k) -> path p (tr ++ [a]) (k x).
Proof.
  revert p. induction tr as [|b tr IH]; intros p Hpath; simpl in *.
  - subst p. by exists x.
  - destruct p as [v|e|c k']; try contradiction.
    destruct Hpath as (y & -> & Hpath). exists y. split; [reflexivity|]. by apply IH.
Qed.

Lemma concat_nils {X Y} (l : list X) : concat (List.map (fun _ => @nil Y) l) = [].
Proof. induction l; simpl; auto. Qed.

Lemma concat_insert_snoc {X} (ls : list (list X)) i l a :
  ls !! i = Some l -> concat (<[i := l ++ [a]]> ls) ≡ₚ concat ls ++ [a].
Proof.
  revert i. induction ls as [|l0 ls IH]; intros i Hi; [discriminate|].
  destruct i as [|i]; simpl in *.
  - injection Hi as ->. rewrite <- !app_assoc. apply Permutation_app_head.
    apply Permutation_app_comm.
  - rewrite (IH i Hi). by rewrite app_assoc.
Qed.

Lemma async_pool_traced {A} limit (coros : list (prog A)) w :
  traced coros w (async_pool limit coros w).
Proof.
  split; [simpl; apply length_map|].
  exists (List.map (fun _ => []) coros). split; [apply length_map|]. split.
  - intros i p tr t Hp Htr Ht. simpl in Ht.
    change (List.map (@Queued A) coros) with (@Queued A <$> coros) in Ht.
    change (List.map (fun _ => []) coros) with ((fun _ : prog A => @nil action) <$> coros) in Htr.
    rewrite list_lookup_fmap, Hp in Ht. rewrite list_lookup_fmap, Hp in Htr.
    simpl in *. injection Ht as <-. injection Htr as <-. by split.
  - exists []. split; [simpl; by rewrite app_nil_r|]. by rewrite concat_nils.
Qed.

Lemma fire_traced {A} (coros : list (prog A)) w i (st st' : state A) :
  traced coros w st -> fire i st = Some st' -> traced coros w st'.
Proof.
  intros (Hlen & trs & Hlt & Hperf & new & Hnew & Hperm) Hf. unfold fire in Hf.
  destruct (tasks st !! i) as [t|] eqn:Ht; [|discriminate].
  assert (Hi : (i < length (tasks st))%nat) by (by eapply lookup_lt_Some).
  assert (Hkeep : forall t' w',
            (forall p tr, coros !! i = Some p -> trs !! i = Some tr -> performed p tr t') ->
            trace w' = trace (env st) ->
            traced coros w {| sem := sem st'; tasks := <[i := t']> (tasks st);
                              raised := raised st'; env := w' |}).
  { intros t' w' Ht' Hw'. split; [simpl; by rewrite length_insert|].
    exists trs. split; [exact Hlt|]. split.
    - intros i0 p tr t0 Hp Htr Ht0. simpl in Ht0.
      destruct (decide (i0 = i)) as [->|Hne].
      + rewrite list_lookup_insert_eq in Ht0 by exact Hi. injection Ht0 as <-.
        by apply Ht'.
      + rewrite list_lookup_insert_ne in Ht0 by congruence. by eapply Hperf.
    - exists new. simpl. by rewrite Hw'. }
  destruct t as [p|[v|e|a k]|r]; try discriminate.
  - destruct (sem st) as [|n]; [discriminate|]. injection Hf as <-.
    apply Hkeep; [|reflexivity].
    intros p0 tr Hp Htr. destruct (Hperf i p0 tr _ Hp Htr Ht) as [-> ->]. reflexivity.
  - injection Hf as <-. apply Hkeep; [|reflexivity].
    intros p0 tr Hp Htr. exact (Hperf i p0 tr _ Hp Htr Ht).
  - injection Hf as <-. apply Hkeep; [|reflexivity].
    intros p0 tr Hp Htr. exact (Hperf i p0 tr _ Hp Htr Ht).
  - pose proof (trace_handle a (env st)) as Htrace.
    destruct (handle a (env st)) as [x w'] eqn:Hh. injection Hf as <-.
    simpl in Htrace.
    destruct (lookup_lt_is_Some_2 trs i ltac:(lia)) as [tr0 Htr0].
    split; [simpl; by rewrite length_insert|].
    exists (<[i := tr0 ++ [a]]> trs). split; [by rewrite length_insert|]. split.
    + intros i0 p tr t0 Hp Htr Ht0. simpl in Ht0.
      destruct (decide (i0 = i)) as [->|Hne].
      * rewrite list_lookup_insert_eq in Ht0 by exact Hi. injection Ht0 as <-.
        rewrite list_lookup_insert_eq in Htr by lia. injection Htr as <-.
        simpl. apply path_snoc. exact (Hperf i p tr0 _ Hp Htr0 Ht).
      * rewrite list_lookup_insert_ne in Ht0 by congruence.
        rewrite list_lookup_insert_ne in Htr by congruence. by eapply Hperf.
    + exists (new ++ [a]). simpl. split; [by rewrite Htrace, Hnew, app_assoc|].
      rewrite (concat_insert_snoc trs i tr0 a Htr0). by rewrite Hperm.
Qed.

(** Whatever the schedule, the pool's trace is made of the traces of its
    coroutines. *)
Lemma reachable_traced {A} (coros : list (prog A)) w (st0 st : state A) :
  traced coros w st0 -> reachable st0 st -> traced coros w st.
Proof.
  intros Ht Hr. induction Hr as [|st1 st2 st3 [i Hf] _ IH]; [exact Ht|].
  apply IH. eapply fire_traced; eauto.
Qed.

Lemma Permutation_filter_bool {X} (P : X -> bool) (l l' : list X) :
  l ≡ₚ l' -> List.filter P l ≡ₚ List.filter P l'.
Proof.
  induction 1 as [|x l l' _ IH|x y l|l l' l'' _ IH1 _ IH2]; simpl.
  - reflexivity.
  - destruct (P x); [by constructor | exact IH].
  - destruct (P x), (P y); try reflexivity. apply perm_swap.
  - by etransitivity.
Qed.

(** *** The requests of a pool of jobs *)

Lemma download_single_video_eq j :
  download_single_video j = Vis (attempt j) (job_after_post j).
Proof. reflexivity. Qed.

Lemma job_after_post_only (P : action -> Prop) j x :
  (forall m, P (APrint m)) -> (forall d, P (ASleep d)) ->
  P (AAppendText (log_file j) (url j ++ [LF])) ->
  (forall u, only P (download_loom_video u (output_path j))) ->
  only P (job_after_post j x).
Proof.
  intros Hp Hs Ha Hf.
  assert (Hprint : forall m, only P (print m)).
  { intros m. apply only_call; [apply Hp | intros; constructor]. }
  unfold job_after_post. apply only_try_catch; [|intros e; apply Hprint].
  unmonad. apply only_bind.
  { apply only_bind; [apply only_lift|]. intros resp.
    destruct (negb _); [constructor|].
    apply only_bind; [apply only_lift|]. intros data.
    destruct data as [s|items|]; simpl; try constructor.
    destruct (dict_get _ _); constructor. }
  intros u. apply only_bind; [apply Hprint|]. intros _.
  apply only_bind; [apply only_backoff; [apply Hf | exact Hs]|]. intros _.
  apply only_bind; [apply only_call; [exact Ha | intros; apply only_lift]|]. intros _.
  by apply only_pace.
Qed.

Lemma download_loom_video_no_post u p :
  only (fun a => is_post a = false) (download_loom_video u p).
Proof.
  eapply only_weaken; [|apply download_loom_video_actions].
  intros [] H; try reflexivity; destruct H.
Qed.

(** A job that has done anything has sent its resolution request, and
    this is its only request to the platform. *)
Lemma job_path j tr q :
  path (download_single_video j) tr q ->
  (tr = [] ∧ q = download_single_video j) ∨
  List.filter is_post tr = [attempt j].
Proof.
  intros H. destruct tr as [|a rest]; [left; by split|]. right.
  rewrite download_single_video_eq in H. simpl in H.
  destruct H as (x & -> & Hpath). simpl. f_equal.
  assert (Hrest : Forall (fun a => is_post a = false) rest).
  { eapply path_only; [|exact Hpath].
    apply job_after_post_only; try reflexivity. intros u. apply download_loom_video_no_post. }
  clear Hpath. induction Hrest as [|b rest Hb _ IH]; [reflexivity|].
  simpl. by rewrite Hb.
Qed.

Lemma job_performed j tr t :
  performed (download_single_video j) tr t ->
  (List.filter is_post tr = [] ∨ List.filter is_post tr = [attempt j]) ∧
  (is_done t = true -> List.filter is_post tr = [attempt j]).
Proof.
  destruct t as [p|p|[e|v]]; simpl.
  - intros [_ ->]. split; [by left | discriminate].
  - intros H. split; [|discriminate].
    destruct (job_path j tr p H) as [[-> _]|Hp]; [by left | by right].
  - intros H. destruct (job_path j tr _ H) as [[_ Hq]|Hp]; [discriminate|].
    split; [by right | done].
  - intros H. destruct (job_path j tr _ H) as [[_ Hq]|Hp]; [discriminate|].
    split; [by right | done].
Qed.

Lemma posts_of_jobs (jobs : list job) (trs : list (list action)) (ts : list (task unit)) :
  length trs = length jobs -> length ts = length jobs ->
  (forall i j tr t, jobs !! i = Some j -> trs !! i = Some tr -> ts !! i = Some t ->
     performed (download_single_video j) tr t) ->
  List.filter is_post (concat trs) ⊆+ List.map attempt jobs ∧
  (forallb is_done ts = true -> List.filter is_post (concat trs) = List.map attempt jobs).
Proof.
  revert trs ts. induction jobs as [|j jobs IH]; intros trs ts Hl1 Hl2 Hperf.
  { destruct trs; [|discriminate]. by split. }
  destruct trs as [|tr trs]; [discriminate|]. destruct ts as [|t ts]; [discriminate|].
  simpl in Hl1, Hl2.
  destruct (IH trs ts ltac:(lia) ltac:(lia)) as [Hsub Heq].
  { intros i j' tr' t' Hj Htr Ht. exact (Hperf (S i) j' tr' t' Hj Htr Ht). }
  destruct (job_performed j tr t (Hperf 0%nat j tr t eq_refl eq_refl eq_refl)) as [Hor Hdone].
  simpl. rewrite List.filter_app. split.
  - destruct Hor as [->| ->]; simpl.
    + by apply submseteq_cons.
    + by apply submseteq_skip.
  - intros Hall. apply andb_true_iff in Hall as [Ht Hts].
    rewrite (Hdone Ht), (Heq Hts). reflexivity.
Qed.

(** In a pool of jobs, every request to the platform is the resolution
    request of one of the jobs, no job sends two, and when all jobs have
    finished each has sent its own. *)
Lemma pool_attempts (jobs : list job) (w : world) (st : state unit) :
  reachable (async_pool pool_limit (List.map download_single_video jobs) w) st ->
  exists new,
    trace (env st) = trace w ++ new ∧
    List.filter is_post new ⊆+ List.map attempt jobs ∧
    (all_done st = true -> List.filter is_post new ≡ₚ List.map attempt jobs).
Proof.
  intros Hr.
  destruct (reachable_traced _ w _ st (async_pool_traced pool_limit _ w) Hr)
    as (Hlen & trs & Hlt & Hperf & new & Hnew & Hperm).
  rewrite length_map in Hlen, Hlt.
  destruct (posts_of_jobs jobs trs (tasks st) Hlt Hlen) as [Hsub Heq].
  { intros i j tr t Hj Htr Ht. apply (Hperf i); [|exact Htr | exact Ht].
    change (List.map download_single_video jobs) with (download_single_video <$> jobs).
    by rewrite list_lookup_fmap, Hj. }
  exists new. split; [exact Hnew|].
  pose proof (Permutation_filter_bool is_post _ _ Hperm) as Hp. split.
  - by rewrite Hp.
  - intros Hall. rewrite Hp. by rewrite (Heq Hall).
Qed.

(** A fetch under [backoff] that returns has opened its destination. *)
Lemma backoff_fetch_opens u p retries delay w :
  (exec (backoff retries (download_loom_video u p) delay) w).1 = inr tt ->
  AOpenWB p ∈ emitted (backoff retries (download_loom_video u p) delay) w.
Proof.
  remember (Z.to_nat retries) as m eqn:Hm. revert retries Hm delay w.
  induction m as [m IH] using lt_wf_ind. intros retries Hm delay w.
  rewrite backoff_unfold, backoff_emitted.
  pose proof (download_loom_video_opens u p w) as Hopen.
  unfold after_failure.
  destruct (exec (download_loom_video u p) w) as [[e|[]] w1]; cbn [fst snd] in *.
  - destruct (decide _) as [[Hr _]|_]; [|discriminate].
    destruct (seconds_overflow delay); [discriminate|].
    intros H. apply elem_of_app. right. apply elem_of_cons. right.
    by apply (IH (Z.to_nat (retries - 1)) ltac:(lia) (retries - 1) eq_refl).
  - intros _. apply elem_of_app. left. by apply Hopen.
Qed.

(** Every file a job opens or writes, the log apart, is its destination;
    and a job whose resolution and fetch succeed has opened it. *)
Lemma job_saves_to_destination j w :
  Forall (saves_to (output_path j)) (emitted (download_single_video j) w) ∧
  ((exec (resolve_and_fetch j) w).1 = inr tt ->
   AOpenWB (output_path j) ∈ emitted (download_single_video j) w).
Proof.
  split.
  - apply only_emitted. rewrite download_single_video_eq.
    apply only_call; [exact I|]. intros x.
    apply job_after_post_only; try (intros; exact I).
    intros u. eapply only_weaken; [|apply download_loom_video_actions].
    intros [] H; simpl in *; try exact I; try contradiction; exact H.
  - rewrite resolve_and_fetch_outcome, job_emitted.
    destruct (exec (fetch_loom_download_url (video_id j)) w).1 as [e|u]; [discriminate|].
    cbn zeta. intros H. pose proof (backoff_fetch_opens u (output_path j) 5 1000 _ H) as Ho.
    apply elem_of_cons. right. apply elem_of_cons. right. apply elem_of_app. by left.
Qed.

(** ** The batch *)

Lemma pending_urls_filter content downloaded_set :
  pending_urls content downloaded_set =
  List.filter (fun u => negb (bool_decide (u ∈ downloaded_set))) (stripped_lines content).
Proof.
  unfold pending_urls, stripped_lines.
  induction (split LF content) as [|l ls IH]; [reflexivity|]. simpl.
  destruct (truthy (strip l)); simpl; [|exact IH].
  destruct (negb (bool_decide (strip l ∈ downloaded_set))); simpl; by rewrite IH.
Qed.

Lemma make_tasks_urls a output_directory log_file urls :
  List.map url (make_tasks a output_directory log_file urls) = urls.
Proof.
  unfold make_tasks.
  change (List.map url) with (fmap (M:=list) url).
  rewrite fmap_imap. simpl.
  induction urls as [|u urls IH]; [reflexivity|].
  rewrite imap_cons. simpl. f_equal. exact IH.
Qed.

Lemma make_tasks_elem a output_directory log_file urls j :
  j ∈ make_tasks a output_directory log_file urls ->
  video_id j = extract_id (url j) ∧ Dl.output_directory j = output_directory ∧
  prefix j = a_prefix a ∧ Dl.log_file j = log_file ∧ timeout j = a_timeout a ∧
  url j ∈ urls.
Proof.
  unfold make_tasks. intros Hj.
  apply list_elem_of_lookup in Hj as [i Hi].
  apply list_lookup_imap_Some in Hi as (u & Hu & ->). simpl.
  repeat split; try reflexivity. apply list_elem_of_lookup. by exists i.
Qed.

Lemma exec_download_from_list script_dir abspath a w l :
  a_list a = Some l ->
  is_Some (files w !! abspath l) ->
  files w !! batch_output_directory script_dir abspath a = None ->
  exists w',
    exec (download_from_list script_dir abspath a) w =
    (inr (make_tasks a (batch_output_directory script_dir abspath a)
            (batch_log_file script_dir)
            (List.filter (fun u => negb (bool_decide (u ∈ loaded_log w (batch_log_file script_dir))))
               (listed_urls w (abspath l)))), w').
Proof.
  intros Hl [disk Hdisk] Hout.
  unfold download_from_list. unmonad. rewrite exec_bind, exec_read_downloaded_log.
  rewrite Hl. unfold read_text. simpl. unfold handle. simpl. rewrite Hdisk. simpl.
  rewrite Hout. simpl. eexists. rewrite pending_urls_filter.
  unfold listed_urls, loaded_log, file_content. rewrite Hdisk. reflexivity.
Qed.

Lemma filter_split_length {X} (P : X -> bool) (l : list X) :
  (length (List.filter (fun x => negb (P x)) l) + length (List.filter P l) = length l)%nat.
Proof. induction l as [|x l IH]; [reflexivity|]. simpl. destruct (P x); simpl; lia. Qed.

Lemma NoDup_filter_bool {X} (P : X -> bool) (l : list X) : NoDup l -> NoDup (List.filter P l).
Proof.
  induction 1 as [|x l Hx Hl IH]; simpl; [constructor|].
  destruct (P x); [|exact IH]. constructor; [|exact IH].
  intros Hin. apply Hx. apply list_elem_of_In in Hin. apply filter_In in Hin as [Hin _].
  by apply list_elem_of_In.
Qed.

Lemma stripped_lines_nonblank u content : u ∈ stripped_lines content -> u ≠ [].
Proof.
  unfold stripped_lines. intros Hu.
  apply list_elem_of_In, in_map_iff in Hu as (line & <- & Hline).
  apply filter_In in Hline as [_ Ht]. by destruct (strip line).
Qed.

Lemma filter_elem_bool {X} (P : X -> bool) (l : list X) x :
  x ∈ List.filter P l <-> x ∈ l ∧ P x = true.
Proof. rewrite !list_elem_of_In. apply filter_In. Qed.

Lemma occurrences_map_url (u : str) (jobs : list job) :
  length (List.filter (fun j => bool_decide (url j = u)) jobs) =
  occurrences u (List.map url jobs).
Proof.
  unfold occurrences. induction jobs as [|j jobs IH]; [reflexivity|]. simpl.
  destruct (bool_decide (url j = u)); simpl; by rewrite IH.
Qed.

Lemma occurrences_filter (P : str -> bool) (u : str) (l : list str) :
  P u = true -> occurrences u (List.filter P l) = occurrences u l.
Proof.
  intros Hu. unfold occurrences. induction l as [|x l IH]; [reflexivity|]. simpl.
  destruct (P x) eqn:Hx; simpl.
  - destruct (bool_decide (x = u)); simpl; by rewrite IH.
  - rewrite IH. rewrite bool_decide_eq_false_2; [reflexivity|]. congruence.
Qed.

Lemma attempts_of_tasks a output_directory log_file urls :
  List.map attempt (make_tasks a output_directory log_file urls) =
  List.map (fun u => APost (transcoded_url (extract_id u))) urls.
Proof.
  unfold make_tasks.
  change (List.map attempt) with (fmap (M:=list) attempt).
  rewrite fmap_imap. simpl.
  induction urls as [|u urls IH]; [reflexivity|].
  rewrite imap_cons. simpl. f_equal. exact IH.
Qed.

Lemma download_from_list_pool_eq script_dir abspath a w jobs w' :
  exec (download_from_list script_dir abspath a) w = (inr jobs, w') ->
  download_from_list_pool script_dir abspath a w =
  inr (async_pool pool_limit (List.map download_single_video jobs) w').
Proof. intros H. unfold download_from_list_pool. by rewrite H. Qed.

(** C6. When the list file is there and the output directory can be
    made, and the non-blank lines of the list are N distinct URLs of which
    M are in the loaded log, [download_from_list] builds exactly N − M
    jobs: one for each URL that is not in the log, in the order of the
    list, none for a blank line and none for a logged URL. All of them are
    handed to [async_pool], and the run attempts exactly these: the pool
    holds N − M coroutines throughout, cannot stop while one of them is
    unfinished, and every run of it is finite; at every moment the
    requests sent to the platform since the pool started are resolution
    requests of pending URLs, at most one for each job; and when all jobs
    have finished there is exactly one for each, N − M in all, and the
    result, when it comes, has N − M entries. *)
Theorem batch_skips_logged_urls (script_dir : str) (abspath : str -> str)
    (a : args) (w : world) (l : str) (N M : nat)
    (Hl : a_list a = Some l)
    (Hfile : is_Some (files w !! abspath l))
    (Hout : files w !! batch_output_directory script_dir abspath a = None)
    (Hdistinct : NoDup (listed_urls w (abspath l)))
    (HN : length (listed_urls w (abspath l)) = N)
    (HM : length (List.filter
                    (fun u => bool_decide (u ∈ loaded_log w (batch_log_file script_dir)))
                    (listed_urls w (abspath l))) = M) :
  exists jobs w',
    exec (download_from_list script_dir abspath a) w = (inr jobs, w') ∧
    download_from_list_pool script_dir abspath a w =
      inr (async_pool pool_limit (List.map download_single_video jobs) w') ∧
    length jobs = (N - M)%nat ∧
    List.map url jobs =
      List.filter (fun u => negb (bool_decide (u ∈ loaded_log w (batch_log_file script_dir))))
                  (listed_urls w (abspath l)) ∧
    NoDup (List.map url jobs) ∧
    (forall j, j ∈ jobs ->
       (url j ≠ []) ∧ (url j ∉ loaded_log w (batch_log_file script_dir)) ∧
       (url j ∈ listed_urls w (abspath l))) ∧
    (forall st,
       reachable (async_pool pool_limit (List.map download_single_video jobs) w') st ->
       length (tasks st) = (N - M)%nat ∧
       (all_done st = false -> exists i st', fire i st = Some st') ∧
       (forall r, outcome st = Some r ->
          all_done st = true ∧ exists results, r = inr results ∧ length results = (N - M)%nat) ∧
       Acc (fun s2 s1 => step s1 s2) st ∧
       exists new,
         trace (env st) = trace w' ++ new ∧
         List.filter is_post new ⊆+
           List.map (fun u => APost (transcoded_url (extract_id u))) (List.map url jobs) ∧
         (all_done st = true ->
          List.filter is_post new ≡ₚ
            List.map (fun u => APost (transcoded_url (extract_id u))) (List.map url jobs) ∧
          length (List.filter is_post new) = (N - M)%nat)).
Proof.
  destruct (exec_download_from_list script_dir abspath a w l Hl Hfile Hout) as [w' Hexec].
  set (D := loaded_log w (batch_log_file script_dir)) in *.
  set (urls := listed_urls w (abspath l)) in *.
  set (jobs := make_tasks a _ _ _) in Hexec.
  assert (Hurls : List.map url jobs =
                  List.filter (fun u => negb (bool_decide (u ∈ D))) urls).
  { apply make_tasks_urls. }
  assert (Hlen : length jobs = (N - M)%nat).
  { rewrite <- (length_map url), Hurls.
    pose proof (filter_split_length (fun u => bool_decide (u ∈ D)) urls). lia. }
  assert (Hatt : List.map attempt jobs =
                 List.map (fun u => APost (transcoded_url (extract_id u))) (List.map url jobs)).
  { rewrite Hurls. apply attempts_of_tasks. }
  exists jobs, w'. split; [exact Hexec|].
  split; [by apply download_from_list_pool_eq|].
  split; [exact Hlen|]. split; [exact Hurls|].
  split; [rewrite Hurls; by apply NoDup_filter_bool|]. split.
  - intros j Hj.
    assert (Hin : url j ∈ List.map url jobs).
    { apply list_elem_of_In, in_map, list_elem_of_In, Hj. }
    rewrite Hurls in Hin. apply filter_elem_bool in Hin as [Hin Hnot].
    split; [by eapply stripped_lines_nonblank|]. split; [|exact Hin].
    apply negb_true_iff, bool_decide_eq_false in Hnot. exact Hnot.
  - intros st Hr.
    assert (Hinit : length (tasks st) = (N - M)%nat).
    { rewrite (reachable_length _ _ Hr). simpl. by rewrite !length_map. }
    assert (Hc : calm st).
    { eapply reachable_calm; [|exact Hr]. apply async_pool_calm.
      apply Forall_forall. intros p Hp.
      apply list_elem_of_In, in_map_iff in Hp as (j & <- & _).
      apply download_single_video_no_raise. }
    assert (Hb : balanced pool_limit st).
    { eapply reachable_balanced; [|exact Hr]. apply async_pool_balanced. }
    split; [exact Hinit|]. split.
    { apply (pool_progress pool_limit); [unfold pool_limit; lia | exact Hb]. }
    split.
    { intros r Ho. destruct (calm_outcome st r Hc Ho) as (Hd & vs & -> & Hvs).
      split; [exact Hd|]. exists vs. split; [reflexivity | congruence]. }
    split; [apply step_acc|].
    destruct (pool_attempts jobs w' st Hr) as (new & Hnew & Hsub & Hall).
    exists new. split; [exact Hnew|]. rewrite <- Hatt. split; [exact Hsub|].
    intros Hd. split; [by apply Hall|].
    rewrite (Permutation_length (Hall Hd)). by rewrite length_map.
Qed.

(** C10. Nothing merges duplicates within a run: a URL that occurs k > 1
    times among the non-blank lines and is not in the log gets k jobs in
    the pool of the run, and without a prefix every one of them has the
    destination [{identifier}.mp4] in the output directory and writes
    there: this is the only file it opens or writes besides the log, and
    each of the k jobs whose resolution and fetch succeed opens it for
    writing. *)
Theorem duplicates_are_not_merged (script_dir : str) (abspath : str -> str)
    (a : args) (w : world) (l u : str) (k : nat)
    (Hl : a_list a = Some l)
    (Hfile : is_Some (files w !! abspath l))
    (Hout : files w !! batch_output_directory script_dir abspath a = None)
    (Hk : occurrences u (listed_urls w (abspath l)) = k)
    (Hdup : (1 < k)%nat)
    (Hnew : u ∉ loaded_log w (batch_log_file script_dir)) :
  exists jobs w',
    exec (download_from_list script_dir abspath a) w = (inr jobs, w') ∧
    download_from_list_pool script_dir abspath a w =
      inr (async_pool pool_limit (List.map download_single_video jobs) w') ∧
    length (List.filter (fun j => bool_decide (url j = u)) jobs) = k ∧
    (truthy_opt (a_prefix a) = false ->
     forall j, j ∈ jobs -> url j = u ->
       let destination :=
         path_join (batch_output_directory script_dir abspath a) (extract_id u ++ lit ".mp4") in
       filename j = extract_id u ++ lit ".mp4" ∧
       output_path j = destination ∧
       (forall v, Forall (saves_to destination) (emitted (download_single_video j) v)) ∧
       (forall v, (exec (resolve_and_fetch j) v).1 = inr tt ->
          AOpenWB destination ∈ emitted (download_single_video j) v)).
Proof.
  destruct (exec_download_from_list script_dir abspath a w l Hl Hfile Hout) as [w' Hexec].
  eexists _, w'. split; [exact Hexec|].
  split; [by apply download_from_list_pool_eq|]. split.
  - rewrite occurrences_map_url, make_tasks_urls, occurrences_filter; [exact Hk|].
    by rewrite bool_decide_eq_false_2.
  - intros Hp j Hj Hu destination.
    apply make_tasks_elem in Hj as (Hid & Hdir & Hpre & _).
    assert (Hname : filename j = extract_id u ++ lit ".mp4").
    { unfold filename. rewrite Hpre, Hid, Hu.
      destruct (a_prefix a) as [p|]; [|reflexivity].
      simpl in Hp. by rewrite Hp. }
    assert (Hpath : output_path j = destination).
    { unfold output_path, destination. by rewrite Hname, Hdir. }
    split; [exact Hname|]. split; [exact Hpath|]. rewrite <- Hpath.
    split; intros v; apply job_saves_to_destination.
Qed.

Lemma batch_skips_logged_urls_witness :
  exists jobs w',
    download_from_list_pool Sample.script_dir Sample.abspath Sample.list_args
      (Sample.desk Sample.distinct_text)
    = inr (async_pool pool_limit (List.map download_single_video jobs) w') ∧
    List.map url jobs =
    [lit "https://www.loom.com/share/bbb?sid=1"; lit "https://www.loom.com/share/ccc"] ∧
    forall st,
      reachable (async_pool pool_limit (List.map download_single_video jobs) w') st ->
      all_done st = true ->
      exists new,
        trace (env st) = trace w' ++ new ∧
        List.filter is_post new ≡ₚ
          [APost (transcoded_url (lit "bbb")); APost (transcoded_url (lit "ccc"))].
Proof.
  destruct (batch_skips_logged_urls Sample.script_dir Sample.abspath Sample.list_args
              (Sample.desk Sample.distinct_text) (lit "urls.txt") 3 1)
    as (jobs & w' & _ & Hpool & _ & Hurls & _ & _ & Hrun).
  - reflexivity.
  - eexists. vm_compute. reflexivity.
  - vm_compute. reflexivity.
  - apply (bool_decide_unpack _). vm_compute. exact I.
  - vm_compute. reflexivity.
  - vm_compute. reflexivity.
  - assert (Hu : List.map url jobs =
                 [lit "https://www.loom.com/share/bbb?sid=1"; lit "https://www.loom.com/share/ccc"]).
    { rewrite Hurls. vm_compute. reflexivity. }
    exists jobs, w'. split; [exact Hpool|]. split; [exact Hu|].
    intros st Hr Hd. destruct (Hrun st Hr) as (_ & _ & _ & _ & new & Hnew & _ & Hall).
    exists new. split; [exact Hnew|]. destruct (Hall Hd) as [Hperm _].
    rewrite Hu in Hperm. exact Hperm.
Defined.

Lemma duplicates_are_not_merged_witness :
  exists jobs w',
    exec (download_from_list Sample.script_dir Sample.abspath Sample.list_args)
         (Sample.desk Sample.list_text) = (inr jobs, w') ∧
    length (List.filter
              (fun j => bool_decide (url j = lit "https://www.loom.com/share/bbb?sid=1")) jobs)
    = 2%nat ∧
    forall j, j ∈ jobs -> url j = lit "https://www.loom.com/share/bbb?sid=1" ->
      output_path j = lit "/s/Downloads/bbb.mp4" ∧
      forall v, (exec (resolve_and_fetch j) v).1 = inr tt ->
        AOpenWB (lit "/s/Downloads/bbb.mp4") ∈ emitted (download_single_video j) v.
Proof.
  destruct (duplicates_are_not_merged Sample.script_dir Sample.abspath Sample.list_args
              (Sample.desk Sample.list_text) (lit "urls.txt")
              (lit "https://www.loom.com/share/bbb?sid=1") 2)
    as (jobs & w' & Hexec & _ & Hcount & Hpath).
  - reflexivity.
  - eexists. vm_compute. reflexivity.
  - vm_compute. reflexivity.
  - vm_compute. reflexivity.
  - lia.
  - apply (bool_decide_unpack _). vm_compute. exact I.
  - exists jobs, w'. split; [exact Hexec|]. split; [exact Hcount|].
    intros j Hj Hu. destruct (Hpath eq_refl j Hj Hu) as (_ & Hp & _ & Hopen).
    split; [exact Hp | exact Hopen].
Defined.

(** * Further properties of dl.py *)

(** ** extract_id *)

Lemma index_first_split sep a b :
  sep ∉ a -> index_first (split sep (a ++ sep :: b)) = Some a.
Proof. intros Ha. by rewrite split_app_sep, (split_no_sep sep a Ha). Qed.

Lemma index_last_snoc {X} (l : list X) x : index_last (l ++ [x]) = Some x.
Proof. unfold index_last. by rewrite rev_unit. Qed.

Lemma index_last_split sep a b :
  sep ∉ b -> index_last (split sep (a ++ sep :: b)) = Some b.
Proof.
  intros Hb. rewrite split_app_sep, (split_no_sep sep b Hb). apply index_last_snoc.
Qed.

(** The pieces of a split are pieces of the string, without the separator. *)
Lemma split_pieces sep s piece :
  piece ∈ split sep s -> (sep ∉ piece) ∧ forall c, c ∈ piece -> c ∈ s.
Proof.
  revert piece. induction s as [|c s IH]; intros piece Hp; simpl in Hp.
  { apply list_elem_of_singleton in Hp as ->. split; [apply not_elem_of_nil | auto]. }
  destruct (N.eqb_spec c sep) as [->|Hne].
  - apply elem_of_cons in Hp as [->|Hp].
    + split; [apply not_elem_of_nil | intros ? H; by apply elem_of_nil in H].
    + destruct (IH _ Hp) as [H1 H2]. split; [exact H1|].
      intros d Hd. apply elem_of_cons. right. by apply H2.
  - destruct (split sep s) as [|w ws] eqn:Hs.
    + apply list_elem_of_singleton in Hp as ->.
      destruct (split_nonempty sep s) as (? & ? & Hs'). congruence.
    + apply elem_of_cons in Hp as [->|Hp].
      * destruct (IH w (list_elem_of_here _ _)) as [H1 H2]. split.
        -- apply not_elem_of_cons. split; [congruence | exact H1].
        -- intros d Hd. apply elem_of_cons in Hd as [->|Hd];
             [apply list_elem_of_here | apply elem_of_cons; right; by apply H2].
      * destruct (IH piece (list_elem_of_further _ _ _ Hp)) as [H1 H2].
        split; [exact H1|]. intros d Hd. apply elem_of_cons. right. by apply H2.
Qed.

Lemma index_first_elem {X} (l : list X) x : index_first l = Some x -> x ∈ l.
Proof. destruct l; [discriminate|]. intros [= ->]. apply list_elem_of_here. Qed.

Lemma index_last_elem {X} (l : list X) x : index_last l = Some x -> x ∈ l.
Proof.
  unfold index_last. intros H. apply index_first_elem in H.
  by apply list_elem_of_In, in_rev, list_elem_of_In.
Qed.

Lemma extract_id_pieces url :
  exists head,
    head ∈ split QMARK url ∧ extract_id url ∈ split SLASH head.
Proof.
  unfold extract_id.
  destruct (split_nonempty QMARK url) as (h & hs & Hq). rewrite Hq. simpl.
  exists h. split; [apply list_elem_of_here|].
  destruct (index_last (split SLASH h)) as [x|] eqn:Hl.
  - simpl. by apply index_last_elem.
  - unfold index_last in Hl. destruct (split_nonempty SLASH h) as (w & ws & Hs).
    rewrite Hs in Hl. simpl in Hl. by destruct (List.rev ws).
Qed.

Lemma extract_id_parts (base id query : str) :
  QMARK ∉ base -> SLASH ∉ id -> QMARK ∉ id ->
  extract_id (base ++ SLASH :: id ++ QMARK :: query) = id ∧
  extract_id (base ++ SLASH :: id) = id.
Proof.
  intros Hbase Hslash Hq.
  assert (Hhead : QMARK ∉ base ++ SLASH :: id).
  { apply not_elem_of_app. split; [exact Hbase|].
    apply not_elem_of_cons. split; [discriminate | exact Hq]. }
  unfold extract_id. split.
  - replace (base ++ SLASH :: id ++ QMARK :: query)
      with ((base ++ SLASH :: id) ++ QMARK :: query) by (by rewrite <- app_assoc).
    rewrite (index_first_split QMARK _ _ Hhead). simpl.
    by rewrite (index_last_split SLASH base id Hslash).
  - rewrite (split_no_sep QMARK _ Hhead). simpl.
    by rewrite (index_last_split SLASH base id Hslash).
Qed.

(** X1. The identifier of [base/ID?query] and of [base/ID] is [ID], when
    [ID] has no slash and no question mark and [base] has no question
    mark. *)
Theorem extract_id_of_share_url (base id query : str)
    (Hbase : QMARK ∉ base) (Hslash : SLASH ∉ id) (Hq : QMARK ∉ id) :
  extract_id (base ++ SLASH :: id ++ QMARK :: query) = id ∧
  extract_id (base ++ SLASH :: id) = id.
Proof. by apply extract_id_parts. Qed.

Lemma extract_id_of_share_url_witness :
  extract_id (lit "https://www.loom.com/share/abc123?sid=9&t=/x") = lit "abc123" ∧
  extract_id (lit "https://www.loom.com/share/abc123") = lit "abc123".
Proof.
  apply (extract_id_of_share_url (lit "https://www.loom.com/share") (lit "abc123")
           (lit "sid=9&t=/x"));
    apply (bool_decide_unpack _); vm_compute; exact I.
Defined.

(** X2. Whatever the URL, the identifier contains no slash and no question
    mark, consists of characters of the URL, and extracting again changes
    nothing. *)
Theorem extract_id_is_a_segment (url : str) :
  (SLASH ∉ extract_id url) ∧ (QMARK ∉ extract_id url) ∧
  (forall c, c ∈ extract_id url -> c ∈ url) ∧
  extract_id (extract_id url) = extract_id url.
Proof.
  destruct (extract_id_pieces url) as (head & Hhead & Hid).
  destruct (split_pieces QMARK url head Hhead) as [Hq Hsub].
  destruct (split_pieces SLASH head _ Hid) as [Hs Hsub'].
  assert (Hq' : QMARK ∉ extract_id url) by (intros H; apply Hq, Hsub', H).
  split; [exact Hs|]. split; [exact Hq'|]. split; [intros c Hc; auto|].
  unfold extract_id at 1. rewrite (split_no_sep QMARK _ Hq'). simpl.
  by rewrite (split_no_sep SLASH _ Hs).
Qed.

(** X3. A URL that ends with a slash, before its query if it has one, has
    the empty identifier, and so has a URL that starts with its query:
    nothing is raised and nothing is repaired. *)
Theorem extract_id_trailing_slash (base query : str) (Hbase : QMARK ∉ base) :
  extract_id (base ++ [SLASH]) = [] ∧
  extract_id (base ++ SLASH :: QMARK :: query) = [] ∧
  extract_id (QMARK :: query) = [].
Proof.
  assert (Hnil : SLASH ∉ @nil N) by apply not_elem_of_nil.
  assert (Hqnil : QMARK ∉ @nil N) by apply not_elem_of_nil.
  split; [|split].
  - apply (extract_id_parts base [] [] Hbase Hnil Hqnil).
  - apply (extract_id_parts base [] query Hbase Hnil Hqnil).
  - unfold extract_id. simpl. reflexivity.
Qed.

Lemma extract_id_trailing_slash_witness :
  extract_id (lit "https://www.loom.com/share/abc/") = [].
Proof.
  apply (extract_id_trailing_slash (lit "https://www.loom.com/share/abc") []).
  apply (bool_decide_unpack _). vm_compute. exact I.
Defined.

(** ** fetch_loom_download_url *)

(** X4. A resolution is one POST to the transcoded-url endpoint of the
    identifier and nothing else, whatever the answer. It succeeds only on
    status 200 exactly (201 or 204 fail like 404) and then returns the
    [url] member of the body; any other status raises with that status, and
    a body without [url] raises [KeyError]. *)
Theorem resolution_is_one_request (video_id : str) (w : world) (resp : post_response)
    (Hresp : net_post w (requests w) (transcoded_url video_id) = inr resp) :
  emitted (fetch_loom_download_url video_id) w = [APost (transcoded_url video_id)] ∧
  requests (exec (fetch_loom_download_url video_id) w).2 = S (requests w) ∧
  files (exec (fetch_loom_download_url video_id) w).2 = files w ∧
  (post_status resp ≠ 200 ->
   (exec (fetch_loom_download_url video_id) w).1 = inl (FetchUrlFailed (post_status resp))) ∧
  (forall v, (exec (fetch_loom_download_url video_id) w).1 = inr v ->
     post_status resp = 200 ∧
     exists items, post_json resp = inr (PDict items) ∧ dict_get items (lit "url") = Some v) ∧
  (forall items, post_status resp = 200 -> post_json resp = inr (PDict items) ->
     (exec (fetch_loom_download_url video_id) w).1 =
     match dict_get items (lit "url") with
     | Some v => inr v
     | None => inl (KeyError (lit "url"))
     end).
Proof.
  unfold fetch_loom_download_url, post. unmonad. simpl.
  rewrite emitted_vis. unfold handle. simpl. rewrite Hresp. simpl.
  destruct (post_status resp =? 200) eqn:Hs; simpl.
  - apply Z.eqb_eq in Hs.
    destruct (post_json resp) as [e|[s|items|]] eqn:Hj; simpl;
      try (rewrite emitted_raise; repeat split; auto; try congruence;
           intros; discriminate).
    destruct (dict_get items (lit "url")) as [v|] eqn:Hg; simpl.
    + rewrite emitted_ret. repeat split; auto; try congruence.
      * injection H as <-. by exists items.
      * intros items' _ [= <-]. by rewrite Hg.
    + rewrite emitted_raise. repeat split; auto; try congruence;
        try (intros; discriminate).
      intros items' _ [= <-]. by rewrite Hg.
  - apply Z.eqb_neq in Hs. rewrite emitted_raise.
    repeat split; auto; try congruence; intros; discriminate.
Qed.

Lemma resolution_is_one_request_witness :
  (exec (fetch_loom_download_url (lit "abc"))
        (Sample.machine (fun _ _ => inr {| post_status := 201; post_json := inr POther |})
                        (fun _ _ => Sample.body 200 []))).1
  = inl (FetchUrlFailed 201).
Proof.
  apply (resolution_is_one_request (lit "abc")
           (Sample.machine (fun _ _ => inr {| post_status := 201; post_json := inr POther |})
                           (fun _ _ => Sample.body 200 []))
           {| post_status := 201; post_json := inr POther |} eq_refl).
  simpl. lia.
Defined.

(** ** More on backoff *)

Lemma backoff_count_le {A} (P : action -> bool) (fn : prog A) (n : nat) :
  (forall w, (length (List.filter P (emitted fn w)) ≤ n)%nat) ->
  (forall d, P (ASleep d) = false) ->
  forall retries delay w,
    (length (List.filter P (emitted (backoff retries fn delay) w))
     ≤ n * Z.to_nat (Z.max 1 retries))%nat.
Proof.
  intros Hfn Hs retries.
  remember (Z.to_nat retries) as m eqn:Hm. revert retries Hm.
  induction m as [m IH] using lt_wf_ind. intros retries Hm delay w.
  rewrite backoff_emitted, List.filter_app, length_app.
  pose proof (Hfn w) as H1.
  destruct (exec fn w).1 as [e|v]; [|simpl; nia].
  destruct (decide _) as [[Hr _]|_]; [|simpl; nia].
  destruct (seconds_overflow delay); [simpl; nia|].
  simpl. rewrite Hs.
  pose proof (IH (Z.to_nat (retries - 1)) ltac:(lia) (retries - 1) eq_refl
                 (delay * 2) (after_failure fn delay w)) as H2.
  replace (Z.to_nat (Z.max 1 retries)) with (S (Z.to_nat (Z.max 1 (retries - 1)))) by lia.
  nia.
Qed.

Lemma backoff_sleeps_le {A} (fn : prog A) :
  only (fun a => is_sleep a = false) fn ->
  forall retries delay w,
    (length (List.filter is_sleep (emitted (backoff retries fn delay) w))
     ≤ Z.to_nat (retries - 1))%nat.
Proof.
  intros Hfn retries.
  remember (Z.to_nat retries) as m eqn:Hm. revert retries Hm.
  induction m as [m IH] using lt_wf_ind. intros retries Hm delay w.
  rewrite backoff_emitted, List.filter_app, length_app, (quiet_emitted _ _ _ Hfn).
  destruct (exec fn w).1 as [e|v]; [|simpl; lia].
  destruct (decide _) as [[Hr _]|_]; [|simpl; lia].
  destruct (seconds_overflow delay); [simpl; lia|].
  simpl.
  pose proof (IH (Z.to_nat (retries - 1)) ltac:(lia) (retries - 1) eq_refl
                 (delay * 2) (after_failure fn delay w)) as H2.
  lia.
Qed.

(** X5. For an operation that does not sleep itself, and however the
    world answers, [backoff(retries, fn, delay)] sleeps at most
    [retries - 1] times, so it
    attempts the operation at most [retries] times (once when [retries] is
    1 or less). *)
Theorem backoff_attempts_bounded {A} (fn : prog A) (retries delay : Z) (w : world)
    (Hquiet : only (fun a => is_sleep a = false) fn) :
  (length (List.filter is_sleep (emitted (backoff retries fn delay) w))
   ≤ Z.to_nat (retries - 1))%nat.
Proof. by apply backoff_sleeps_le. Qed.

Lemma backoff_attempts_bounded_witness :
  (length (List.filter is_sleep (emitted (backoff 3 Sample.failing 1000) (Sample.remote [])))
   ≤ 2)%nat.
Proof.
  apply (backoff_attempts_bounded Sample.failing 3 1000 (Sample.remote [])).
  unfold Sample.failing, print. unmonad. simpl.
  apply only_call; [reflexivity | intros; constructor].
Defined.

(** X6. With [retries <= 1] (zero and negative numbers included) or with a
    delay above 32000 ms, [backoff] is the operation itself: one attempt,
    no sleep, the outcome of that attempt. *)
Theorem backoff_without_retry {A} (fn : prog A) (retries delay : Z) (w : world)
    (Hedge : retries ≤ 1 ∨ 32000 < delay) :
  exec (backoff retries fn delay) w = exec fn w ∧
  emitted (backoff retries fn delay) w = emitted fn w.
Proof. by apply backoff_edge. Qed.

Lemma backoff_without_retry_witness :
  emitted (backoff 0 Sample.failing 1000) (Sample.remote []) = [APrint MsgWaiting5] ∧
  emitted (backoff 5 Sample.failing 32001) (Sample.remote []) = [APrint MsgWaiting5].
Proof.
  destruct (backoff_without_retry Sample.failing 0 1000 (Sample.remote [])) as [_ H1];
    [left; lia|].
  destruct (backoff_without_retry Sample.failing 5 32001 (Sample.remote [])) as [_ H2];
    [right; lia|].
  rewrite H1, H2. split; reflexivity.
Defined.

Lemma sleeps_of_failed_step {A} (fn : prog A) (retries delay : Z) (w : world) :
  always_fails fn -> only (fun a => is_sleep a = false) fn ->
  retries > 1 -> 0 ≤ delay ≤ 32000 ->
  List.filter is_sleep (emitted (backoff retries fn delay) w) =
  ASleep delay ::
  List.filter is_sleep (emitted (backoff (retries - 1) fn (delay * 2)) (after_failure fn delay w)).
Proof.
  intros Hfail Hq Hr Hd.
  rewrite (proj2 (backoff_fail_step fn retries delay w (Hfail w) Hr (proj2 Hd)
                    (seconds_overflow_small delay ltac:(lia)))).
  by rewrite List.filter_app, (quiet_emitted _ _ _ Hq).
Qed.

(** X7. The ceiling on the delay also caps the attempts. With the initial
    delay of 1000 ms and an operation that always fails, [backoff] stops
    after the sleep of 32000 ms, because the next delay would be 64000:
    seven attempts and six sleeps, of 63 seconds in all, however large
    [retries] is. *)
Theorem backoff_ceiling_caps_attempts {A} (fn : prog A) (retries : Z) (w : world)
    (Hfail : always_fails fn)
    (Hquiet : only (fun a => is_sleep a = false) fn)
    (Hmany : 7 ≤ retries) :
  exec (backoff retries fn 1000) w = exec (backoff 7 fn 1000) w ∧
  List.filter is_sleep (emitted (backoff retries fn 1000) w) =
    [ASleep 1000; ASleep 2000; ASleep 4000; ASleep 8000; ASleep 16000; ASleep 32000].
Proof.
  assert (Hgo : forall r, 7 ≤ r ->
            exec (backoff r fn 1000) w =
              exec fn (after_failure fn 32000 (after_failure fn 16000 (after_failure fn 8000
                (after_failure fn 4000 (after_failure fn 2000 (after_failure fn 1000 w))))))).
  { intros r Hr.
    assert (Hstep : forall r' d v, r' > 1 -> 0 ≤ d ≤ 32000 ->
              exec (backoff r' fn d) v =
              exec (backoff (r' - 1) fn (d * 2)) (after_failure fn d v)).
    { intros r' d v Hr' Hd.
      apply (backoff_fail_step fn r' d v (Hfail v) Hr' (proj2 Hd)),
        seconds_overflow_small. lia. }
    rewrite (Hstep r 1000) by lia.
    rewrite (Hstep (r - 1) (1000 * 2)) by lia.
    rewrite (Hstep (r - 1 - 1) (1000 * 2 * 2)) by lia.
    rewrite (Hstep (r - 1 - 1 - 1) (1000 * 2 * 2 * 2)) by lia.
    rewrite (Hstep (r - 1 - 1 - 1 - 1) (1000 * 2 * 2 * 2 * 2)) by lia.
    rewrite (Hstep (r - 1 - 1 - 1 - 1 - 1) (1000 * 2 * 2 * 2 * 2 * 2)) by lia.
    apply backoff_edge. right. lia. }
  split; [by rewrite (Hgo retries Hmany), (Hgo 7 ltac:(lia))|].
  rewrite (sleeps_of_failed_step fn retries 1000 _ Hfail Hquiet ltac:(lia) ltac:(lia)).
  rewrite (sleeps_of_failed_step fn (retries - 1) (1000 * 2) _ Hfail Hquiet
             ltac:(lia) ltac:(lia)).
  rewrite (sleeps_of_failed_step fn (retries - 1 - 1) (1000 * 2 * 2) _ Hfail Hquiet
             ltac:(lia) ltac:(lia)).
  rewrite (sleeps_of_failed_step fn (retries - 1 - 1 - 1) (1000 * 2 * 2 * 2) _ Hfail Hquiet
             ltac:(lia) ltac:(lia)).
  rewrite (sleeps_of_failed_step fn (retries - 1 - 1 - 1 - 1) (1000 * 2 * 2 * 2 * 2) _
             Hfail Hquiet ltac:(lia) ltac:(lia)).
  rewrite (sleeps_of_failed_step fn (retries - 1 - 1 - 1 - 1 - 1) (1000 * 2 * 2 * 2 * 2 * 2) _
             Hfail Hquiet ltac:(lia) ltac:(lia)).
  match goal with
  | |- context [emitted (backoff ?r fn ?d) ?v] =>
      destruct (backoff_edge fn r d v) as [_ ->]; [right; lia|]
  end.
  by rewrite (quiet_emitted _ _ _ Hquiet).
Qed.

Lemma backoff_ceiling_caps_attempts_witness :
  length (List.filter is_sleep (emitted (backoff 100 Sample.failing 1000) (Sample.remote [])))
  = 6%nat.
Proof.
  assert (Hfail : always_fails Sample.failing).
  { intros w. exists Forbidden. reflexivity. }
  assert (Hquiet : only (fun a => is_sleep a = false) Sample.failing).
  { unfold Sample.failing, print. unmonad. simpl.
    apply only_call; [reflexivity | intros; constructor]. }
  destruct (backoff_ceiling_caps_attempts Sample.failing 100 (Sample.remote [])
              Hfail Hquiet ltac:(lia)) as [_ ->].
  reflexivity.
Defined.

(** ** More on one job *)

(** X8. A failure of the resolution is not retried: the job's only other
    action is the report; it performs no fetch and no sleep and returns
    normally. *)
Theorem resolution_failure_ends_job (j : job) (w : world) (e : exn)
    (Hres : (exec (fetch_loom_download_url (video_id j)) w).1 = inl e) :
  emitted (download_single_video j) w =
    [APost (transcoded_url (video_id j)); APrint (MsgFailed (video_id j) e)] ∧
  (exec (download_single_video j) w).1 = inr tt.
Proof.
  split; [|apply download_single_video_returns].
  by rewrite job_emitted, Hres.
Qed.

Lemma resolution_failure_ends_job_witness :
  emitted (download_single_video (Sample.a_job None))
    (Sample.machine (fun _ _ => inr {| post_status := 404; post_json := inr POther |})
                    (fun _ _ => Sample.body 200 []))
  = [APost (transcoded_url (lit "abc")); APrint (MsgFailed (lit "abc") (FetchUrlFailed 404))].
Proof.
  apply (resolution_failure_ends_job (Sample.a_job None)
           (Sample.machine (fun _ _ => inr {| post_status := 404; post_json := inr POther |})
                           (fun _ _ => Sample.body 200 []))
           (FetchUrlFailed 404) eq_refl).
Defined.

(** X9. A job is bounded, whatever the remote answers: one resolution
    request, at most five fetch requests, at most five sleeps (four
    between the attempts and the pause), and at most one line added to the
    log. *)
Theorem job_is_bounded (j : job) (w : world) :
  length (List.filter is_post (emitted (download_single_video j) w)) = 1%nat ∧
  (length (List.filter is_get (emitted (download_single_video j) w)) ≤ 5)%nat ∧
  (length (List.filter is_sleep (emitted (download_single_video j) w)) ≤ 5)%nat ∧
  (length (List.filter is_append (emitted (download_single_video j) w)) ≤ 1)%nat.
Proof.
  rewrite job_emitted.
  destruct (exec (fetch_loom_download_url (video_id j)) w).1 as [e|u]; cbn zeta.
  { simpl. repeat split; lia. }
  set (fn := download_loom_video u (output_path j)).
  set (w2 := log_action _ _).
  assert (Hsleep : only (fun a => is_sleep a = false) fn).
  { eapply only_weaken; [|apply download_loom_video_actions].
    intros [] H; try reflexivity; destruct H. }
  pose proof (backoff_sleeps_le fn Hsleep 5 1000 w2) as Hs.
  pose proof (backoff_count_le is_get fn 1
                (fun v => eq_ind_r (fun n => (n ≤ 1)%nat) (le_n 1)
                            (download_loom_video_one_get u (output_path j) v))
                (fun _ => eq_refl) 5 1000 w2) as Hg.
  assert (Hpost : List.filter is_post (emitted (backoff 5 fn 1000) w2) = []).
  { apply quiet_emitted, only_backoff; [|reflexivity].
    eapply only_weaken; [|apply download_loom_video_actions].
    intros [] H; try reflexivity; destruct H. }
  assert (Happ : List.filter is_append (emitted (backoff 5 fn 1000) w2) = []).
  { apply quiet_emitted, only_backoff; [|reflexivity].
    eapply only_weaken; [|apply download_loom_video_actions].
    intros [] H; try reflexivity; destruct H. }
  cbn [List.filter is_post is_get is_sleep is_append].
  rewrite !List.filter_app, Hpost, Happ.
  change (Z.to_nat (5 - 1)) with 4%nat in Hs.
  change (1 * Z.to_nat (1 `max` 5))%nat with 5%nat in Hg.
  destruct (exec (backoff 5 fn 1000) w2).1 as [e|[]];
    [|destruct (pause_overflows (timeout j))];
    cbn [List.filter is_post is_get is_sleep is_append app];
    rewrite ?app_nil_r, ?length_app; cbn [length]; repeat split; lia.
Qed.

(** *** Which files a run touches *)

Lemma react_os a w : os (react a w).2 = os w.
Proof. destruct a; simpl; try reflexivity; repeat (case_match; simpl; try reflexivity). Qed.

Lemma exec_os {A} (p : prog A) w : os (exec p w).2 = os w.
Proof.
  revert w. induction p as [v|e|a k IH]; intros w; simpl; try reflexivity.
  pose proof (react_os a (log_action a w)) as H. unfold handle.
  destruct (react a (log_action a w)) as [x w']. rewrite IH. exact H.
Qed.

Lemma react_frame p q a w :
  writes_only p a -> q ≠ p -> files (react a w).2 !! q = files w !! q.
Proof.
  intros Ha Hq.
  destruct a; simpl in *; try reflexivity;
    repeat (case_match; simpl; try reflexivity);
    subst; by rewrite lookup_insert_ne.
Qed.

Lemma react_no_write a w : writes_nothing a -> files (react a w).2 = files w.
Proof.
  intros Ha. destruct a; simpl in *; try reflexivity; try contradiction;
    repeat (case_match; simpl; try reflexivity).
Qed.

Lemma exec_frame {A} p q (prog : prog A) w :
  only (writes_only p) prog -> q ≠ p -> files (exec prog w).2 !! q = files w !! q.
Proof.
  intros H Hq. revert w. induction H as [v|e|a k Ha _ IH]; intros w; simpl; try reflexivity.
  pose proof (react_frame p q a (log_action a w) Ha Hq) as Hr. unfold handle.
  destruct (react a (log_action a w)) as [x w']. rewrite IH. exact Hr.
Qed.

Lemma exec_no_write {A} (prog : prog A) w :
  only writes_nothing prog -> files (exec prog w).2 = files w.
Proof.
  intros H. revert w. induction H as [v|e|a k Ha _ IH]; intros w; simpl; try reflexivity.
  pose proof (react_no_write a (log_action a w) Ha) as Hr. unfold handle.
  destruct (react a (log_action a w)) as [x w']. rewrite IH. exact Hr.
Qed.

Lemma fetch_loom_download_url_no_write video_id :
  only writes_nothing (fetch_loom_download_url video_id).
Proof.
  unfold fetch_loom_download_url, post. unmonad. simpl.
  apply only_call; [exact I|]. intros x.
  apply only_bind; [apply only_lift|]. intros resp.
  destruct (negb _); [constructor|].
  apply only_bind; [apply only_lift|]. intros data.
  destruct data as [s|items|]; simpl; try constructor.
  destruct (dict_get _ _); constructor.
Qed.

Lemma print_no_write m : only writes_nothing (print m).
Proof. apply only_call; [exact I | intros; constructor]. Qed.

Lemma pace_no_write timeout : only writes_nothing (pace timeout).
Proof. apply only_pace; intros; exact I. Qed.

Lemma backoff_fetch_writes_destination u output_path retries delay :
  only (writes_only output_path) (backoff retries (download_loom_video u output_path) delay).
Proof.
  apply only_backoff; [|intros; exact I].
  eapply only_weaken; [|apply download_loom_video_actions].
  intros [] H; simpl in *; try exact I; try contradiction; exact H.
Qed.

(** The files after a job, by the outcome of its resolution and fetch. *)
Lemma job_files j w q :
  q ≠ output_path j ->
  files (exec (download_single_video j) w).2 !! q =
  match (exec (resolve_and_fetch j) w).1 with
  | inl _ => files w !! q
  | inr _ =>
      if decide (q = log_file j)
      then Some (file_content w q ++ write_newlines (os w) (url j ++ [LF]))
      else files w !! q
  end.
Proof.
  intros Hq. unfold download_single_video. rewrite exec_try_catch.
  assert (Htry :
    files (exec (download_single_video_try j) w).2 !! q =
    match (exec (resolve_and_fetch j) w).1 with
    | inl _ => files w !! q
    | inr _ =>
        if decide (q = log_file j)
        then Some (file_content w q ++ write_newlines (os w) (url j ++ [LF]))
        else files w !! q
    end).
  { rewrite resolve_and_fetch_outcome.
    unfold download_single_video_try. unmonad. rewrite exec_bind.
    pose proof (exec_no_write _ w (fetch_loom_download_url_no_write (video_id j))) as Hf.
    pose proof (exec_os (fetch_loom_download_url (video_id j)) w) as Ho.
    destruct (exec (fetch_loom_download_url (video_id j)) w) as [[e|u] w1];
      cbn [fst snd] in *; [by rewrite Hf|].
    rewrite exec_bind, exec_print, exec_bind.
    set (w2 := log_action _ w1).
    pose proof (exec_frame (output_path j) q _ w2
                  (backoff_fetch_writes_destination u (output_path j) 5 1000) Hq) as Hb.
    pose proof (exec_os (backoff 5 (download_loom_video u (output_path j)) 1000) w2) as Ho2.
    destruct (exec (backoff 5 _ 1000) w2) as [[e|[]] w3]; cbn [fst snd] in *.
    { rewrite Hb. simpl. by rewrite Hf. }
    rewrite exec_bind, exec_append_to_log_file.
    rewrite (exec_no_write _ _ (pace_no_write (timeout j))). simpl.
    assert (Hsame : files w3 !! q = files w !! q) by (rewrite Hb; simpl; by rewrite Hf).
    destruct (decide (q = log_file j)) as [->|Hne].
    - rewrite lookup_insert_eq. unfold file_content. rewrite Hsame, Ho2. simpl.
      by rewrite Ho.
    - rewrite lookup_insert_ne by congruence. exact Hsame. }
  destruct (exec (download_single_video_try j) w) as [[e|[]] w']; cbn [fst snd] in *.
  - rewrite exec_print. simpl. exact Htry.
  - exact Htry.
Qed.

(** The [try] block fails with the resolution and the fetch, and after
    them only in the division of the pause. *)
Lemma try_after_fetch j w :
  (exec (download_single_video_try j) w).1 =
  match (exec (resolve_and_fetch j) w).1 with
  | inl e => inl e
  | inr _ => if pause_overflows (timeout j) then inl OverflowError else inr tt
  end.
Proof.
  rewrite job_outcome, resolve_and_fetch_outcome.
  destruct (exec (fetch_loom_download_url (video_id j)) w).1 as [e|u]; [reflexivity|].
  cbn zeta. destruct (exec (backoff 5 _ 1000) _).1 as [e|[]]; reflexivity.
Qed.

(** X10. The log records the fetches that succeeded, and nothing else.
    When the resolution or the fetch fails (after the retries), the body
    fails and the job leaves every file but its destination as it was, the
    log included. When both succeed, the job adds exactly the line of its
    URL to the log and changes no third file; the body then fails only if
    [timeout/1000] overflows in the pause, and in that case the job
    reports a failure although the line is written. *)
Theorem log_records_success_only (j : job) (w : world) (q : str)
    (Hlog : log_file j ≠ output_path j) (Hq : q ≠ output_path j) :
  match (exec (resolve_and_fetch j) w).1 with
  | inl e =>
      (exec (download_single_video_try j) w).1 = inl e ∧
      files (exec (download_single_video j) w).2 !! log_file j = files w !! log_file j ∧
      files (exec (download_single_video j) w).2 !! q = files w !! q
  | inr _ =>
      (exec (download_single_video_try j) w).1 =
        (if pause_overflows (timeout j) then inl OverflowError else inr tt) ∧
      files (exec (download_single_video j) w).2 !! log_file j =
        Some (file_content w (log_file j) ++ write_newlines (os w) (url j ++ [LF])) ∧
      (q ≠ log_file j -> files (exec (download_single_video j) w).2 !! q = files w !! q)
  end.
Proof.
  pose proof (job_files j w (log_file j) Hlog) as H1.
  pose proof (job_files j w q Hq) as H2.
  pose proof (try_after_fetch j w) as H3.
  destruct (exec (resolve_and_fetch j) w).1 as [e|[]].
  - by split.
  - split; [exact H3|]. split.
    + rewrite H1. by rewrite decide_True.
    + intros Hne. rewrite H2. by rewrite decide_False.
Qed.

Lemma log_records_success_only_witness :
  files (exec (download_single_video (Sample.a_job None))
              (Sample.remote [403; 403; 403; 403; 403])).2 !! lit "/s/downloaded.log" = None ∧
  files (exec (download_single_video (Sample.a_job None)) (Sample.remote [403])).2
    !! lit "/s/downloaded.log" = Some (lit "https://www.loom.com/share/abc" ++ [LF]) ∧
  (exec (download_single_video_try (Sample.a_job (Some Sample.huge_timeout))) (Sample.remote [])).1
    = inl OverflowError ∧
  files (exec (download_single_video (Sample.a_job (Some Sample.huge_timeout))) (Sample.remote [])).2
    !! lit "/s/downloaded.log" = Some (lit "https://www.loom.com/share/abc" ++ [LF]).
Proof.
  assert (Hlog : forall t, log_file (Sample.a_job t) ≠ output_path (Sample.a_job t))
    by discriminate.
  assert (Hq : forall t, lit "/s/downloaded.log" ≠ output_path (Sample.a_job t))
    by discriminate.
  pose proof (log_records_success_only (Sample.a_job None)
                (Sample.remote [403; 403; 403; 403; 403]) (lit "/s/downloaded.log")
                (Hlog _) (Hq _)) as H5.
  pose proof (log_records_success_only (Sample.a_job None) (Sample.remote [403])
                (lit "/s/downloaded.log") (Hlog _) (Hq _)) as H1.
  pose proof (log_records_success_only (Sample.a_job (Some Sample.huge_timeout)) (Sample.remote [])
                (lit "/s/downloaded.log") (Hlog _) (Hq _)) as H0.
  replace (exec (resolve_and_fetch (Sample.a_job None))
                (Sample.remote [403; 403; 403; 403; 403])).1
    with (@inl exn unit Forbidden) in H5 by (vm_compute; reflexivity).
  replace (exec (resolve_and_fetch (Sample.a_job None)) (Sample.remote [403])).1
    with (@inr exn unit tt) in H1 by (vm_compute; reflexivity).
  replace (exec (resolve_and_fetch (Sample.a_job (Some Sample.huge_timeout))) (Sample.remote [])).1
    with (@inr exn unit tt) in H0 by (vm_compute; reflexivity).
  destruct H5 as (_ & H5 & _). destruct H1 as (_ & H1 & _). destruct H0 as (H0 & H0' & _).
  split; [etransitivity; [exact H5 | vm_compute; reflexivity]|].
  split; [etransitivity; [exact H1 | vm_compute; reflexivity]|].
  split; [etransitivity; [exact H0 | vm_compute; reflexivity]|].
  etransitivity; [exact H0' | vm_compute; reflexivity].
Defined.

(** ** More on the completion log *)

Lemma stripped_lines_app_sep a b :
  stripped_lines (a ++ LF :: b) = stripped_lines a ++ stripped_lines b.
Proof.
  unfold stripped_lines. by rewrite split_app_sep, List.filter_app, List.map_app.
Qed.

Lemma stripped_lines_line u :
  LF ∉ u -> u ≠ [] -> strip u = u -> stripped_lines u = [u].
Proof.
  intros Hlf Hne Hs. unfold stripped_lines. rewrite (split_no_sep LF u Hlf). simpl.
  rewrite Hs. destruct u; [contradiction|]. simpl. by rewrite Hs.
Qed.

Lemma loaded_log_listed w p : loaded_log w p = list_to_set (listed_urls w p).
Proof.
  unfold loaded_log, listed_urls, file_content.
  destruct (files w !! p); reflexivity.
Qed.

(** What is read back after a line has been added to a closed log. *)
Lemma decode_after_append prev u pf :
  (prev = [] ∨ exists c', prev = c' ++ [LF]) -> u ≠ [] -> LF ∉ u -> CR ∉ u ->
  exists d,
    (universal_newlines prev = d ++ [LF] ∨ (universal_newlines prev = [] ∧ d = [])) ∧
    universal_newlines (prev ++ u ++ linesep pf) = universal_newlines prev ++ u ++ [LF].
Proof.
  intros Hprev Hne Hlf Hcr.
  assert (Hline : newline_decode false (u ++ linesep pf) = u ++ [LF]).
  { rewrite newline_decode_app, (newline_decode_plain _ u Hlf Hcr).
    rewrite (pending_plain _ u Hne Hcr). f_equal. apply linesep_decoded. }
  destruct Hprev as [->|[c' ->]].
  - exists []. split; [by right | exact Hline].
  - destruct (newline_decode_closed c') as [d Hd]. exists d. split; [by left|].
    unfold universal_newlines. rewrite newline_decode_app. f_equal.
    replace (pending false (c' ++ [LF])) with false; [exact Hline|].
    unfold pending. by rewrite last_snoc.
Qed.

Lemma listed_after_append u log_file w :
  loggable u -> log_closed w log_file ->
  listed_urls (exec (append_to_log_file u log_file) w).2 log_file =
  listed_urls w log_file ++ [u].
Proof.
  intros (Hne & Hlf & Hcr & Hstrip) Hlog.
  unfold listed_urls. rewrite exec_append_to_log_file. unfold file_content at 1.
  simpl. rewrite lookup_insert_eq. simpl.
  rewrite write_newlines_line, (write_newlines_plain _ u Hlf).
  assert (Hprev : file_content w log_file = [] ∨ exists c', file_content w log_file = c' ++ [LF]).
  { unfold log_closed, file_content in *. destruct (files w !! log_file); simpl; auto. }
  destruct (decode_after_append (file_content w log_file) u (os w) Hprev Hne Hlf Hcr)
    as (d & Hd & ->).
  assert (Hu : stripped_lines (u ++ [LF]) = [u]).
  { change (u ++ [LF]) with (u ++ LF :: []).
    rewrite stripped_lines_app_sep, (stripped_lines_line u Hlf Hne Hstrip).
    reflexivity. }
  destruct Hd as [Hd|[Hd ->]]; rewrite Hd.
  - rewrite <- app_assoc. change ([LF] ++ u ++ [LF]) with (LF :: (u ++ [LF])).
    rewrite stripped_lines_app_sep, Hu.
    change (d ++ [LF]) with (d ++ LF :: []). rewrite stripped_lines_app_sep.
    change (stripped_lines []) with (@nil (list N)). by rewrite app_nil_r.
  - simpl. exact Hu.
Qed.

(** X11. Marking adds one entry and loses none. For a URL that the log can
    hold and a log that is absent, empty or ends with a newline, the lines
    read back after [append_to_log_file] are the lines read before,
    followed by the URL; the loaded set grows by exactly that URL. *)
Theorem marking_adds_one_entry (u log_file : str) (w : world)
    (Hu : loggable u) (Hlog : log_closed w log_file) :
  listed_urls (exec (append_to_log_file u log_file) w).2 log_file =
    listed_urls w log_file ++ [u] ∧
  loaded_log (exec (append_to_log_file u log_file) w).2 log_file =
    loaded_log w log_file ∪ {[u]}.
Proof.
  pose proof (listed_after_append u log_file w Hu Hlog) as H.
  split; [exact H|].
  rewrite !loaded_log_listed, H, list_to_set_app_L. simpl.
  by rewrite (right_id_L ∅ (∪)).
Qed.

Lemma marking_adds_one_entry_witness :
  listed_urls
    (exec (append_to_log_file (lit "https://www.loom.com/share/bbb") (lit "/s/downloaded.log"))
          (Sample.desk [])).2 (lit "/s/downloaded.log")
  = [lit "https://www.loom.com/share/aaa"; lit "https://www.loom.com/share/bbb"].
Proof.
  assert (Hu : loggable (lit "https://www.loom.com/share/bbb")).
  { split; [discriminate|]. split; [|split; [|reflexivity]];
      apply (bool_decide_unpack _); vm_compute; exact I. }
  assert (Hlog : log_closed (Sample.desk []) (lit "/s/downloaded.log")).
  { unfold log_closed.
    replace (files (Sample.desk []) !! lit "/s/downloaded.log")
      with (Some (lit "https://www.loom.com/share/aaa" ++ [LF])) by (vm_compute; reflexivity).
    right. by eexists. }
  rewrite (proj1 (marking_adds_one_entry (lit "https://www.loom.com/share/bbb")
                    (lit "/s/downloaded.log") (Sample.desk []) Hu Hlog)).
  vm_compute. reflexivity.
Defined.

(** *** What strip leaves *)

Lemma newline_decode_no_cr b s : CR ∉ newline_decode b s.
Proof.
  revert b. induction s as [|c s IH]; intros b; simpl; [apply not_elem_of_nil|].
  destruct (N.eqb_spec c CR) as [->|Hc].
  - apply not_elem_of_cons. split; [discriminate | apply IH].
  - destruct (N.eqb_spec c LF) as [->|Hl].
    + destruct b; [apply IH|]. apply not_elem_of_cons. split; [discriminate | apply IH].
    + apply not_elem_of_cons. split; [congruence | apply IH].
Qed.

Lemma lstrip_suffix s : exists sp, s = sp ++ lstrip s.
Proof.
  induction s as [|c s [sp IH]]; [by exists []|]. simpl.
  destruct (isspace c); [|by exists []].
  exists (c :: sp). simpl. by rewrite <- IH.
Qed.

Lemma lstrip_head s c t : lstrip s = c :: t -> isspace c = false.
Proof.
  induction s as [|d s IH]; simpl; [discriminate|].
  destruct (isspace d) eqn:Hd; [exact IH|]. by intros [= <- _].
Qed.

Lemma lstrip_fixed s : (forall c t, s = c :: t -> isspace c = false) -> lstrip s = s.
Proof. destruct s as [|c t]; [reflexivity|]. intros H. simpl. by rewrite (H c t). Qed.

Lemma lstrip_idem s : lstrip (lstrip s) = lstrip s.
Proof. apply lstrip_fixed. intros c t. apply lstrip_head. Qed.

Lemma rstrip_prefix s : exists sp, s = rstrip s ++ sp.
Proof.
  unfold rstrip. destruct (lstrip_suffix (List.rev s)) as [sp Hsp].
  exists (List.rev sp). rewrite <- rev_app_distr, <- Hsp. by rewrite rev_involutive.
Qed.

Lemma rstrip_idem s : rstrip (rstrip s) = rstrip s.
Proof. unfold rstrip. by rewrite rev_involutive, lstrip_idem. Qed.

Lemma strip_idem s : strip (strip s) = strip s.
Proof.
  unfold strip.
  assert (H : lstrip (rstrip (lstrip s)) = rstrip (lstrip s)).
  { apply lstrip_fixed. intros c t Hc.
    destruct (rstrip_prefix (lstrip s)) as [sp Hsp]. rewrite Hc in Hsp.
    by apply (lstrip_head s c (t ++ sp)). }
  rewrite H. apply rstrip_idem.
Qed.

Lemma strip_chars s c : c ∈ strip s -> c ∈ s.
Proof.
  unfold strip. intros Hc.
  destruct (rstrip_prefix (lstrip s)) as [sp Hsp].
  destruct (lstrip_suffix s) as [sp' Hsp'].
  rewrite Hsp', Hsp. apply elem_of_app. right. apply elem_of_app. by left.
Qed.

Lemma listed_urls_loggable w p u : u ∈ listed_urls w p -> loggable u.
Proof.
  unfold listed_urls, stripped_lines. intros Hu.
  apply list_elem_of_In, in_map_iff in Hu as (line & <- & Hline).
  apply filter_In in Hline as [Hline Ht].
  apply list_elem_of_In, split_pieces in Hline as [Hlf Hsub].
  split; [by destruct (strip line)|]. split; [|split; [|apply strip_idem]].
  - intros H. by apply Hlf, strip_chars.
  - intros H. apply strip_chars, Hsub in H.
    by apply (newline_decode_no_cr false (file_content w p)).
Qed.

(** X12. Every URL that [read_downloaded_log] returns, and every URL read
    from a list file, is one the log can hold: not empty, without line
    feed or carriage return, and unchanged by [strip]. *)
Theorem loaded_urls_are_clean (w : world) (p u : str) (downloaded : gset str)
    (Hread : (exec (read_downloaded_log p) w).1 = inr downloaded)
    (Hu : u ∈ downloaded ∨ u ∈ listed_urls w p) :
  loggable u.
Proof.
  rewrite exec_read_downloaded_log in Hread. injection Hread as <-.
  apply (listed_urls_loggable w p).
  destruct Hu as [Hu|Hu]; [|exact Hu].
  change (u ∈ loaded_log w p) in Hu.
  by rewrite loaded_log_listed, elem_of_list_to_set in Hu.
Qed.

Lemma loaded_urls_are_clean_witness :
  loggable (lit "https://www.loom.com/share/ccc").
Proof.
  apply (loaded_urls_are_clean (Sample.desk Sample.distinct_text) (lit "/home/u/urls.txt")
           (lit "https://www.loom.com/share/ccc")
           (loaded_log (Sample.desk Sample.distinct_text) (lit "/home/u/urls.txt"))).
  - apply (f_equal fst (exec_read_downloaded_log _ _)).
  - right. apply (bool_decide_unpack _). vm_compute. exact I.
Defined.

(** ** More on the batch *)

Lemma download_from_list_jobs script_dir abspath a w l jobs :
  a_list a = Some l ->
  is_Some (files w !! abspath l) ->
  files w !! batch_output_directory script_dir abspath a = None ->
  (exec (download_from_list script_dir abspath a) w).1 = inr jobs ->
  jobs = make_tasks a (batch_output_directory script_dir abspath a) (batch_log_file script_dir)
           (List.filter (fun u => negb (bool_decide (u ∈ loaded_log w (batch_log_file script_dir))))
              (listed_urls w (abspath l))).
Proof.
  intros Hl Hfile Hout Hrun.
  destruct (exec_download_from_list script_dir abspath a w l Hl Hfile Hout) as [w' He].
  rewrite He in Hrun. by injection Hrun as <-.
Qed.

Lemma filter_filter_bool {X} (P Q : X -> bool) (l : list X) :
  List.filter P (List.filter Q l) = List.filter (fun x => Q x && P x) l.
Proof.
  induction l as [|x l IH]; [reflexivity|]. simpl.
  destruct (Q x); simpl; [destruct (P x)|]; by rewrite IH.
Qed.

Lemma filter_ext_bool {X} (P Q : X -> bool) (l : list X) :
  (forall x, P x = Q x) -> List.filter P l = List.filter Q l.
Proof. intros H. induction l as [|x l IH]; [reflexivity|]. simpl. by rewrite H, IH. Qed.

(** X13. Marking makes the next run skip. If a run of [download_from_list]
    made a job for a URL, then in any later state of the machine with the
    same list file and log, once that URL is appended to the log, a new
    run makes the same jobs without the ones for that URL. *)
Theorem marked_job_is_skipped (script_dir : str) (abspath : str -> str)
    (a : args) (w v : world) (l : str) (jobs : list job) (j : job)
    (Hl : a_list a = Some l)
    (Hfile : is_Some (files w !! abspath l))
    (Hout : files w !! batch_output_directory script_dir abspath a = None)
    (Hrun : (exec (download_from_list script_dir abspath a) w).1 = inr jobs)
    (Hj : j ∈ jobs)
    (Hlist_v : files v !! abspath l = files w !! abspath l)
    (Hlog_v : files v !! batch_log_file script_dir = files w !! batch_log_file script_dir)
    (Hout_v : files v !! batch_output_directory script_dir abspath a = None)
    (Hclosed : log_closed v (batch_log_file script_dir))
    (Hlist_ne : abspath l ≠ batch_log_file script_dir)
    (Hout_ne : batch_output_directory script_dir abspath a ≠ batch_log_file script_dir) :
  exists jobs',
    (exec (download_from_list script_dir abspath a)
          (exec (append_to_log_file (url j) (log_file j)) v).2).1 = inr jobs' ∧
    List.map url jobs' =
      List.filter (fun u => negb (bool_decide (u = url j))) (List.map url jobs) ∧
    (forall j', j' ∈ jobs' -> url j' ≠ url j).
Proof.
  set (log := batch_log_file script_dir) in *.
  set (out := batch_output_directory script_dir abspath a) in *.
  pose proof (download_from_list_jobs script_dir abspath a w l jobs Hl Hfile Hout Hrun) as Hjobs.
  fold log out in Hjobs.
  assert (Hjlog : log_file j = log ∧ url j ∈ listed_urls w (abspath l)).
  { rewrite Hjobs in Hj. apply make_tasks_elem in Hj as (_ & _ & _ & Hlg & _ & Hu).
    split; [exact Hlg|]. by apply filter_elem_bool in Hu as [Hu _]. }
  destruct Hjlog as [Hjlog Hjin]. rewrite Hjlog.
  assert (Hclean : loggable (url j)) by (by eapply listed_urls_loggable).
  set (v' := (exec (append_to_log_file (url j) log) v).2).
  assert (Hfiles : forall q, q ≠ log -> files v' !! q = files v !! q).
  { intros q Hq. unfold v'. rewrite exec_append_to_log_file. simpl.
    by rewrite lookup_insert_ne. }
  assert (Hlisted : listed_urls v' (abspath l) = listed_urls w (abspath l)).
  { unfold listed_urls, file_content. by rewrite (Hfiles _ Hlist_ne), Hlist_v. }
  assert (Hloaded : loaded_log v' log = loaded_log w log ∪ {[url j]}).
  { unfold v'. rewrite loaded_log_listed, (listed_after_append _ _ _ Hclean Hclosed).
    rewrite list_to_set_app_L. simpl. rewrite (right_id_L ∅ (∪)). f_equal.
    rewrite <- loaded_log_listed. unfold loaded_log. by rewrite Hlog_v. }
  destruct (exec_download_from_list script_dir abspath a v' l Hl) as [w2 He].
  { rewrite (Hfiles _ Hlist_ne), Hlist_v. exact Hfile. }
  { fold out. rewrite (Hfiles _ Hout_ne). exact Hout_v. }
  fold log out in He. rewrite Hlisted, Hloaded in He.
  eexists. split; [by rewrite He|].
  assert (Hurls : List.map url
            (make_tasks a out log
               (List.filter (fun u => negb (bool_decide (u ∈ loaded_log w log ∪ {[url j]})))
                  (listed_urls w (abspath l)))) =
          List.filter (fun u => negb (bool_decide (u = url j))) (List.map url jobs)).
  { rewrite Hjobs, !make_tasks_urls, filter_filter_bool. apply filter_ext_bool.
    intros u. destruct (bool_decide (u ∈ loaded_log w log)) eqn:Hd;
      destruct (bool_decide (u = url j)) eqn:Hu; simpl;
      [apply negb_false_iff, bool_decide_eq_true; apply bool_decide_eq_true in Hd
      |apply negb_false_iff, bool_decide_eq_true; apply bool_decide_eq_true in Hd
      |apply negb_false_iff, bool_decide_eq_true; apply bool_decide_eq_true in Hu
      |apply negb_true_iff, bool_decide_eq_false; apply bool_decide_eq_false in Hd;
       apply bool_decide_eq_false in Hu];
      rewrite elem_of_union, elem_of_singleton; tauto. }
  split; [exact Hurls|].
  intros j' Hj'.
  assert (Hin : url j' ∈ List.map url
            (make_tasks a out log
               (List.filter (fun u => negb (bool_decide (u ∈ loaded_log w log ∪ {[url j]})))
                  (listed_urls w (abspath l))))).
  { apply list_elem_of_In, in_map, list_elem_of_In, Hj'. }
  rewrite Hurls in Hin. apply filter_elem_bool in Hin as [_ Hne].
  by apply negb_true_iff, bool_decide_eq_false in Hne.
Qed.

Lemma marked_job_is_skipped_witness :
  exists jobs',
    (exec (download_from_list Sample.script_dir Sample.abspath Sample.list_args)
          (exec (append_to_log_file (url Sample.bbb_job) (log_file Sample.bbb_job))
                (Sample.desk Sample.distinct_text)).2).1 = inr jobs' ∧
    List.map url jobs' = [lit "https://www.loom.com/share/ccc"].
Proof.
  destruct (marked_job_is_skipped Sample.script_dir Sample.abspath Sample.list_args
              (Sample.desk Sample.distinct_text) (Sample.desk Sample.distinct_text)
              (lit "urls.txt")
              [Sample.bbb_job;
               {| url := lit "https://www.loom.com/share/ccc"; video_id := lit "ccc";
                  output_directory := lit "/s/Downloads"; prefix := None; index := 2;
                  log_file := lit "/s/downloaded.log"; timeout := Some 5000 |}]
              Sample.bbb_job)
    as (jobs' & Hrun & Hurls & _).
  - reflexivity.
  - eexists. vm_compute. reflexivity.
  - vm_compute. reflexivity.
  - vm_compute. reflexivity.
  - apply list_elem_of_here.
  - reflexivity.
  - reflexivity.
  - vm_compute. reflexivity.
  - unfold log_closed.
    replace (files (Sample.desk Sample.distinct_text) !! batch_log_file Sample.script_dir)
      with (Some (lit "https://www.loom.com/share/aaa" ++ [LF])) by (vm_compute; reflexivity).
    right. by eexists.
  - discriminate.
  - discriminate.
  - exists jobs'. split; [exact Hrun|]. rewrite Hurls. vm_compute. reflexivity.
Defined.

(** X14. A missing list file is an error, unlike a missing log: the
    exception of the failed open leaves [download_from_list] uncaught,
    after the log has been read, and no job and no output directory is
    made. *)
Theorem missing_list_file_raises (script_dir : str) (abspath : str -> str)
    (a : args) (w : world) (l : str)
    (Hl : a_list a = Some l) (Hmissing : files w !! abspath l = None) :
  (exec (download_from_list script_dir abspath a) w).1 = inl (FileNotFoundError (abspath l)) ∧
  emitted (download_from_list script_dir abspath a) w =
    [AReadText (batch_log_file script_dir); AReadText (abspath l)] ∧
  dirs (exec (download_from_list script_dir abspath a) w).2 = dirs w ∧
  files (exec (download_from_list script_dir abspath a) w).2 = files w.
Proof.
  unfold download_from_list. unmonad.
  rewrite exec_bind, emitted_bind, exec_read_downloaded_log. cbn [fst snd].
  assert (Hem : emitted (read_downloaded_log (batch_log_file script_dir)) w =
                [AReadText (batch_log_file script_dir)]).
  { unfold read_downloaded_log, read_text. unmonad. simpl.
    rewrite emitted_vis. unfold handle. simpl.
    destruct (files w !! batch_log_file script_dir); simpl;
      by rewrite emitted_ret. }
  rewrite Hem, Hl. unfold read_text. simpl bind. rewrite emitted_vis.
  simpl. unfold handle. simpl. rewrite Hmissing. simpl.
  rewrite emitted_raise. auto.
Qed.

Lemma missing_list_file_raises_witness :
  (exec (download_from_list Sample.script_dir Sample.abspath Sample.list_args)
        (Sample.remote [])).1 = inl (FileNotFoundError (lit "/home/u/urls.txt")).
Proof.
  apply (missing_list_file_raises Sample.script_dir Sample.abspath Sample.list_args
           (Sample.remote []) (lit "urls.txt") eq_refl).
  vm_compute. reflexivity.
Defined.

(** X15. Jobs are numbered from 1 by their position among the URLs still
    to download, not by their line in the list file; the identifier is
    that of the URL, and with a non-empty prefix the file name is
    [prefix-number-identifier.mp4]. *)
Theorem jobs_are_numbered_from_one (script_dir : str) (abspath : str -> str)
    (a : args) (w : world) (l : str) (jobs : list job) (i : nat) (j : job)
    (Hl : a_list a = Some l)
    (Hfile : is_Some (files w !! abspath l))
    (Hout : files w !! batch_output_directory script_dir abspath a = None)
    (Hrun : (exec (download_from_list script_dir abspath a) w).1 = inr jobs)
    (Hj : jobs !! i = Some j) :
  index j = Z.of_nat i + 1 ∧
  List.filter (fun u => negb (bool_decide (u ∈ loaded_log w (batch_log_file script_dir))))
              (listed_urls w (abspath l)) !! i = Some (url j) ∧
  video_id j = extract_id (url j) ∧
  (forall p, a_prefix a = Some p -> p ≠ [] ->
     filename j =
     p ++ lit "-" ++ str_of_int (Z.of_nat i + 1) ++ lit "-" ++ extract_id (url j) ++ lit ".mp4").
Proof.
  rewrite (download_from_list_jobs script_dir abspath a w l jobs Hl Hfile Hout Hrun) in Hj.
  unfold make_tasks in Hj. apply list_lookup_imap_Some in Hj as (u & Hu & ->).
  simpl. repeat split; auto.
  intros p Hp Hne. unfold filename. simpl. rewrite Hp. by destruct p.
Qed.

Lemma jobs_are_numbered_from_one_witness :
  filename {| url := lit "https://www.loom.com/share/ccc"; video_id := lit "ccc";
              output_directory := lit "/s/Downloads"; prefix := Some (lit "talk"); index := 2;
              log_file := lit "/s/downloaded.log"; timeout := Some 5000 |}
  = lit "talk-2-ccc.mp4".
Proof.
  pose (a := {| a_url := None; a_list := Some (lit "urls.txt"); a_prefix := Some (lit "talk");
                a_out := None; a_timeout := Some 5000 |}).
  destruct (jobs_are_numbered_from_one Sample.script_dir Sample.abspath a
              (Sample.desk Sample.distinct_text) (lit "urls.txt")
              (make_tasks a (lit "/s/Downloads") (lit "/s/downloaded.log")
                 [lit "https://www.loom.com/share/bbb?sid=1"; lit "https://www.loom.com/share/ccc"])
              1%nat
              {| url := lit "https://www.loom.com/share/ccc"; video_id := lit "ccc";
                 output_directory := lit "/s/Downloads"; prefix := Some (lit "talk"); index := 2;
                 log_file := lit "/s/downloaded.log"; timeout := Some 5000 |})
    as (_ & _ & _ & Hname).
  - reflexivity.
  - eexists. vm_compute. reflexivity.
  - vm_compute. reflexivity.
  - vm_compute. reflexivity.
  - reflexivity.
  - rewrite (Hname (lit "talk") eq_refl); [reflexivity | discriminate].
Defined.

(** *** Numbers in file names *)

Lemma digits_no_dash d : DASH ∉ digits d.
Proof.
  induction d; simpl; [apply not_elem_of_nil|..];
    (apply not_elem_of_cons; split; [discriminate | assumption]).
Qed.

Lemma digits_inj d d' : digits d = digits d' -> d = d'.
Proof.
  revert d'. induction d as [|d IH|d IH|d IH|d IH|d IH|d IH|d IH|d IH|d IH|d IH];
    intros d' H; destruct d'; simpl in H; try discriminate; try reflexivity;
    injection H as H; f_equal; by apply IH.
Qed.

Lemma str_of_int_inj a b : str_of_int a = str_of_int b -> a = b.
Proof.
  unfold str_of_int. intros H. apply DecimalZ.to_int_inj.
  destruct (Z.to_int a) as [d|d], (Z.to_int b) as [d'|d'].
  - f_equal. by apply digits_inj.
  - exfalso. apply (digits_no_dash d). rewrite H. apply list_elem_of_here.
  - exfalso. apply (digits_no_dash d'). rewrite <- H. apply list_elem_of_here.
  - injection H as H. f_equal. by apply digits_inj.
Qed.

Lemma str_of_int_no_dash z : 0 ≤ z -> DASH ∉ str_of_int z.
Proof.
  intros Hz. destruct z as [|p|p]; [| |lia].
  - change (str_of_int 0) with (digits (D0 Nil)). apply digits_no_dash.
  - change (str_of_int (Z.pos p)) with (digits (Pos.to_uint p)). apply digits_no_dash.
Qed.

Lemma dash_delimited (s1 s2 r1 r2 : str) :
  DASH ∉ s1 -> DASH ∉ s2 -> s1 ++ DASH :: r1 = s2 ++ DASH :: r2 -> s1 = s2.
Proof.
  revert s2. induction s1 as [|c s1 IH]; intros s2 H1 H2 H; destruct s2 as [|c' s2].
  - reflexivity.
  - simpl in H. injection H as <- _. exfalso. apply H2, list_elem_of_here.
  - simpl in H. injection H as -> _. exfalso. apply H1, list_elem_of_here.
  - simpl in H. injection H as -> H.
    apply not_elem_of_cons in H1 as [_ H1], H2 as [_ H2]. f_equal. by apply IH.
Qed.

Lemma path_join_inj a b1 b2 :
  startswith SLASH b1 = startswith SLASH b2 -> path_join a b1 = path_join a b2 -> b1 = b2.
Proof.
  unfold path_join. intros Hs. rewrite Hs. destruct (startswith SLASH b2); [auto|].
  destruct (negb (truthy a) || endswith SLASH a); intros H.
  - by apply app_inv_head in H.
  - apply app_inv_head in H. by injection H.
Qed.

(** X16. With a non-empty prefix no two jobs of a run share a destination,
    not even two jobs for the same URL: the number in the file name tells
    them apart. *)
Theorem prefix_makes_destinations_distinct (script_dir : str) (abspath : str -> str)
    (a : args) (w : world) (l p : str) (jobs : list job) (i1 i2 : nat) (j1 j2 : job)
    (Hl : a_list a = Some l)
    (Hfile : is_Some (files w !! abspath l))
    (Hout : files w !! batch_output_directory script_dir abspath a = None)
    (Hrun : (exec (download_from_list script_dir abspath a) w).1 = inr jobs)
    (Hprefix : a_prefix a = Some p) (Hp : p ≠ [])
    (H1 : jobs !! i1 = Some j1) (H2 : jobs !! i2 = Some j2) (Hne : i1 ≠ i2) :
  output_path j1 ≠ output_path j2.
Proof.
  rewrite (download_from_list_jobs script_dir abspath a w l jobs Hl Hfile Hout Hrun) in H1, H2.
  unfold make_tasks in H1, H2.
  apply list_lookup_imap_Some in H1 as (u1 & _ & ->), H2 as (u2 & _ & ->).
  unfold output_path, filename. simpl. rewrite Hprefix.
  destruct p as [|c p]; [contradiction|]. simpl truthy. cbv iota.
  intros H. apply path_join_inj in H; [|reflexivity].
  apply app_inv_head in H. change (lit "-") with [DASH] in H. simpl in H.
  injection H as H. apply dash_delimited in H.
  - apply str_of_int_inj in H. lia.
  - apply str_of_int_no_dash. lia.
  - apply str_of_int_no_dash. lia.
Qed.

Lemma prefix_makes_destinations_distinct_witness :
  let a := {| a_url := None; a_list := Some (lit "urls.txt"); a_prefix := Some (lit "talk");
              a_out := None; a_timeout := Some 5000 |} in
  let jobs := make_tasks a (lit "/s/Downloads") (lit "/s/downloaded.log")
                [lit "https://www.loom.com/share/bbb?sid=1"; lit "https://www.loom.com/share/ccc";
                 lit "https://www.loom.com/share/bbb?sid=1"] in
  (exec (download_from_list Sample.script_dir Sample.abspath a)
        (Sample.desk Sample.list_text)).1 = inr jobs ∧
  List.map url jobs = [lit "https://www.loom.com/share/bbb?sid=1";
                       lit "https://www.loom.com/share/ccc";
                       lit "https://www.loom.com/share/bbb?sid=1"] ∧
  List.map output_path jobs =
    [lit "/s/Downloads/talk-1-bbb.mp4"; lit "/s/Downloads/talk-2-ccc.mp4";
     lit "/s/Downloads/talk-3-bbb.mp4"] ∧
  forall j1 j2, jobs !! 0%nat = Some j1 -> jobs !! 2%nat = Some j2 ->
                output_path j1 ≠ output_path j2.
Proof.
  intros a jobs.
  assert (Hrun : (exec (download_from_list Sample.script_dir Sample.abspath a)
                       (Sample.desk Sample.list_text)).1 = inr jobs)
    by (vm_compute; reflexivity).
  split; [exact Hrun|]. split; [reflexivity|]. split; [reflexivity|].
  intros j1 j2 H1 H2.
  assert (Hfile : is_Some (files (Sample.desk Sample.list_text)
                             !! Sample.abspath (lit "urls.txt")))
    by (eexists; vm_compute; reflexivity).
  assert (Hout : files (Sample.desk Sample.list_text)
                   !! batch_output_directory Sample.script_dir Sample.abspath a = None)
    by (vm_compute; reflexivity).
  assert (Hp : lit "talk" ≠ []) by discriminate.
  assert (Hne : 0%nat ≠ 2%nat) by discriminate.
  exact (prefix_makes_destinations_distinct Sample.script_dir Sample.abspath a
           (Sample.desk Sample.list_text) (lit "urls.txt") (lit "talk") jobs 0 2 j1 j2
           eq_refl Hfile Hout Hrun eq_refl Hp H1 H2 Hne).
Defined.

Lemma filter_none {X} (P : X -> bool) (l : list X) :
  (forall x, x ∈ l -> P x = false) -> List.filter P l = [].
Proof.
  induction l as [|x l IH]; intros H; [reflexivity|]. simpl.
  rewrite (H x (list_elem_of_here _ _)). apply IH.
  intros y Hy. apply H. by apply list_elem_of_further.
Qed.

(** X17. When every URL of the list is already in the log (or the list
    has no URL at all), [download_from_list] makes no job: it reads the
    log and the list, makes the output directory, sends nothing to the
    network, and [async_pool] returns the empty list at once. *)
Theorem nothing_pending_makes_no_job (script_dir : str) (abspath : str -> str)
    (a : args) (w : world) (l : str)
    (Hl : a_list a = Some l)
    (Hfile : is_Some (files w !! abspath l))
    (Hout : files w !! batch_output_directory script_dir abspath a = None)
    (Hall : forall u, u ∈ listed_urls w (abspath l) ->
                      u ∈ loaded_log w (batch_log_file script_dir)) :
  (exec (download_from_list script_dir abspath a) w).1 = inr [] ∧
  List.filter (fun x => is_post x || is_get x)
    (emitted (download_from_list script_dir abspath a) w) = [] ∧
  forall w', outcome (async_pool pool_limit (List.map download_single_video []) w')
             = Some (inr []).
Proof.
  destruct (exec_download_from_list script_dir abspath a w l Hl Hfile Hout) as [w' He].
  assert (Hnone : List.filter
            (fun u => negb (bool_decide (u ∈ loaded_log w (batch_log_file script_dir))))
            (listed_urls w (abspath l)) = []).
  { apply filter_none. intros u Hu. by rewrite bool_decide_eq_true_2 by (by apply Hall). }
  rewrite Hnone in He. split; [by rewrite He|]. split; [|reflexivity].
  apply quiet_emitted. unfold download_from_list. unmonad.
  apply only_bind.
  { unfold read_downloaded_log. apply only_try_catch.
    - unmonad. apply only_bind; [|intros; constructor].
      apply only_call; [reflexivity | intros; apply only_lift].
    - intros e. destruct e; constructor. }
  intros downloaded. rewrite Hl.
  apply only_bind; [apply only_call; [reflexivity | intros; apply only_lift]|].
  intros content.
  apply only_bind; [apply only_call; [reflexivity | intros; apply only_lift]|].
  intros _. constructor.
Qed.

Lemma nothing_pending_makes_no_job_witness :
  (exec (download_from_list Sample.script_dir Sample.abspath Sample.list_args)
        (Sample.desk (lit "https://www.loom.com/share/aaa" ++ [LF; LF]))).1 = inr [].
Proof.
  apply (nothing_pending_makes_no_job Sample.script_dir Sample.abspath Sample.list_args
           (Sample.desk (lit "https://www.loom.com/share/aaa" ++ [LF; LF])) (lit "urls.txt")
           eq_refl).
  - eexists. vm_compute. reflexivity.
  - vm_compute. reflexivity.
  - intros u Hu.
    replace (listed_urls (Sample.desk (lit "https://www.loom.com/share/aaa" ++ [LF; LF]))
               (Sample.abspath (lit "urls.txt")))
      with [lit "https://www.loom.com/share/aaa"] in Hu by (vm_compute; reflexivity).
    apply list_elem_of_singleton in Hu as ->.
    apply (bool_decide_unpack _). vm_compute. exact I.
Defined.

(** ** More on the pool *)

Lemma fire_zero_limit {A} (coros : list (prog A)) w i :
  fire i (async_pool 0 coros w) = None.
Proof.
  unfold fire. simpl.
  change (List.map Queued coros) with (Queued <$> coros).
  rewrite list_lookup_fmap. by destruct (coros !! i).
Qed.

(** X18. With limit 0 no coroutine ever starts: the pool stays in its
    first state, no step is possible, and [async_pool] never gives its
    caller anything, unless there is no coroutine at all. *)
Theorem zero_limit_never_starts {A} (coros : list (prog A)) (w : world) (st : state A)
    (Hsome : coros ≠ [])
    (Hrun : reachable (async_pool 0 coros w) st) :
  st = async_pool 0 coros w ∧ outcome st = None ∧ forall i, fire i st = None.
Proof.
  assert (Hst : st = async_pool 0 coros w).
  { inversion Hrun as [|? st1 ? [i Hf] _]; [reflexivity|].
    by rewrite fire_zero_limit in Hf. }
  subst st. split; [reflexivity|]. split; [|intros; apply fire_zero_limit].
  unfold outcome. simpl. destruct coros as [|p ps]; [contradiction|]. reflexivity.
Qed.

Lemma zero_limit_never_starts_witness :
  outcome (async_pool 0 Sample.polite (Sample.remote [])) = None.
Proof.
  apply (zero_limit_never_starts Sample.polite (Sample.remote [])
           (async_pool 0 Sample.polite (Sample.remote []))).
  - discriminate.
  - apply rtc_refl.
Defined.

(** *** The order of the results *)

Lemma task_step_belongs {A} (p0 : prog A) (t t' : task A) :
  belongs_to p0 t -> task_step t t' -> belongs_to p0 t'.
Proof.
  destruct t as [p|[v|e|a k]|r]; simpl; intros Hb Hs; try contradiction.
  - subst. simpl. auto.
  - subst. simpl. by apply Hb.
  - subst. exact I.
  - destruct Hs as [x ->]. simpl. intros v Hv. apply Hb. by exists x.
Qed.

Lemma async_pool_in_place {A} limit (coros : list (prog A)) w :
  in_place coros (async_pool limit coros w).
Proof.
  intros i p0 t Hp Ht. simpl in Ht.
  change (List.map Queued coros) with (Queued <$> coros) in Ht.
  rewrite list_lookup_fmap, Hp in Ht. by injection Ht as <-.
Qed.

Lemma fire_in_place {A} (coros : list (prog A)) i (st st' : state A) :
  in_place coros st -> fire i st = Some st' -> in_place coros st'.
Proof.
  intros Hin Hf k p0 t Hp Ht.
  apply fire_inv in Hf as (t0 & t' & Ht0 & Hstep & Hl & _).
  rewrite Hl in Ht. destruct (decide (i = k)) as [->|Hne].
  - rewrite list_lookup_insert_eq in Ht by (by eapply lookup_lt_Some).
    injection Ht as <-. eapply task_step_belongs; [|exact Hstep]. by eapply Hin.
  - rewrite list_lookup_insert_ne in Ht by exact Hne. by eapply Hin.
Qed.

Lemma reachable_in_place {A} (coros : list (prog A)) (st0 st : state A) :
  in_place coros st0 -> reachable st0 st -> in_place coros st.
Proof.
  intros Hc Hr. induction Hr as [|st1 st2 st3 [i Hf] _ IH]; [exact Hc|].
  apply IH. eapply fire_in_place; eauto.
Qed.

(** X19. The results keep the order of the input, whatever the order in
    which the coroutines finish: when [async_pool] returns a list, it has
    one entry per coroutine, and the entry at each position is a value
    returned by the coroutine handed in at that position. *)
Theorem results_keep_input_order {A} (limit : nat) (coros : list (prog A)) (w : world)
    (st : state A) (results : list A)
    (Hrun : reachable (async_pool limit coros w) st)
    (Hout : outcome st = Some (inr results)) :
  length results = length coros ∧
  forall i p v, coros !! i = Some p -> results !! i = Some v -> can_return p v.
Proof.
  pose proof (reachable_in_place coros _ _ (async_pool_in_place limit coros w) Hrun) as Hin.
  pose proof (reachable_length _ _ Hrun) as Hlen. simpl in Hlen. rewrite length_map in Hlen.
  unfold outcome in Hout. destruct (raised st); [discriminate|].
  destruct (mapM value (tasks st)) as [vs|] eqn:Hm; [|discriminate].
  injection Hout as <-. split.
  - rewrite <- (length_mapM _ _ _ Hm). exact Hlen.
  - intros i p v Hp Hv. apply mapM_Some_1 in Hm.
    destruct (Forall2_lookup_r _ _ _ _ _ Hm Hv) as (t & Ht & Hval).
    specialize (Hin i p t Hp Ht).
    destruct t as [q|q|[e|v']]; simpl in Hval; try discriminate.
    injection Hval as ->. exact Hin.
Qed.

Lemma results_keep_input_order_witness :
  exists st,
    run [0; 1; 1; 0; 0]%nat (async_pool 2 Sample.numbered (Sample.remote [])) = Some st ∧
    outcome st = Some (inr [1; 2]) ∧ length [1; 2] = length Sample.numbered.
Proof.
  eexists. split; [reflexivity|]. split; [reflexivity|].
  eapply (results_keep_input_order 2 Sample.numbered (Sample.remote [])).
  - apply (run_reachable [0; 1; 1; 0; 0]%nat). reflexivity.
  - reflexivity.
Defined.

(** ** download_single_file *)

Lemma download_single_file_eq a u :
  a_url a = Some u ->
  download_single_file a =
  bind (fetch_loom_download_url (extract_id u)) (fun download_url =>
    bind (print (MsgDownloading (extract_id u) (single_output_path a (extract_id u))))
         (fun _ => download_loom_video download_url (single_output_path a (extract_id u)))).
Proof. intros Hu. unfold download_single_file. by rewrite Hu. Qed.

(** X20. The single-file mode is bare: one resolution, at most one fetch,
    no sleep, no retry, and the log is neither read nor written. An
    exception of the resolution or of the fetch is not caught: it leaves
    [download_single_file]. *)
Theorem single_file_is_bare (a : args) (w : world) (u : str)
    (Hurl : a_url a = Some u) :
  List.filter (fun x => is_sleep x || is_append x || is_log_read x)
    (emitted (download_single_file a) w) = [] ∧
  length (List.filter is_post (emitted (download_single_file a) w)) = 1%nat ∧
  (length (List.filter is_get (emitted (download_single_file a) w)) ≤ 1)%nat ∧
  (forall e, (exec (fetch_loom_download_url (extract_id u)) w).1 = inl e ->
     (exec (download_single_file a) w).1 = inl e ∧
     emitted (download_single_file a) w = [APost (transcoded_url (extract_id u))]) ∧
  (forall download_url e,
     (exec (fetch_loom_download_url (extract_id u)) w).1 = inr download_url ->
     (exec (download_loom_video download_url (single_output_path a (extract_id u)))
           (log_action (APrint (MsgDownloading (extract_id u) (single_output_path a (extract_id u))))
              (exec (fetch_loom_download_url (extract_id u)) w).2)).1 = inl e ->
     (exec (download_single_file a) w).1 = inl e).
Proof.
  rewrite (download_single_file_eq a u Hurl).
  set (id := extract_id u). set (path := single_output_path a id).
  rewrite emitted_bind, exec_bind, emitted_fetch_loom_download_url.
  destruct (exec (fetch_loom_download_url id) w) as [[e|url] w1] eqn:Hf; cbn [fst snd app].
  { repeat split; try reflexivity; try (simpl; lia); try congruence;
      intros ? ? [=]. }
  rewrite emitted_bind, exec_bind, exec_print, emitted_print. cbn [fst snd app].
  assert (Hquiet : List.filter (fun x => is_sleep x || is_append x || is_log_read x)
                     (emitted (download_loom_video url path) (log_action (APrint (MsgDownloading id path)) w1)) = []).
  { apply quiet_emitted. eapply only_weaken; [|apply download_loom_video_actions].
    intros [] H; simpl in *; try reflexivity; contradiction. }
  assert (Hpost : List.filter is_post
                     (emitted (download_loom_video url path) (log_action (APrint (MsgDownloading id path)) w1)) = []).
  { apply quiet_emitted. eapply only_weaken; [|apply download_loom_video_actions].
    intros [] H; simpl in *; try reflexivity; contradiction. }
  pose proof (download_loom_video_one_get url path (log_action (APrint (MsgDownloading id path)) w1)) as Hget.
  cbn [List.filter is_sleep is_append is_log_read is_post is_get orb].
  rewrite Hquiet, Hpost, Hget.
  repeat split; try reflexivity; try lia; try congruence.
Qed.

Lemma single_file_is_bare_witness :
  let a := {| a_url := Some (lit "https://www.loom.com/share/abc"); a_list := None;
              a_prefix := None; a_out := None; a_timeout := Some 5000 |} in
  emitted (download_single_file a) (Sample.remote [403]) =
    [APost (transcoded_url (lit "abc"));
     APrint (MsgDownloading (lit "abc") (lit "abc.mp4")); AGet (PStr (Sample.signed 0))] ∧
  (exec (download_single_file a) (Sample.remote [403])).1 = inl Forbidden.
Proof.
  intros a. split; [reflexivity|].
  destruct (single_file_is_bare a (Sample.remote [403]) (lit "https://www.loom.com/share/abc")
              eq_refl) as (_ & _ & _ & _ & H).
  apply (H (PStr (Sample.signed 0)) Forbidden); reflexivity.
Defined.

(** ** main *)

(** X21. [main] always either reports a usage error or starts exactly one
    mode; it never falls through. An empty [--url] or [--list] counts as
    absent. The list mode starts exactly when the list is given, the URL
    is not and the timeout is not negative; a negative timeout is
    rejected in the single-URL mode too, where it is not used. *)
Theorem main_dispatch (a : args) :
  main a ≠ Nothing ∧
  (main a = FromList <->
     truthy_opt (a_list a) = true ∧ truthy_opt (a_url a) = false ∧
     forall t, a_timeout a = Some t -> 0 ≤ t) ∧
  (main a = SingleFile <->
     truthy_opt (a_url a) = true ∧ truthy_opt (a_list a) = false ∧
     forall t, a_timeout a = Some t -> 0 ≤ t) ∧
  (forall t, a_timeout a = Some t -> t < 0 -> exists e, main a = Usage e).
Proof.
  unfold main.
  destruct (truthy_opt (a_url a)), (truthy_opt (a_list a)); simpl;
    destruct (a_timeout a) as [t|]; try destruct (Z.ltb_spec t 0); simpl;
    (split; [discriminate|]); (split; [|split]);
    try (split; [discriminate | intros (? & ? & ?); try discriminate]);
    try (split; [intros _; repeat split; try reflexivity; intros ? [= <-]; lia | reflexivity]);
    try (split; [intros _; repeat split; try reflexivity; intros ? [=] | reflexivity]);
    try (intros ? [= <-] ?; try lia; by eexists);
    try (intros ? [=]);
    try (exfalso; match goal with H : forall t, Some ?x = Some t -> _ |- _ =>
                    specialize (H x eq_refl); lia end).
Qed.

(** ** The parent directory of a fetch *)

Lemma react_dirs a w p : p ∈ dirs w -> p ∈ dirs (react a w).2.
Proof.
  intros Hp. destruct a; simpl; try exact Hp;
    repeat (case_match; simpl; try exact Hp).
  apply elem_of_union. by right.
Qed.

Lemma exec_dirs {A} (prog : prog A) w p : p ∈ dirs w -> p ∈ dirs (exec prog w).2.
Proof.
  revert w. induction prog as [v|e|a k IH]; intros w Hp; simpl; try exact Hp.
  pose proof (react_dirs a (log_action a w) p Hp) as Hr. unfold handle.
  destruct (react a (log_action a w)) as [x w']. by apply IH.
Qed.

(** X22. A fetch makes the directory of its destination before it asks
    the remote for anything, so the directory is there afterwards whatever
    the remote answers, a refusal included; a directory that is already
    there is not made again, and no directory is ever removed. *)
Theorem fetch_makes_parent_first (url : pyval) (output_path : str) (w : world)
    (Hdir : dirname output_path ≠ [])
    (Hfree : files w !! dirname output_path = None) :
  dirname output_path ∈ dirs (exec (download_loom_video url output_path) w).2 ∧
  (forall p, p ∈ dirs w -> p ∈ dirs (exec (download_loom_video url output_path) w).2) ∧
  exists rest,
    emitted (download_loom_video url output_path) w =
    (if bool_decide (dirname output_path ∈ dirs w)
     then [AExists (dirname output_path)]
     else [AExists (dirname output_path); AMakedirs (dirname output_path)])
    ++ AGet url :: rest.
Proof.
  split; [|split; [intros p; apply exec_dirs|]].
  - rewrite download_loom_video_eq, exec_bind.
    destruct (ensure_parent_effect output_path w) as (w1 & -> & _ & _ & _ & _ & _ & Hpar).
    apply exec_dirs, Hpar; [by destruct (dirname output_path) | exact Hfree].
  - rewrite download_loom_video_eq, emitted_bind.
    destruct (ensure_parent_effect output_path w) as (w1 & He & _).
    rewrite He. cbn [fst snd]. unfold get. simpl bind. rewrite emitted_vis.
    eexists. f_equal.
    unfold ensure_parent. destruct (dirname output_path) as [|c d] eqn:Hd; [contradiction|].
    simpl truthy. cbv iota. unmonad. unfold path_exists. simpl bind.
    rewrite emitted_vis. unfold handle. simpl.
    rewrite Hfree. simpl. rewrite orb_false_r.
    destruct (bool_decide (c :: d ∈ dirs w)); simpl.
    + by rewrite emitted_ret.
    + unfold makedirs. rewrite emitted_vis. f_equal. f_equal.
      unfold handle. simpl. rewrite Hfree. simpl. apply emitted_ret.
Qed.

Lemma fetch_makes_parent_first_witness :
  lit "/out" ∈ dirs (exec (download_loom_video (PStr (lit "u")) (lit "/out/abc.mp4"))
                         (Sample.media_server 403 (lit "Forbidden"))).2.
Proof.
  assert (Hdir : dirname (lit "/out/abc.mp4") ≠ []) by discriminate.
  exact (proj1 (fetch_makes_parent_first (PStr (lit "u")) (lit "/out/abc.mp4")
                  (Sample.media_server 403 (lit "Forbidden")) Hdir eq_refl)).
Defined.
